(** * SATpwn: activity inference, auto-mode decision, AP/client memory

    A shallow embedding of [SATpwn.py] (the [SATpwn] plugin class) and the
    properties of its memory store, mode engine and persistence code.

    Modelling conventions.
    - The plugin keeps its memory as plain Python dictionaries that are
      filled from scanner data and from a JSON file, so the store is
      dynamically typed.  Values are embedded as [pyval]; a dictionary is an
      insertion-ordered association list, as a Python 3.7+ [dict] is.
    - Every [time.time()] read is an explicit argument.  Numbers (Python
      [int] and [float]) are integers; timestamps are whole seconds.  The
      clock is a [float]: an integer that is subtracted from a clock read is
      converted to a [float] first, which raises [OverflowError] beyond the
      range of a [float]; infinities and NaN are not modelled.
    - Strings are sequences of bytes, the UTF-8 encoding of the Python
      string.
    - A Python exception is a [Raise] result.  Handlers that wrap their body
      in [try/except Exception] return a state and append to a log.
    - [json.dump] / [json.load] and the file system are the environment:
      a file holds either a JSON value or text that does not parse. *)

From Stdlib Require Import ZArith String Ascii List Bool Lia DecimalString.
From stdpp Require Import base option list sorting strings gmap.
Import ListNotations.
Local Open Scope string_scope.
Local Open Scope list_scope.
Local Open Scope Z_scope.

(** ** Python values *)

#[warnings="-register-all"]
Inductive pyval : Type :=
| PNone
| PBool (b : bool)
| PNum (n : Z)
| PStr (s : string)
| PList (l : list pyval)
| PDict (d : list (string * pyval)).

Inductive exn : Type :=
| AttributeError
| TypeError
| KeyError
| JSONDecodeError
| OSError
| OverflowError.

Inductive result (A : Type) : Type :=
| Ok (a : A)
| Raise (e : exn).
Arguments Ok {A} a.
Arguments Raise {A} e.

#[global] Instance result_ret : MRet result := fun _ a => Ok a.
#[global] Instance result_bind : MBind result := fun _ _ f r =>
  match r with
  | Ok a => f a
  | Raise e => Raise e
  end.

#[global] Instance result_fmap : FMap result := fun _ _ f r =>
  match r with
  | Ok a => Ok (f a)
  | Raise e => Raise e
  end.

(** ** Dictionaries: insertion-ordered association lists *)

Module Dict.
Section Ops.
Context {A : Type}.

(** [d.get(k)] / [d[k]]: the entry stored under [k]. *)
Fixpoint get (k : string) (d : list (string * A)) : option A :=
  match d with
  | [] => None
  | (k', v) :: d' => if String.eqb k k' then Some v else get k d'
  end.

(** [d[k] = v]: overwrite in place, or append a new entry. *)
Fixpoint set (k : string) (v : A) (d : list (string * A)) : list (string * A) :=
  match d with
  | [] => [(k, v)]
  | (k', v') :: d' =>
      if String.eqb k k' then (k, v) :: d' else (k', v') :: set k v d'
  end.

(** [del d[k]]. *)
Definition del (k : string) (d : list (string * A)) : list (string * A) :=
  List.filter (fun kv => negb (String.eqb k (fst kv))) d.

Definition mem (k : string) (d : list (string * A)) : bool :=
  match get k d with Some _ => true | None => false end.

Definition keys (d : list (string * A)) : list string := List.map fst d.
End Ops.
End Dict.

(** ** The Python operations the plugin uses *)

(** [int], [float] and [bool] take part in arithmetic. *)
Definition as_number (v : pyval) : option Z :=
  match v with
  | PNum n => Some n
  | PBool b => Some (if b then 1 else 0)
  | _ => None
  end.

(** The largest [float], and the first integer that [float(n)] rejects
    with [OverflowError]: the one half-way to [2 ^ 1024], which rounds up. *)
Definition FLOAT_MAX : Z := 2 ^ 1024 - 2 ^ 971.
Definition FLOAT_LIMIT : Z := 2 ^ 1024 - 2 ^ 970.

(** The integer [n] converts to a [float]. *)
Definition fits_float (n : Z) : bool := Z.abs n <? FLOAT_LIMIT.

(** [time.time()]: the clock read, in whole seconds, as a [float].  A read
    outside the range of a [float] does not occur; it is taken to the
    nearest end of the range. *)
Definition time_time (t : Z) : Z := Z.max (- FLOAT_MAX) (Z.min FLOAT_MAX t).

Arguments fits_float : simpl never.
Arguments time_time : simpl never.

(** [a - v] for a clock read [a], which is a [float]: [v] is converted to
    a [float], and an integer beyond the range of a [float] raises
    [OverflowError] ("int too large to convert to float"). *)
Definition py_sub (a : Z) (v : pyval) : result Z :=
  match as_number v with
  | Some n => if fits_float n then Ok (a - n) else Raise OverflowError
  | None => Raise TypeError
  end.

(** [o.get(k, dflt)]: only a dictionary has [get]. *)
Definition py_get (o : pyval) (k : string) (dflt : pyval) : result pyval :=
  match o with
  | PDict d => Ok (default dflt (Dict.get k d))
  | _ => Raise AttributeError
  end.

(** [o.items()]. *)
Definition py_items (o : pyval) : result (list (string * pyval)) :=
  match o with
  | PDict d => Ok d
  | _ => Raise AttributeError
  end.

Definition is_str (k : string) (v : pyval) : bool :=
  match v with
  | PStr s => String.eqb k s
  | _ => false
  end.

Fixpoint prefixb (p s : string) : bool :=
  match p, s with
  | EmptyString, _ => true
  | String a p', String b s' => Ascii.eqb a b && prefixb p' s'
  | String _ _, EmptyString => false
  end.

Fixpoint substringb (p s : string) : bool :=
  prefixb p s ||
  match s with
  | EmptyString => false
  | String _ s' => substringb p s'
  end.

(** [k in o] for a string [k]. *)
Definition py_in (k : string) (o : pyval) : result bool :=
  match o with
  | PDict d => Ok (Dict.mem k d)
  | PList l => Ok (existsb (is_str k) l)
  | PStr s => Ok (substringb k s)
  | _ => Raise TypeError
  end.

(** [o[k]] for a string [k]. *)
Definition py_getitem (o : pyval) (k : string) : result pyval :=
  match o with
  | PDict d =>
      match Dict.get k d with
      | Some v => Ok v
      | None => Raise KeyError
      end
  | _ => Raise TypeError
  end.

(** [o[k] = v] for a string [k]. *)
Definition py_setitem (o : pyval) (k : string) (v : pyval) : result pyval :=
  match o with
  | PDict d => Ok (PDict (Dict.set k v d))
  | _ => Raise TypeError
  end.

(** [del o[k]] for a string [k]. *)
Definition py_delitem (o : pyval) (k : string) : result pyval :=
  match o with
  | PDict d => if Dict.mem k d then Ok (PDict (Dict.del k d)) else Raise KeyError
  | _ => Raise TypeError
  end.

(** Truth value of an object, as [if o:] takes it. *)
Definition py_truthy (v : pyval) : bool :=
  match v with
  | PNone => false
  | PBool b => b
  | PNum n => negb (Z.eqb n 0)
  | PStr s => negb (String.eqb s "")
  | PList l => match l with [] => false | _ => true end
  | PDict d => match d with [] => false | _ => true end
  end.

(** [len(o)]. *)
Definition py_len (v : pyval) : result Z :=
  match v with
  | PStr s => Ok (Z.of_nat (String.length s))
  | PList l => Ok (Z.of_nat (List.length l))
  | PDict d => Ok (Z.of_nat (List.length d))
  | _ => Raise TypeError
  end.

Definition chars (s : string) : list string :=
  List.map (fun a => String a EmptyString) (list_ascii_of_string s).

(** The elements [for x in o] runs over. *)
Definition py_iter (v : pyval) : result (list pyval) :=
  match v with
  | PList l => Ok l
  | PStr s => Ok (List.map PStr (chars s))
  | PDict d => Ok (List.map PStr (Dict.keys d))
  | _ => Raise TypeError
  end.

Definition lower_ascii (a : ascii) : ascii :=
  let n := nat_of_ascii a in
  if ((65 <=? n) && (n <=? 90))%nat then ascii_of_nat (n + 32) else a.

Fixpoint lower (s : string) : string :=
  match s with
  | EmptyString => EmptyString
  | String a s' => String (lower_ascii a) (lower s')
  end.

(** [o.lower()]: only a string has [lower] (ASCII letters are mapped). *)
Definition py_lower (v : pyval) : result string :=
  match v with
  | PStr s => Ok (lower s)
  | _ => Raise AttributeError
  end.

(** [o in s] for a set of strings [s]: the object is hashed first. *)
Definition py_in_set (v : pyval) (s : gset string) : result bool :=
  match v with
  | PStr x => Ok (bool_decide (x ∈ s))
  | PList _ | PDict _ => Raise TypeError
  | _ => Ok false
  end.

(** ** Constants of the class *)

Definition AP_EXPIRY_SECONDS : Z := 3600 * 48.
Definition CLIENT_EXPIRY_SECONDS : Z := 3600 * 24.
Definition DRIVE_BY_AP_EXPIRY_SECONDS : Z := 1800.
Definition DRIVE_BY_CLIENT_EXPIRY_SECONDS : Z := 900.
Definition STATIONARY_SECONDS : Z := 3600.
Definition ACTIVITY_THRESHOLD : Z := 5.
Definition ACTIVITY_WINDOW_SECONDS : Z := 300.
Definition version : string := "x88.0.7".

Definition modes : list string := ["strict"; "loose"; "drive-by"; "recon"; "auto"].
Definition default_mode : string := "strict".

(** ** Plugin state *)

Inductive log_event : Type :=
| ErrSavingMemory (e : exn)
| ErrLoadingMemory (e : exn)
| WarnInvalidSavedMode
| ErrProcessingApList (e : exn)
| InfoAutoSwitch (old : option string) (new : string).

Record plugin : Type := mkPlugin {
  ready : bool;
  memory : pyval;
  mode : string;
  memory_is_dirty : bool;
  _last_activity_check : Z;
  _activity_history : list (Z * Z);
  home_whitelist : gset string;
  _current_auto_submode : option string;
  _stationary_start : pyval;
  log : list log_event
}.

(** [__init__], given the whitelist that [_load_home_whitelist] read. *)
Definition init (whitelist : gset string) : plugin :=
  {| ready := false;
     memory := PDict [];
     mode := default_mode;
     memory_is_dirty := true;
     _last_activity_check := 0;
     _activity_history := [];
     home_whitelist := whitelist;
     _current_auto_submode := None;
     _stationary_start := PNone;
     log := [] |}.

Definition set_memory (m : pyval) (st : plugin) : plugin :=
  {| ready := ready st; memory := m; mode := mode st;
     memory_is_dirty := memory_is_dirty st;
     _last_activity_check := _last_activity_check st;
     _activity_history := _activity_history st;
     home_whitelist := home_whitelist st;
     _current_auto_submode := _current_auto_submode st;
     _stationary_start := _stationary_start st; log := log st |}.

Definition set_mode (m : string) (st : plugin) : plugin :=
  {| ready := ready st; memory := memory st; mode := m;
     memory_is_dirty := memory_is_dirty st;
     _last_activity_check := _last_activity_check st;
     _activity_history := _activity_history st;
     home_whitelist := home_whitelist st;
     _current_auto_submode := _current_auto_submode st;
     _stationary_start := _stationary_start st; log := log st |}.

Definition set_dirty (b : bool) (st : plugin) : plugin :=
  {| ready := ready st; memory := memory st; mode := mode st;
     memory_is_dirty := b;
     _last_activity_check := _last_activity_check st;
     _activity_history := _activity_history st;
     home_whitelist := home_whitelist st;
     _current_auto_submode := _current_auto_submode st;
     _stationary_start := _stationary_start st; log := log st |}.

Definition set_last_activity_check (t : Z) (st : plugin) : plugin :=
  {| ready := ready st; memory := memory st; mode := mode st;
     memory_is_dirty := memory_is_dirty st;
     _last_activity_check := t;
     _activity_history := _activity_history st;
     home_whitelist := home_whitelist st;
     _current_auto_submode := _current_auto_submode st;
     _stationary_start := _stationary_start st; log := log st |}.

Definition set_activity_history (h : list (Z * Z)) (st : plugin) : plugin :=
  {| ready := ready st; memory := memory st; mode := mode st;
     memory_is_dirty := memory_is_dirty st;
     _last_activity_check := _last_activity_check st;
     _activity_history := h;
     home_whitelist := home_whitelist st;
     _current_auto_submode := _current_auto_submode st;
     _stationary_start := _stationary_start st; log := log st |}.

Definition set_current_auto_submode (m : option string) (st : plugin) : plugin :=
  {| ready := ready st; memory := memory st; mode := mode st;
     memory_is_dirty := memory_is_dirty st;
     _last_activity_check := _last_activity_check st;
     _activity_history := _activity_history st;
     home_whitelist := home_whitelist st;
     _current_auto_submode := m;
     _stationary_start := _stationary_start st; log := log st |}.

Definition set_stationary_start (v : pyval) (st : plugin) : plugin :=
  {| ready := ready st; memory := memory st; mode := mode st;
     memory_is_dirty := memory_is_dirty st;
     _last_activity_check := _last_activity_check st;
     _activity_history := _activity_history st;
     home_whitelist := home_whitelist st;
     _current_auto_submode := _current_auto_submode st;
     _stationary_start := v; log := log st |}.

Definition set_ready (b : bool) (st : plugin) : plugin :=
  {| ready := b; memory := memory st; mode := mode st;
     memory_is_dirty := memory_is_dirty st;
     _last_activity_check := _last_activity_check st;
     _activity_history := _activity_history st;
     home_whitelist := home_whitelist st;
     _current_auto_submode := _current_auto_submode st;
     _stationary_start := _stationary_start st; log := log st |}.

Definition add_log (e : log_event) (st : plugin) : plugin :=
  {| ready := ready st; memory := memory st; mode := mode st;
     memory_is_dirty := memory_is_dirty st;
     _last_activity_check := _last_activity_check st;
     _activity_history := _activity_history st;
     home_whitelist := home_whitelist st;
     _current_auto_submode := _current_auto_submode st;
     _stationary_start := _stationary_start st; log := log st ++ [e] |}.

(** ** Activity tracker and motion classifier *)

(** [_update_activity_history]: append the sample, drop the samples that
    left the window. *)
Definition _update_activity_history (new_ap_count now : Z) (st : plugin) : plugin :=
  let hist := _activity_history st ++ [(now, new_ap_count)] in
  let cutoff := now - ACTIVITY_WINDOW_SECONDS in
  set_activity_history (List.filter (fun s => cutoff <? fst s) hist) st.

(** The sum both predicates compute over the history. *)
Definition recent_activity (hist : list (Z * Z)) (now : Z) : Z :=
  fold_right Z.add 0
    (List.map snd
       (List.filter (fun s => now - fst s <=? ACTIVITY_WINDOW_SECONDS) hist)).

(** ** Stateful code that may raise

    A method that mutates [self] and may raise is a function from the state
    to an [outcome]: the state reached is kept when an exception leaves the
    method, as the object keeps its mutations in Python. *)

Inductive outcome (A : Type) : Type :=
| Returns (a : A) (st : plugin)
| Raises (e : exn) (st : plugin).
Arguments Returns {A} a st.
Arguments Raises {A} e st.

Definition M (A : Type) : Type := plugin -> outcome A.

Definition ret {A} (a : A) : M A := fun st => Returns a st.

Definition bind {A B} (m : M A) (k : A -> M B) : M B := fun st =>
  match m st with
  | Returns a st' => k a st'
  | Raises e st' => Raises e st'
  end.

(** Evaluate an expression that reads no state of its own. *)
Definition lift {A} (r : result A) : M A := fun st =>
  match r with
  | Ok a => Returns a st
  | Raise e => Raises e st
  end.

Definition gets {A} (f : plugin -> A) : M A := fun st => Returns (f st) st.

(** An expression over the state that may raise. *)
Definition reads {A} (f : plugin -> result A) : M A := fun st => lift (f st) st.

(** A block that raises before it mutates anything, or completes. *)
Definition atomic (f : plugin -> result plugin) : M unit := fun st =>
  match f st with
  | Ok st' => Returns tt st'
  | Raise e => Raises e st
  end.

Definition modify (f : plugin -> plugin) : M unit := fun st => Returns tt (f st).

Definition final_state {A} (o : outcome A) : plugin :=
  match o with
  | Returns _ st => st
  | Raises _ st => st
  end.

Notation "'let!' x ':=' m 'in' k" := (bind m (fun x => k))
  (at level 10, x pattern, m at level 100, k at level 200).
Notation "m ';;;' k" := (bind m (fun _ => k))
  (at level 100, k at level 200, right associativity).

(** [_is_stationary]: the timer is started, kept or reset, and the answer
    is whether it has run for [STATIONARY_SECONDS].  The time since the
    start, which the debug message formats with [.0f], cannot be taken of
    a timer that is an integer beyond the range of a [float]: the
    evaluation raises [OverflowError] then. *)
Definition _is_stationary (now : Z) : M bool :=
  let! hist := gets _activity_history in
  let low_activity := recent_activity hist now <? ACTIVITY_THRESHOLD in
  if low_activity then
    let! start := gets _stationary_start in
    (match start with
     | PNone => modify (set_stationary_start (PNum now))
     | _ => ret tt
     end);;;
    let! start := gets _stationary_start in
    let! elapsed := lift (py_sub now start) in
    ret (STATIONARY_SECONDS <=? elapsed)
  else
    let! start := gets _stationary_start in
    (match start with
     | PNone => ret tt
     | _ => modify (set_stationary_start PNone)
     end);;;
    ret false.

(** [_is_moving]. *)
Definition _is_moving (now : Z) (st : plugin) : bool :=
  ACTIVITY_THRESHOLD <=? recent_activity (_activity_history st) now.

(** ** Home-presence detector *)

Fixpoint home_scan (wl : gset string) (items : list (string * pyval)) : result bool :=
  match items with
  | [] => Ok false
  | (ap_mac, ap) :: rest =>
      ssid ← py_get ap "ssid" (PStr "");
      hit ← py_in_set ssid wl;
      if hit || bool_decide (ap_mac ∈ wl) then Ok true else home_scan wl rest
  end.

(** [_home_ssid_visible].  The debug message of its second line takes
    [len(self.memory)] before anything else is looked at. *)
Definition _home_ssid_visible (st : plugin) : result bool :=
  ap_count ← py_len (memory st);
  if bool_decide (home_whitelist st = ∅) then Ok false
  else
    items ← py_items (memory st);
    home_scan (home_whitelist st) items.

(** ** Mode decision engine *)

(** [_auto_mode_logic]; the two motion predicates read the clock one
    after the other. *)
Definition _auto_mode_logic (t_stationary t_moving : Z) : M string :=
  let! home_ssid_visible := reads _home_ssid_visible in
  let! is_stationary := _is_stationary t_stationary in
  let! is_moving := gets (_is_moving t_moving) in
  if home_ssid_visible || is_stationary then ret "recon"
  else if is_moving then ret "drive-by"
  else
    let! n := reads (fun st => py_len (memory st)) in
    ret (if n <? 10 then "loose" else "strict").

(** ** Memory store: ingest *)

(** The record a first observation of an access point creates. *)
Definition new_ap_record (ssid rssi channel encryption : pyval) (now : Z) : pyval :=
  PDict [("ssid", ssid);
         ("first_seen", PNum now);
         ("last_seen", PNum now);
         ("rssi", rssi);
         ("channel", channel);
         ("encryption", encryption);
         ("clients", PDict []);
         ("attack_history", PList []);
         ("handshakes", PNum 0);
         ("pmkid_attempts", PNum 0);
         ("score", PNum 0)].

Definition new_client_record (now : Z) : pyval :=
  PDict [("first_seen", PNum now); ("last_seen", PNum now); ("packets", PNum 0)].

(** [x.get('mac', '').lower()]. *)
Definition mac_of (x : pyval) : result string :=
  mac ← py_get x "mac" (PStr "");
  py_lower mac.

(** The branch that creates or updates the entry of [ap_mac].  It raises
    before it changes anything or not at all, so it is a [result]. *)
Definition ingest_entry (now : Z) (ap_mac : string) (ssid rssi channel encryption : pyval)
    (st : plugin) : result plugin :=
  present ← py_in ap_mac (memory st);
  if negb present then
    m ← py_setitem (memory st) ap_mac (new_ap_record ssid rssi channel encryption now);
    mret (set_dirty true (set_memory m st))
  else
    ap_entry ← py_getitem (memory st) ap_mac;
    e1 ← py_setitem ap_entry "last_seen" (PNum now);
    e2 ← py_setitem e1 "rssi" rssi;
    e3 ← (if py_truthy ssid then py_setitem e2 "ssid" ssid else mret e2);
    m ← py_setitem (memory st) ap_mac e3;
    mret (set_memory m st).

(** One client observation of the access point [ap_mac]; atomic as well. *)
Definition ingest_client (now : Z) (ap_mac : string) (client_data : pyval)
    (st : plugin) : result plugin :=
  client_mac ← mac_of client_data;
  if String.eqb client_mac "" then mret st
  else
    ap ← py_getitem (memory st) ap_mac;
    clients ← py_getitem ap "clients";
    present ← py_in client_mac clients;
    if negb present then
      clients' ← py_setitem clients client_mac (new_client_record now);
      ap' ← py_setitem ap "clients" clients';
      m ← py_setitem (memory st) ap_mac ap';
      mret (set_dirty true (set_memory m st))
    else
      c ← py_getitem clients client_mac;
      c' ← py_setitem c "last_seen" (PNum now);
      clients' ← py_setitem clients client_mac c';
      ap' ← py_setitem ap "clients" clients';
      m ← py_setitem (memory st) ap_mac ap';
      mret (set_memory m st).

Fixpoint ingest_clients (now : Z) (ap_mac : string) (clients : list pyval) : M unit :=
  match clients with
  | [] => ret tt
  | client_data :: rest =>
      atomic (ingest_client now ap_mac client_data);;;
      ingest_clients now ap_mac rest
  end.

(** The loop over the clients an access point was reported with. *)
Definition ingest_ap_clients (now : Z) (ap_mac : string) (ap_data : pyval) : M unit :=
  let! clients := lift (py_get ap_data "clients" (PList [])) in
  let! clients := lift (py_iter clients) in
  ingest_clients now ap_mac clients.

(** One iteration of the loop over the access points of a batch: the body
    of [for ap_data in aps].  The value is the running [new_ap_count]. *)
Definition ingest_ap (now : Z) (ap_data : pyval) (new_ap_count : Z) : M Z :=
  let! ap_mac := lift (mac_of ap_data) in
  if String.eqb ap_mac "" then ret new_ap_count
  else
    let! ssid := lift (py_get ap_data "hostname" (PStr "")) in
    let! rssi := lift (py_get ap_data "rssi" (PNum 0)) in
    let! channel := lift (py_get ap_data "channel" (PNum 0)) in
    let! encryption := lift (py_get ap_data "encryption" (PStr "")) in
    let! is_new_ap := reads (fun st => negb <$> py_in ap_mac (memory st)) in
    let new_ap_count := if (is_new_ap : bool) then new_ap_count + 1 else new_ap_count in
    atomic (ingest_entry now ap_mac ssid rssi channel encryption);;;
    ingest_ap_clients now ap_mac ap_data;;;
    ret new_ap_count.

Fixpoint ingest_aps (now : Z) (aps : list pyval) (new_ap_count : Z) : M Z :=
  match aps with
  | [] => ret new_ap_count
  | ap_data :: rest =>
      let! new_ap_count := ingest_ap now ap_data new_ap_count in
      ingest_aps now rest new_ap_count
  end.

(** The clock reads of one call of [on_unfiltered_ap_list], in program
    order: the handler itself, [_update_activity_history],
    [_is_stationary] and [_is_moving]. *)
Record ticks : Type := mkTicks {
  t_now : Z;
  t_history : Z;
  t_stationary : Z;
  t_moving : Z
}.

(** All reads of a call at one instant. *)
Definition at_time (t : Z) : ticks :=
  {| t_now := t; t_history := t; t_stationary := t; t_moving := t |}.

(** The [try] block of [on_unfiltered_ap_list]. *)
Definition process_ap_list (t : ticks) (data : pyval) : M unit :=
  let! wifi := lift (py_get data "wifi" (PDict [])) in
  let! aps := lift (py_get wifi "aps" (PList [])) in
  let! aps := lift (py_iter aps) in
  let! new_ap_count := ingest_aps (t_now t) aps 0 in
  modify (_update_activity_history new_ap_count (t_history t));;;
  let! mode := gets mode in
  if String.eqb mode "auto" then
    let! new_submode := _auto_mode_logic (t_stationary t) (t_moving t) in
    let! current := gets _current_auto_submode in
    if bool_decide (Some new_submode = current) then ret tt
    else
      modify (add_log (InfoAutoSwitch current new_submode));;;
      modify (set_current_auto_submode (Some new_submode))
  else ret tt.

(** [on_unfiltered_ap_list]. *)
Definition on_unfiltered_ap_list (t : ticks) (data : pyval) (st : plugin) : plugin :=
  if negb (ready st) then st
  else
    let st :=
      if 30 <? t_now t - _last_activity_check st
      then set_last_activity_check (t_now t) st
      else st in
    match process_ap_list t data st with
    | Returns _ st' => st'
    | Raises e st' => add_log (ErrProcessingApList e) st'
    end.

(** ** Memory store: eviction *)

Definition ap_expiry (mode : string) : Z :=
  if String.eqb mode "drive-by" then DRIVE_BY_AP_EXPIRY_SECONDS else AP_EXPIRY_SECONDS.

Definition client_expiry (mode : string) : Z :=
  if String.eqb mode "drive-by" then DRIVE_BY_CLIENT_EXPIRY_SECONDS
  else CLIENT_EXPIRY_SECONDS.

(** [now - data.get("last_seen", 0)]. *)
Definition age (now : Z) (data : pyval) : result Z :=
  last_seen ← py_get data "last_seen" (PNum 0);
  py_sub now last_seen.

(** [now - data.get("last_seen", 0) > expiry]. *)
Definition is_expired (now expiry : Z) (data : pyval) : result bool :=
  a ← age now data;
  mret (expiry <? a).

(** [[k for k, data in items if now - data.get("last_seen", 0) > expiry]]. *)
Fixpoint expired_keys (now expiry : Z) (items : list (string * pyval)) : result (list string) :=
  match items with
  | [] => Ok []
  | (k, data) :: rest =>
      expired ← is_expired now expiry data;
      ks ← expired_keys now expiry rest;
      mret (if (expired : bool) then k :: ks else ks)
  end.

(** [for k in ks: if k in d: del d[k]]. *)
Definition del_keys {A} (ks : list string) (d : list (string * A)) : list (string * A) :=
  fold_left (fun d k => if Dict.mem k d then Dict.del k d else d) ks d.

(** [if client_mac in ap["clients"]: del ap["clients"][client_mac]]. *)
Definition del_client (client_mac : string) (ap : pyval) : result pyval :=
  clients ← py_getitem ap "clients";
  present ← py_in client_mac clients;
  if (present : bool) then
    clients' ← py_delitem clients client_mac;
    py_setitem ap "clients" clients'
  else mret ap.

Fixpoint del_clients (expired_clients : list string) (ap : pyval) : result pyval :=
  match expired_clients with
  | [] => Ok ap
  | client_mac :: rest =>
      ap' ← del_client client_mac ap;
      del_clients rest ap'
  end.

(** The body of the second loop of [_cleanup_memory] for one entry. *)
Definition prune_clients (now expiry : Z) (ap : pyval) : result pyval :=
  clients ← py_get ap "clients" (PDict []);
  items ← py_items clients;
  expired_clients ← expired_keys now expiry items;
  del_clients expired_clients ap.

(** [for ap_mac in list(self.memory.keys())]: the entries pruned before an
    exception stay pruned. *)
Fixpoint sweep_clients (now expiry : Z) (ap_macs : list string)
    (mem : list (string * pyval)) : list (string * pyval) * option exn :=
  match ap_macs with
  | [] => (mem, None)
  | ap_mac :: rest =>
      match Dict.get ap_mac mem with
      | None => sweep_clients now expiry rest mem
      | Some ap =>
          match prune_clients now expiry ap with
          | Ok ap' => sweep_clients now expiry rest (Dict.set ap_mac ap' mem)
          | Raise e => (mem, Some e)
          end
      end
  end.

(** The sweep with the two lifetimes given. *)
Definition sweep (ap_ttl client_ttl now : Z) : M unit :=
  modify (set_dirty true);;;
  let! items := reads (fun st => py_items (memory st)) in
  let! expired_aps := lift (expired_keys now ap_ttl items) in
  let mem := del_keys expired_aps items in
  let '(mem', err) := sweep_clients now client_ttl (Dict.keys mem) mem in
  modify (set_memory (PDict mem'));;;
  match err with
  | None => ret tt
  | Some e => lift (Raise e)
  end.

(** [_cleanup_memory]. *)
Definition _cleanup_memory (now : Z) : M unit :=
  let! mode := gets mode in
  sweep (ap_expiry mode) (client_expiry mode) now.

(** ** Persistence *)

(** What is at [memory_path]: nothing, or a file that is the text of a
    JSON value or is not JSON at all. *)
Inductive file : Type :=
| JsonText (doc : pyval)
| Unparsable.

(** How the write of [_save_memory] goes: it completes, [open] fails and
    the old file stays, or [json.dump] fails on the truncated file. *)
Inductive write_result : Type :=
| WriteOk
| OpenFails
| DumpFails.

(** The structure [_save_memory] hands to [json.dump]; [now] is the clock
    read of ["last_saved": time.time()]. *)
Definition memory_data (now : Z) (st : plugin) : pyval :=
  PDict [("plugin_metadata",
          PDict [("current_mode", PStr (mode st));
                 ("last_saved", PNum (time_time now));
                 ("version", PStr version);
                 ("stationary_start", _stationary_start st)]);
         ("ap_data", memory st)].

(** [_save_memory]: the state and the file afterwards. *)
Definition _save_memory (now : Z) (w : write_result) (st : plugin) (disk : option file)
    : plugin * option file :=
  match w with
  | WriteOk => (st, Some (JsonText (memory_data now st)))
  | OpenFails => (add_log (ErrSavingMemory OSError) st, disk)
  | DumpFails => (add_log (ErrSavingMemory OSError) st, Some Unparsable)
  end.

(** [saved_mode in self.modes]: only a string equals a string. *)
Definition in_modes (v : pyval) : bool :=
  existsb (fun m => is_str m v) modes.

Definition restore_mode (saved_mode : pyval) : M unit :=
  match saved_mode with
  | PStr s =>
      if in_modes saved_mode then modify (set_mode s)
      else modify (add_log WarnInvalidSavedMode);;; modify (set_mode default_mode)
  | _ => modify (add_log WarnInvalidSavedMode);;; modify (set_mode default_mode)
  end.

(** The [try] block of [_load_memory].  The age of the snapshot, which
    the last message formats with [.0f], cannot be taken when the time of
    the last save is an integer beyond the range of a [float]: the block
    raises [OverflowError] then, after the memory, the mode and the timer
    were set. *)
Definition load_file (now : Z) (f : file) : M unit :=
  let! data :=
    lift (match f with
          | JsonText doc => Ok doc
          | Unparsable => Raise JSONDecodeError
          end) in
  let! has_metadata := lift (py_in "plugin_metadata" data) in
  if (has_metadata : bool) then
    let! metadata := lift (py_getitem data "plugin_metadata") in
    let! ap_data := lift (py_get data "ap_data" (PDict [])) in
    modify (set_memory ap_data);;;
    let! saved_mode := lift (py_get metadata "current_mode" (PStr default_mode)) in
    restore_mode saved_mode;;;
    let! stationary_start := lift (py_get metadata "stationary_start" PNone) in
    modify (set_stationary_start stationary_start);;;
    let! last_saved := lift (py_get metadata "last_saved" (PNum 0)) in
    let! time_diff := lift (py_sub now last_saved) in
    ret tt
  else
    modify (set_memory data);;;
    modify (set_mode default_mode).

(** [_load_memory]. *)
Definition _load_memory (now : Z) (disk : option file) (st : plugin) : plugin :=
  match disk with
  | Some f =>
      match load_file now f st with
      | Returns _ st' => st'
      | Raises e st' =>
          set_mode default_mode (set_memory (PDict []) (add_log (ErrLoadingMemory e) st'))
      end
  | None => st
  end.

(** ** Plugin callbacks *)

(** [on_loaded]. *)
Definition on_loaded (now : Z) (disk : option file) (st : plugin) : plugin :=
  _load_memory now disk st.

(** [on_ready]. *)
Definition on_ready (st : plugin) : plugin := set_ready true st.

(** What the host does to one periodic tick: the epoch number, the clock
    read by the sweep and by the save, and how a write would go. *)
Record tick : Type := mkTick {
  epoch : Z;
  t_cleanup : Z;
  t_save : Z;
  write : write_result
}.

(** [if epoch % 10 == 0: self._cleanup_memory()]. *)
Definition epoch_cleanup (k : tick) : M unit :=
  if epoch k mod 10 =? 0 then _cleanup_memory (t_cleanup k) else ret tt.

(** [on_epoch]: an exception of the sweep leaves the handler. *)
Definition on_epoch (k : tick) (disk : option file) (st : plugin)
    : outcome unit * option file :=
  if negb (ready st) then (Returns tt st, disk)
  else
    match epoch_cleanup k st with
    | Raises e st' => (Raises e st', disk)
    | Returns _ st' =>
        if memory_is_dirty st' && (epoch k mod 5 =? 0) then
          let '(st'', disk') := _save_memory (t_save k) (write k) st' disk in
          (Returns tt (set_dirty false st''), disk')
        else (Returns tt st', disk)
    end.

(** [on_unload]. *)
Definition on_unload (now : Z) (w : write_result) (disk : option file) (st : plugin)
    : plugin * option file :=
  if memory_is_dirty st then _save_memory now w st disk else (st, disk).

(** ** Runs of the handlers

    The host calls the handlers one after the other; a run is the list of
    what each call was given. *)

(** An evaluation of the stationary predicate: the history the tracker
    holds at that moment and the clock. *)
Definition evaluate (ev : list (Z * Z) * Z) (st : plugin) : outcome bool :=
  _is_stationary (snd ev) (set_activity_history (fst ev) st).

Definition evaluations (evs : list (list (Z * Z) * Z)) (st : plugin) : plugin :=
  fold_left (fun st ev => final_state (evaluate ev st)) evs st.

(** The windowed activity an evaluation saw. *)
Definition activity_of (ev : list (Z * Z) * Z) : Z := recent_activity (fst ev) (snd ev).

(** Ingest batches delivered one after the other. *)
Definition ingests (batches : list (ticks * pyval)) (st : plugin) : plugin :=
  fold_left (fun st b => on_unfiltered_ap_list (fst b) (snd b) st) batches st.

(** The times at which the batches of a run were delivered. *)
Definition batch_times (batches : list (ticks * pyval)) : list Z :=
  List.map (fun b => t_now (fst b)) batches.

(** While the timer runs, it was started no earlier than any evaluation
    of the run that saw high activity. *)
Definition timer_after_high (evs : list (list (Z * Z) * Z)) (st : plugin) : Prop :=
  match _stationary_start st with
  | PNone => True
  | PNum s =>
      forall ev : list (Z * Z) * Z,
        In ev evs -> ACTIVITY_THRESHOLD <= activity_of ev -> snd ev <= s
  | _ => False
  end.

(** ** Reading the store

    What the properties below say about records: how old a record is, and
    which clients an access point holds. *)

(** A record that is not older than [ttl] at time [now]: the age the sweep
    computes, [now - data.get("last_seen", 0)], is defined and is not
    greater than [ttl]. *)
Definition fresh_at (now ttl : Z) (data : pyval) : Prop :=
  exists a, age now data = Ok a /\ a <= ttl.

(** The client mapping of an access point record. *)
Definition clients_of (ap : pyval) : option (list (string * pyval)) :=
  match ap with
  | PDict d =>
      match Dict.get "clients" d with
      | Some (PDict clients) => Some clients
      | _ => None
      end
  | _ => None
  end.

Definition clients_fresh (now ttl : Z) (ap : pyval) : Prop :=
  forall clients, clients_of ap = Some clients ->
    forall client_mac c, In (client_mac, c) clients -> fresh_at now ttl c.

(** [ap'] is [ap] with some clients removed: each field but [clients] is
    the same, and every client of [ap'] is a client of [ap]. *)
Definition pruned_from (ap ap' : pyval) : Prop :=
  exists d d', ap = PDict d /\ ap' = PDict d' /\
    (forall field, field <> "clients" -> Dict.get field d' = Dict.get field d) /\
    (forall clients', clients_of ap' = Some clients' ->
       exists clients, clients_of ap = Some clients /\
         forall client_mac c, In (client_mac, c) clients' -> In (client_mac, c) clients).

(** The two timestamps of a record. *)
Definition stamp_of (field : string) (v : pyval) : option Z :=
  match v with
  | PDict d =>
      match Dict.get field d with
      | Some (PNum t) => Some t
      | _ => None
      end
  | _ => None
  end.

Definition first_seen_of : pyval -> option Z := stamp_of "first_seen".
Definition last_seen_of : pyval -> option Z := stamp_of "last_seen".

(** A record seen first at [f] and last at [l], with [f <= l <= t]. *)
Definition stamped (t : Z) (v : pyval) : Prop :=
  exists f l, first_seen_of v = Some f /\ last_seen_of v = Some l /\ f <= l <= t.

(** From [v] to [v']: first-seen is the same and last-seen did not go back. *)
Definition stamp_grows (v v' : pyval) : Prop :=
  first_seen_of v' = first_seen_of v /\
  exists l l', last_seen_of v = Some l /\ last_seen_of v' = Some l' /\ l <= l'.

(** An access point record whose stamps and whose clients' stamps are in
    order at time [t]. *)
Definition record_ok (t : Z) (ap : pyval) : Prop :=
  stamped t ap /\
  forall clients, clients_of ap = Some clients ->
    forall client_mac c, Dict.get client_mac clients = Some c -> stamped t c.

Definition record_grows (ap ap' : pyval) : Prop :=
  stamp_grows ap ap' /\
  forall clients, clients_of ap = Some clients ->
    exists clients', clients_of ap' = Some clients' /\
      forall client_mac c, Dict.get client_mac clients = Some c ->
        exists c', Dict.get client_mac clients' = Some c' /\ stamp_grows c c'.

Definition store_ok (t : Z) (m : pyval) : Prop :=
  exists aps, m = PDict aps /\
    forall ap_mac ap, Dict.get ap_mac aps = Some ap -> record_ok t ap.

(** Every record of [m] is still in [m'], under its key, and has grown. *)
Definition store_grows (m m' : pyval) : Prop :=
  exists aps aps', m = PDict aps /\ m' = PDict aps' /\
    forall ap_mac ap, Dict.get ap_mac aps = Some ap ->
      exists ap', Dict.get ap_mac aps' = Some ap' /\ record_grows ap ap'.

(** A step of the ingest at time [now]: a store in order at an earlier
    time is in order at [now] afterwards, and its records have grown. *)
Definition advances (now : Z) (st st' : plugin) : Prop :=
  forall t, t <= now -> store_ok t (memory st) ->
    store_ok now (memory st') /\ store_grows (memory st) (memory st').

(** From [st] to [st']: the memory and the dirty flag are untouched. *)
Definition same_store (st st' : plugin) : Prop :=
  memory st' = memory st /\ memory_is_dirty st' = memory_is_dirty st.


(** A computation all of whose outcomes are related to the state it
    started in. *)
Definition preserves (R : plugin -> plugin -> Prop) {A} (m : M A) : Prop :=
  forall st, R st (final_state (m st)).

(** What the update branch of the ingest makes of the fields of a record. *)
Definition updated_entry (now : Z) (ssid rssi : pyval) (d : list (string * pyval))
    : list (string * pyval) :=
  let d := Dict.set "rssi" rssi (Dict.set "last_seen" (PNum now) d) in
  if py_truthy ssid then Dict.set "ssid" ssid d else d.

(** The store [aps] with the client [client_mac] of its record [ap_mac] set
    to [c]; [d] are the fields of that record and [clients] its clients. *)
Definition with_client (ap_mac client_mac : string) (c : pyval)
    (aps d clients : list (string * pyval)) : pyval :=
  PDict (Dict.set ap_mac
           (PDict (Dict.set "clients" (PDict (Dict.set client_mac c clients)) d)) aps).

(** From [st] to [st']: the dirty flag is not cleared, the other
    records are the same, and the record of [ap_mac], if the store has
    one, has its fields other than [clients] as before. *)
Definition keeps_fields (ap_mac : string) (st st' : plugin) : Prop :=
  (memory_is_dirty st = true -> memory_is_dirty st' = true) /\
  forall aps d, memory st = PDict aps -> Dict.get ap_mac aps = Some (PDict d) ->
    exists aps' d',
      memory st' = PDict aps' /\ Dict.get ap_mac aps' = Some (PDict d') /\
      (forall field, field <> "clients" -> Dict.get field d' = Dict.get field d) /\
      (forall other, other <> ap_mac -> Dict.get other aps' = Dict.get other aps).

(** A record after zero or more prunings. *)
Definition derived_from (ap ap' : pyval) : Prop := ap' = ap \/ pruned_from ap ap'.

(** ** Sample data

    Scanner data and plugin states the examples below run on. *)

(** An access point as the scanner reports it. *)
Definition observation_fields (mac hostname : string) (rssi : Z) (clients : list string)
    : list (string * pyval) :=
  [("mac", PStr mac);
   ("hostname", PStr hostname);
   ("rssi", PNum rssi);
   ("channel", PNum 6);
   ("encryption", PStr "WPA2");
   ("clients", PList (List.map (fun c => PDict [("mac", PStr c)]) clients))].

Definition observation (mac hostname : string) (rssi : Z) (clients : list string) : pyval :=
  PDict (observation_fields mac hostname rssi clients).

Definition batch (aps : list pyval) : pyval :=
  PDict [("wifi", PDict [("aps", PList aps)])].

(** A plugin that is ready and has seen nothing yet. *)
Definition fresh (whitelist : gset string) : plugin := on_ready (init whitelist).

(** In [auto] mode at time 200: the home network is in memory and six
    access points were discovered in the last five minutes. *)
Definition at_home_and_moving : plugin :=
  {| ready := true;
     memory := PDict [("11:22", new_ap_record (PStr "HomeNet") (PNum (-40)) (PNum 6)
                                  (PStr "WPA2") 200)];
     mode := "auto";
     memory_is_dirty := true;
     _last_activity_check := 200;
     _activity_history := [(200, 6)];
     home_whitelist := {["HomeNet"]};
     _current_auto_submode := None;
     _stationary_start := PNone;
     log := [] |}.

(** Quiet since time 0, with the timer started then. *)
Definition quiet_since_0 : plugin := set_stationary_start (PNum 0) (fresh ∅).

(** In [drive-by] mode at time 2000: one access point last seen 1900 s
    ago, and one seen 100 s ago with a client seen 1000 s ago and a client
    seen 100 s ago. *)
Definition drive_by_store : plugin :=
  {| ready := true;
     memory :=
       PDict [("aa:01", PDict [("ssid", PStr "Old"); ("first_seen", PNum 50);
                               ("last_seen", PNum 100);
                               ("clients", PDict [("c0:01", new_client_record 100)])]);
              ("aa:02", PDict [("ssid", PStr "Near"); ("first_seen", PNum 900);
                               ("last_seen", PNum 1900);
                               ("clients", PDict [("c0:02", new_client_record 1000);
                                                  ("c0:03", new_client_record 1900)])])];
     mode := "drive-by";
     memory_is_dirty := false;
     _last_activity_check := 1900;
     _activity_history := [];
     home_whitelist := ∅;
     _current_auto_submode := None;
     _stationary_start := PNone;
     log := [] |}.

Definition drive_by_store_swept : plugin :=
  set_dirty true
    (set_memory
       (PDict [("aa:02", PDict [("ssid", PStr "Near"); ("first_seen", PNum 900);
                                ("last_seen", PNum 1900);
                                ("clients", PDict [("c0:03", new_client_record 1900)])])])
       drive_by_store).



(** A tick of the periodic cycle at which the write fails. *)
Definition failing_tick (n : Z) : tick :=
  {| epoch := n; t_cleanup := 2000; t_save := 2000; write := OpenFails |}.

Definition working_tick (n : Z) : tick :=
  {| epoch := n; t_cleanup := 2000; t_save := 2000; write := WriteOk |}.

(** A store that has changes to save. *)
Definition unsaved_store : plugin := set_dirty true drive_by_store.

(** Two batches, at times 100 and 200; the second sees the access point
    and the client of the first again. *)
Definition two_batches : list (ticks * pyval) :=
  [(at_time 100, batch [observation "AA:BB" "Net1" (-40) ["CC:DD"]]);
   (at_time 200, batch [observation "aa:bb" "" (-50) ["cc:dd"; "EE:FF"];
                        observation "11:22" "Net2" (-70) []])].

(** ** Further readings of the state *)

(** The new-AP counts of a history are counts: none is negative. *)
Definition counts_nonneg (hist : list (Z * Z)) : Prop :=
  Forall (fun s => 0 <= snd s) hist.

(** The sum of all counts a history holds. *)
Definition total_count (hist : list (Z * Z)) : Z :=
  fold_right Z.add 0 (List.map snd hist).

(** From [st] to [st']: the activity history is untouched. *)
Definition same_history (st st' : plugin) : Prop :=
  _activity_history st' = _activity_history st.

(** From [st] to [st']: the store has the same keys, in the same order. *)
Definition same_keys (st st' : plugin) : Prop :=
  forall aps, memory st = PDict aps ->
    exists aps', memory st' = PDict aps' /\ Dict.keys aps' = Dict.keys aps.

(** The key a record is stored under is lower-cased. *)
Definition normal_key (k : string) : Prop := lower k = k.

(** Every key of the store, and every key of the client mapping of each
    record, is lower-cased. *)
Definition keys_normal (m : pyval) : Prop :=
  exists aps, m = PDict aps /\
    forall ap_mac ap, In (ap_mac, ap) aps ->
      normal_key ap_mac /\
      forall clients, clients_of ap = Some clients ->
        forall client_mac c, In (client_mac, c) clients -> normal_key client_mac.

Definition keeps_keys_normal (st st' : plugin) : Prop :=
  keys_normal (memory st) -> keys_normal (memory st').

(** From [st] to [st']: nothing but the memory and the dirty flag changed. *)
Definition only_store_changes (st st' : plugin) : Prop :=
  st' = set_dirty (memory_is_dirty st') (set_memory (memory st') st).

(** From [st] to [st']: nothing but the stationary timer, the selected
    sub-mode and the log changed. *)
Definition only_auto_changes (st st' : plugin) : Prop :=
  ready st' = ready st /\ memory st' = memory st /\ mode st' = mode st /\
  memory_is_dirty st' = memory_is_dirty st /\
  _last_activity_check st' = _last_activity_check st /\
  _activity_history st' = _activity_history st /\
  home_whitelist st' = home_whitelist st.

(** The state in which the [try] block of [on_unfiltered_ap_list] starts:
    the time of the last activity check is brought up to date. *)
Definition check_activity_time (t : ticks) (st : plugin) : plugin :=
  if 30 <? t_now t - _last_activity_check st
  then set_last_activity_check (t_now t) st
  else st.

(** A record whose name is a string (the empty one if it has none). *)
Definition record_with_name (ap : pyval) : Prop :=
  exists d s, ap = PDict d /\ default (PStr "") (Dict.get "ssid" d) = PStr s.

(** The entry [ap_mac], [ap] of the store is on the whitelist: by its key
    or by its name, letter for letter. *)
Definition is_home (wl : gset string) (ap_mac : string) (ap : pyval) : Prop :=
  ap_mac ∈ wl \/
  exists d s, ap = PDict d /\ default (PStr "") (Dict.get "ssid" d) = PStr s /\ s ∈ wl.

(** ** Status display *)

(** [o.values()]. *)
Definition py_values (o : pyval) : result (list pyval) :=
  match o with
  | PDict d => Ok (List.map snd d)
  | _ => Raise AttributeError
  end.

(** An integer as an f-string prints it. *)
Definition decimal (n : Z) : string := NilZero.string_of_int (Z.to_int n).

(** [sum(len(ap.get("clients", {})) for ap in aps)]. *)
Fixpoint count_clients (aps : list pyval) : result Z :=
  match aps with
  | [] => Ok 0
  | ap :: rest =>
      clients ← py_get ap "clients" (PDict []);
      n ← py_len clients;
      total ← count_clients rest;
      mret (n + total)
  end.

Definition glyph_moving : string := "📱".
Definition glyph_stationary : string := "🏠".
Definition glyph_home : string := "🏡".

(** The mode as the status line shows it. *)
Definition mode_display (st : plugin) : string :=
  match _current_auto_submode st with
  | Some submode =>
      if String.eqb (mode st) "auto" && negb (String.eqb submode "")
      then String.append "auto(" (String.append submode ")")
      else mode st
  | None => mode st
  end.

Definition status_text (mode_display : string) (ap_count total_clients : Z)
    (activity_indicator : string) : string :=
  String.concat ""
    ["SATpwn:"; mode_display; " APs:"; decimal ap_count;
     " Clients:"; decimal total_clients; " "; activity_indicator].

(** The [if]/[elif] chain that picks the glyph; [_is_stationary] is only
    called when [_is_moving] is false, and [_home_ssid_visible] only when
    both are. *)
Definition activity_indicator (t_moving t_stationary : Z) : M string :=
  let! is_moving := gets (_is_moving t_moving) in
  if (is_moving : bool) then ret glyph_moving
  else
    let! is_stationary := _is_stationary t_stationary in
    if (is_stationary : bool) then ret glyph_stationary
    else
      let! home := reads _home_ssid_visible in
      ret (if (home : bool) then glyph_home else "").

(** The [try] block of [on_ui_update]: the text it hands to the display. *)
Definition render_status (t_moving t_stationary : Z) : M string :=
  let! shown_mode := gets mode_display in
  let! ap_count := reads (fun st => py_len (memory st)) in
  let! aps := reads (fun st => py_values (memory st)) in
  let! total_clients := lift (count_clients aps) in
  let! indicator := activity_indicator t_moving t_stationary in
  ret (status_text shown_mode ap_count total_clients indicator).

(** [on_ui_update]: the state, the text on the display (as it was, when
    nothing is set) and the exception the handler logged, if any. *)
Definition on_ui_update (t_moving t_stationary : Z) (shown : option string) (st : plugin)
    : plugin * option string * option exn :=
  if negb (ready st) then (st, shown, None)
  else
    match render_status t_moving t_stationary st with
    | Returns text st' => (st', Some text, None)
    | Raises e st' => (st', shown, Some e)
    end.

(** From [st] to [st']: nothing but the stationary timer changed. *)
Definition only_timer_changes (st st' : plugin) : Prop :=
  exists v, st' = set_stationary_start v st.

(** A record that is a dictionary whose client mapping, if it has one, is
    a dictionary. *)
Definition record_shaped (ap : pyval) : Prop :=
  exists d, ap = PDict d /\
    (Dict.get "clients" d = None \/ exists clients, Dict.get "clients" d = Some (PDict clients)).

(** The number of clients the records hold. *)
Definition client_total (aps : list pyval) : Z :=
  fold_right
    (fun ap total =>
       match clients_of ap with
       | Some clients => Z.of_nat (List.length clients) + total
       | None => total
       end) 0 aps.

(** ** Home whitelist from the configuration

    [tomllib.load] is the environment: the configuration file is absent,
    cannot be read as TOML, or is a table.  [str] of a value that is not a
    string is a parameter of the model. *)

Inductive config_file : Type :=
| ConfigAbsent
| ConfigInvalid
| ConfigTable (conf : list (string * pyval)).

(** The characters [str.strip] removes (of the ASCII ones). *)
Definition is_space (a : ascii) : bool :=
  let n := nat_of_ascii a in
  ((9 <=? n) && (n <=? 13) || (28 <=? n) && (n <=? 32))%nat.

Fixpoint lstrip (s : string) : string :=
  match s with
  | EmptyString => EmptyString
  | String a s' => if is_space a then lstrip s' else s
  end.

Fixpoint rstrip (s : string) : string :=
  match s with
  | EmptyString => EmptyString
  | String a s' =>
      match rstrip s' with
      | EmptyString => if is_space a then EmptyString else String a EmptyString
      | r => String a r
      end
  end.

(** [s.strip()]. *)
Definition strip (s : string) : string := rstrip (lstrip s).

(** [s.split(',')]. *)
Fixpoint split_comma (s : string) : list string :=
  match s with
  | EmptyString => [EmptyString]
  | String a s' =>
      if Ascii.eqb a "," then EmptyString :: split_comma s'
      else
        match split_comma s' with
        | [] => [String a EmptyString]
        | piece :: pieces => String a piece :: pieces
        end
  end.

(** [[x for x in xs if x]], after the stripping. *)
Definition non_empty (xs : list string) : list string :=
  List.filter (fun x => negb (String.eqb x "")) xs.

(** The three places the whitelist is looked for, first match wins. *)
Definition find_whitelist (conf : list (string * pyval)) : option pyval :=
  if Dict.mem "main.home_whitelist" conf then Dict.get "main.home_whitelist" conf
  else
    match Dict.get "main" conf with
    | Some (PDict main_section) =>
        if Dict.mem "home_whitelist" main_section then Dict.get "home_whitelist" main_section
        else if Dict.mem "whitelist" main_section then Dict.get "whitelist" main_section
        else None
    | _ =>
        if Dict.mem "home_whitelist" conf then Dict.get "home_whitelist" conf else None
    end.

Section Whitelist.
Context (str_of : pyval -> string).

(** The entries a whitelist value stands for. *)
Definition whitelist_entries (home_whitelist : pyval) : list string :=
  match home_whitelist with
  | PStr s => non_empty (List.map strip (split_comma s))
  | PList xs => non_empty (List.map (fun x => strip (str_of x)) xs)
  | _ => []
  end.

(** [_load_home_whitelist]: the set it leaves in [self.home_whitelist]. *)
Definition _load_home_whitelist (config : config_file) : gset string :=
  match config with
  | ConfigAbsent => ∅
  | ConfigInvalid => ∅
  | ConfigTable conf =>
      match find_whitelist conf with
      | Some home_whitelist => list_to_set (whitelist_entries home_whitelist)
      | None => ∅
      end
  end.

(** [__init__]. *)
Definition __init__ (config : config_file) : plugin := init (_load_home_whitelist config).
End Whitelist.

(** A string [str.strip] leaves as it is. *)
Definition trimmed (s : string) : Prop := lstrip s = s /\ rstrip s = s.

(** A string that holds no comma. *)
Definition comma_free (piece : string) : Prop :=
  forall a, In a (list_ascii_of_string piece) -> a <> ","%char.

(** A string of ASCII characters: on these [strip] is [str.strip]. *)
Definition ascii_only (s : string) : Prop :=
  forall a, In a (list_ascii_of_string s) -> (nat_of_ascii a < 128)%nat.

(** ** The plugin under its host

    The host calls the callbacks one after the other; the plugin and the
    file at [memory_path] are what persists between the calls.  An
    exception that leaves [on_epoch] goes to the host, and the plugin stays
    in the state it had reached. *)

Inductive callback : Type :=
| Loaded (now : Z)
| Ready
| ApList (t : ticks) (data : pyval)
| UiUpdate (t_moving t_stationary : Z)
| Epoch (k : tick)
| Unload (now : Z) (w : write_result).

Definition dispatch (c : callback) (world : plugin * option file) : plugin * option file :=
  let '(st, disk) := world in
  match c with
  | Loaded now => (on_loaded now disk st, disk)
  | Ready => (on_ready st, disk)
  | ApList t data => (on_unfiltered_ap_list t data st, disk)
  | UiUpdate t_moving t_stationary =>
      (fst (fst (on_ui_update t_moving t_stationary None st)), disk)
  | Epoch k => (final_state (fst (on_epoch k disk st)), snd (on_epoch k disk st))
  | Unload now w => on_unload now w disk st
  end.

Definition run (callbacks : list callback) (world : plugin * option file)
    : plugin * option file :=
  fold_left (fun world c => dispatch c world) callbacks world.

(** A state whose mode is one of the five modes and whose memory is a
    dictionary with normalised keys. *)
Definition sound (st : plugin) : Prop :=
  In (mode st) modes /\ keys_normal (memory st).

(** The file is absent, unreadable, or a snapshot of a sound state. *)
Definition own_file (disk : option file) : Prop :=
  match disk with
  | None => True
  | Some Unparsable => True
  | Some (JsonText doc) => exists now st, doc = memory_data now st /\ sound st
  end.

(** The record of [ap_mac] carries what an observation at [now] with the
    name [ssid] and the signal strength [rssi] writes to it. *)
Definition entry_done (now : Z) (ap_mac : string) (ssid rssi : pyval) (st : plugin) : Prop :=
  exists aps d,
    memory st = PDict aps /\ Dict.get ap_mac aps = Some (PDict d) /\
    Dict.get "last_seen" d = Some (PNum now) /\
    Dict.get "rssi" d = Some rssi /\
    (py_truthy ssid = true -> Dict.get "ssid" d = Some ssid).

(** The record of [ap_mac] holds the client [client_mac], last seen at
    [now]. *)
Definition client_done (now : Z) (ap_mac client_mac : string) (st : plugin) : Prop :=
  exists aps d clients c,
    memory st = PDict aps /\ Dict.get ap_mac aps = Some (PDict d) /\
    Dict.get "clients" d = Some (PDict clients) /\
    Dict.get client_mac clients = Some (PDict c) /\
    Dict.get "last_seen" c = Some (PNum now).

(** The store of [drive_by_store] in [auto] mode, with [drive-by] as the
    derived sub-mode. *)
Definition auto_store_driving : plugin :=
  set_mode "auto" (set_current_auto_submode (Some "drive-by") drive_by_store).

(** * Properties *)

(** ** The result and state monads *)

Lemma bind_Ok {A B} (r : result A) (f : A -> result B) (b : B) :
  r ≫= f = Ok b -> exists a, r = Ok a /\ f a = Ok b.
Proof. destruct r as [a|e]; cbn; [eauto | discriminate]. Qed.

Lemma fmap_Ok {A B} (r : result A) (f : A -> B) (b : B) :
  f <$> r = Ok b -> exists a, r = Ok a /\ b = f a.
Proof. destruct r as [a|e]; cbn; [|discriminate]. intros [= <-]. eauto. Qed.

(** Invert a monadic computation that is known to succeed. *)
Ltac inv_ok :=
  repeat match goal with
  | H : Ok _ = Ok _ |- _ => injection H as H; try subst
  | H : Ok _ = Raise _ |- _ => discriminate H
  | H : Raise _ = Ok _ |- _ => discriminate H
  | H : mret _ = Ok _ |- _ => injection H as H; try subst
  | H : _ ≫= _ = Ok _ |- _ =>
      let a := fresh "a" in let Ha := fresh "Ha" in
      apply bind_Ok in H as (a & Ha & H)
  | H : _ <$> _ = Ok _ |- _ =>
      let a := fresh "a" in let Ha := fresh "Ha" in
      apply fmap_Ok in H as (a & Ha & H)
  end.

(** ** Dictionaries *)

Module DictFacts.
Section Facts.
Context {A : Type}.
Implicit Types (d : list (string * A)) (k : string) (v : A).

Lemma get_In k d v : Dict.get k d = Some v -> In (k, v) d.
Proof.
  induction d as [|[k' v'] d IH]; cbn; [discriminate|].
  destruct (String.eqb_spec k k') as [->|Hne].
  - intros [= ->]. by left.
  - intros H. right. auto.
Qed.

Lemma get_None_In k d : Dict.get k d = None -> forall v, ~ In (k, v) d.
Proof.
  induction d as [|[k' v'] d IH]; cbn; [tauto|].
  destruct (String.eqb_spec k k') as [->|Hne]; [discriminate|].
  intros H v [[= <- <-]|Hin]; [done|]. by eapply IH.
Qed.

Lemma get_set_eq k v d : Dict.get k (Dict.set k v d) = Some v.
Proof.
  induction d as [|[k' v'] d IH]; cbn.
  - by rewrite String.eqb_refl.
  - destruct (String.eqb_spec k k') as [->|Hne]; cbn.
    + by rewrite String.eqb_refl.
    + destruct (String.eqb_spec k k'); [done|]. exact IH.
Qed.

Lemma get_set_ne k k' v d : k <> k' -> Dict.get k' (Dict.set k v d) = Dict.get k' d.
Proof.
  intros Hne. induction d as [|[k0 v0] d IH]; cbn.
  - destruct (String.eqb_spec k' k); [congruence | done].
  - destruct (String.eqb_spec k k0) as [->|Hne0]; cbn.
    + destruct (String.eqb_spec k' k0); [congruence | done].
    + destruct (String.eqb_spec k' k0); [done | exact IH].
Qed.

Lemma get_set k k' v d :
  Dict.get k' (Dict.set k v d) = if String.eqb k k' then Some v else Dict.get k' d.
Proof.
  destruct (String.eqb_spec k k') as [->|Hne].
  - apply get_set_eq.
  - by apply get_set_ne.
Qed.

Lemma In_del k k' v d : In (k', v) (Dict.del k d) <-> In (k', v) d /\ k <> k'.
Proof.
  unfold Dict.del. rewrite filter_In. cbn.
  destruct (String.eqb_spec k k'); cbn; intuition congruence.
Qed.

Lemma del_not_mem k d : Dict.mem k d = false -> Dict.del k d = d.
Proof.
  unfold Dict.mem, Dict.del. induction d as [|[k' v'] d IH]; cbn; [done|].
  destruct (String.eqb_spec k k') as [->|Hne]; cbn; [discriminate|].
  intros H. by rewrite IH.
Qed.

End Facts.
End DictFacts.

(** ** Motion classifier *)

Lemma set_stationary_start_same st :
  set_stationary_start (_stationary_start st) st = st.
Proof. by destruct st. Qed.

(** The three cases of an evaluation of [_is_stationary]. *)
Lemma _is_stationary_high now st :
  ACTIVITY_THRESHOLD <= recent_activity (_activity_history st) now ->
  _is_stationary now st = Returns false (set_stationary_start PNone st).
Proof.
  intros Hhigh. unfold _is_stationary, bind, gets, modify, ret. cbn.
  destruct (Z.ltb_spec (recent_activity (_activity_history st) now) ACTIVITY_THRESHOLD);
    [lia|].
  destruct (_stationary_start st) eqn:E; cbn; try done.
  by rewrite <- E, set_stationary_start_same.
Qed.

(** Low activity: the timer is started when it is unset, and the time
    since the start is taken. *)
Lemma _is_stationary_low now st :
  recent_activity (_activity_history st) now < ACTIVITY_THRESHOLD ->
  _is_stationary now st =
    match _stationary_start st with
    | PNone =>
        match py_sub now (PNum now) with
        | Ok elapsed =>
            Returns (STATIONARY_SECONDS <=? elapsed) (set_stationary_start (PNum now) st)
        | Raise e => Raises e (set_stationary_start (PNum now) st)
        end
    | start =>
        match py_sub now start with
        | Ok elapsed => Returns (STATIONARY_SECONDS <=? elapsed) st
        | Raise e => Raises e st
        end
    end.
Proof.
  intros Hlow. unfold _is_stationary, bind, gets, modify, ret, lift. cbn.
  destruct (Z.ltb_spec (recent_activity (_activity_history st) now) ACTIVITY_THRESHOLD);
    [|lia].
  destruct (_stationary_start st) eqn:E; cbn; rewrite ?E; try done;
    unfold py_sub; cbn [as_number]; by destruct (fits_float _).
Qed.

Lemma _is_stationary_low_unset now st :
  recent_activity (_activity_history st) now < ACTIVITY_THRESHOLD ->
  _stationary_start st = PNone ->
  fits_float now = true ->
  _is_stationary now st = Returns false (set_stationary_start (PNum now) st).
Proof.
  intros Hlow Hunset Hfits. rewrite _is_stationary_low, Hunset by done.
  unfold py_sub. cbn [as_number]. by rewrite Hfits, Z.sub_diag.
Qed.

Lemma _is_stationary_low_set now st s :
  recent_activity (_activity_history st) now < ACTIVITY_THRESHOLD ->
  _stationary_start st <> PNone ->
  as_number (_stationary_start st) = Some s ->
  fits_float s = true ->
  _is_stationary now st = Returns (STATIONARY_SECONDS <=? now - s) st.
Proof.
  intros Hlow Hset Hs Hfits. rewrite _is_stationary_low by done.
  destruct (_stationary_start st); try done; unfold py_sub; by rewrite Hs, Hfits.
Qed.

(** A timer that is an integer beyond the range of a [float] makes the
    evaluation raise, whatever the time. *)
Lemma _is_stationary_overflow now st s :
  recent_activity (_activity_history st) now < ACTIVITY_THRESHOLD ->
  _stationary_start st = PNum s ->
  fits_float s = false ->
  _is_stationary now st = Raises OverflowError st.
Proof.
  intros Hlow Hs Hfits. rewrite _is_stationary_low, Hs by done.
  unfold py_sub. cbn [as_number]. by rewrite Hfits.
Qed.

Lemma _is_stationary_true now st st' :
  _is_stationary now st = Returns true st' ->
  recent_activity (_activity_history st) now < ACTIVITY_THRESHOLD /\
  st' = st /\
  _stationary_start st <> PNone /\
  exists s, as_number (_stationary_start st) = Some s /\
            fits_float s = true /\ STATIONARY_SECONDS <= now - s.
Proof.
  destruct (Z.lt_ge_cases (recent_activity (_activity_history st) now) ACTIVITY_THRESHOLD)
    as [Hlow|Hhigh].
  - rewrite _is_stationary_low by done. unfold py_sub.
    destruct (_stationary_start st) eqn:E; cbn [as_number]; try discriminate.
    + destruct (fits_float now); [|discriminate]. rewrite Z.sub_diag. discriminate.
    + destruct (fits_float _) eqn:Hfits; [|discriminate].
      intros [= Hb <-]. apply Z.leb_le in Hb. eauto 10.
    + destruct (fits_float n) eqn:Hfits; [|discriminate].
      intros [= Hb <-]. apply Z.leb_le in Hb. eauto 10.
  - unfold _is_stationary, bind, gets, modify, ret. cbn.
    destruct (Z.ltb_spec (recent_activity (_activity_history st) now) ACTIVITY_THRESHOLD);
      [lia|].
    destruct (_stationary_start st); discriminate.
Qed.

Lemma evaluations_snoc evs ev st :
  evaluations (evs ++ [ev]) st = final_state (evaluate ev (evaluations evs st)).
Proof. unfold evaluations. by rewrite fold_left_app. Qed.

Lemma evaluations_timer evs st :
  _stationary_start st = PNone ->
  StronglySorted Z.le (List.map snd evs) ->
  timer_after_high evs (evaluations evs st).
Proof.
  intros Hunset. induction evs as [|ev evs IH] using rev_ind; intros Hsorted.
  - unfold timer_after_high. cbn. by rewrite Hunset.
  - rewrite evaluations_snoc.
    rewrite map_app in Hsorted. cbn in Hsorted.
    assert (Hpast : forall ev' : list (Z * Z) * Z, In ev' evs -> snd ev' <= snd ev).
    { intros ev' Hin.
      eapply (StronglySorted_app_1_elem_of _ _ _ _ _ Hsorted).
      - apply list_elem_of_In, in_map, Hin.
      - apply list_elem_of_In. by left. }
    apply StronglySorted_app_1_l in Hsorted. specialize (IH Hsorted).
    set (st1 := evaluations evs st) in *.
    set (st2 := set_activity_history (fst ev) st1).
    assert (Hstart : _stationary_start st2 = _stationary_start st1) by done.
    unfold evaluate. fold st2.
    destruct (Z.lt_ge_cases (recent_activity (_activity_history st2) (snd ev))
                ACTIVITY_THRESHOLD) as [Hlow|Hhigh].
    + unfold timer_after_high in IH.
      rewrite _is_stationary_low, Hstart by done.
      destruct (_stationary_start st1) eqn:E; try done.
      * assert (Hset : timer_after_high (evs ++ [ev])
                         (set_stationary_start (PNum (snd ev)) st2)).
        { unfold timer_after_high. cbn. intros ev' [Hin| [<-|[]]]%in_app_iff Hact.
          - by apply Hpast.
          - lia. }
        by destruct (py_sub (snd ev) (PNum (snd ev))).
      * assert (Hkept : timer_after_high (evs ++ [ev]) st2).
        { unfold timer_after_high. rewrite Hstart, ?E.
          intros ev' [Hin| [<-|[]]]%in_app_iff Hact; [by apply IH|].
          unfold activity_of in Hact.
          change (recent_activity (fst ev) (snd ev) < ACTIVITY_THRESHOLD) in Hlow. lia. }
        by destruct (py_sub (snd ev) (PNum n)).
    + rewrite _is_stationary_high by done. unfold timer_after_high. by cbn.
Qed.

(** An evaluation touches nothing but the timer. *)
Lemma _is_stationary_frame now st :
  exists v, final_state (_is_stationary now st) = set_stationary_start v st.
Proof.
  destruct (Z.lt_ge_cases (recent_activity (_activity_history st) now) ACTIVITY_THRESHOLD)
    as [Hlow|Hhigh].
  - rewrite _is_stationary_low by done.
    destruct (_stationary_start st) eqn:E;
      match goal with |- context [py_sub ?a ?v] => destruct (py_sub a v) end;
      first [ by eexists | exists (_stationary_start st); by rewrite set_stationary_start_same ].
  - rewrite _is_stationary_high by done. by eexists.
Qed.

Lemma _is_stationary_Returns_frame now st b st' :
  _is_stationary now st = Returns b st' ->
  memory st' = memory st /\ _activity_history st' = _activity_history st.
Proof.
  intros H. destruct (_is_stationary_frame now st) as [v Hv].
  rewrite H in Hv. cbn in Hv. by subst.
Qed.

(** ** Mode decision engine *)

#[local] Arguments _is_stationary : simpl never.
#[local] Arguments _home_ssid_visible : simpl never.
#[local] Arguments _is_moving : simpl never.

Lemma _auto_mode_logic_unfold ts tm st home stat st1 :
  _home_ssid_visible st = Ok home ->
  _is_stationary ts st = Returns stat st1 ->
  _auto_mode_logic ts tm st =
    if home || stat then Returns "recon" st1
    else if _is_moving tm st then Returns "drive-by" st1
    else match py_len (memory st) with
         | Ok n => Returns (if n <? 10 then "loose" else "strict") st1
         | Raise e => Raises e st1
         end.
Proof.
  intros Hhome Hstat.
  destruct (_is_stationary_Returns_frame _ _ _ _ Hstat) as [Hmem Hhist].
  unfold _auto_mode_logic, bind, reads, gets, ret. rewrite Hhome. cbn. rewrite Hstat.
  replace (_is_moving tm st1) with (_is_moving tm st)
    by (unfold _is_moving; by rewrite Hhist).
  destruct (home || stat); [done|].
  destruct (_is_moving tm st); [done|].
  rewrite Hmem. by destruct (py_len (memory st)).
Qed.

(** C5: the sub-mode [_auto_mode_logic] selects follows a strict priority.
    When the home network is visible or the device is stationary the
    sub-mode is [recon], also when the device is moving at the same time;
    otherwise it is [drive-by] when the device is moving; otherwise it is
    [loose] when the memory holds fewer than 10 access points and [strict]
    when it holds 10 or more. *)
Theorem auto_mode_priority ts tm st home stat st1 :
  _home_ssid_visible st = Ok home ->
  _is_stationary ts st = Returns stat st1 ->
  (home = true \/ stat = true ->
     _auto_mode_logic ts tm st = Returns "recon" st1) /\
  (home = false -> stat = false -> _is_moving tm st = true ->
     _auto_mode_logic ts tm st = Returns "drive-by" st1) /\
  (home = false -> stat = false -> _is_moving tm st = false ->
     forall aps, memory st = PDict aps ->
       ((List.length aps < 10)%nat ->
          _auto_mode_logic ts tm st = Returns "loose" st1) /\
       ((10 <= List.length aps)%nat ->
          _auto_mode_logic ts tm st = Returns "strict" st1)).
Proof.
  intros Hhome Hstat.
  rewrite (_auto_mode_logic_unfold ts tm st home stat st1 Hhome Hstat).
  split; [|split].
  - intros [-> | ->]; [done|]. by rewrite orb_true_r.
  - by intros -> -> ->.
  - intros -> -> -> aps ->. cbn.
    destruct (Z.ltb_spec (Z.of_nat (List.length aps)) 10); split; (done || lia).
Qed.

Lemma auto_mode_priority_witness :
  _is_moving 200 at_home_and_moving = true /\
  _auto_mode_logic 200 200 at_home_and_moving = Returns "recon" at_home_and_moving.
Proof.
  split; [reflexivity|].
  apply (auto_mode_priority 200 200 at_home_and_moving true false at_home_and_moving).
  - vm_compute. reflexivity.
  - vm_compute. reflexivity.
  - left. reflexivity.
Defined.

(** ** Stationary hysteresis *)

(** C6: the stationary timer over evaluations of [_is_stationary].  An
    evaluation that sees windowed activity at or above the threshold clears
    the timer and answers false.  An evaluation that sees low activity
    starts the timer at the current time when it is unset, and leaves a
    running timer as it is.  The answer is true only when the timer was set
    and at least [STATIONARY_SECONDS] have elapsed since then, and it is
    false whenever the timer is unset.  Along a run of evaluations at
    non-decreasing times that begins with the timer unset, a true answer
    means that no evaluation of the last [STATIONARY_SECONDS] saw high
    activity.

    The clock read is a [float], and so is every timer the plugin started
    itself.  A timer restored from a snapshot can be an integer beyond the
    range of a [float]: while the activity is low, an evaluation then
    raises [OverflowError] and leaves the timer as it is. *)
Theorem stationary_hysteresis :
  (forall now st,
     ACTIVITY_THRESHOLD <= recent_activity (_activity_history st) now ->
     _is_stationary now st = Returns false (set_stationary_start PNone st)) /\
  (forall now st,
     recent_activity (_activity_history st) now < ACTIVITY_THRESHOLD ->
     _stationary_start st = PNone ->
     fits_float now = true ->
     _is_stationary now st = Returns false (set_stationary_start (PNum now) st)) /\
  (forall now st s,
     recent_activity (_activity_history st) now < ACTIVITY_THRESHOLD ->
     _stationary_start st = PNum s ->
     fits_float s = true ->
     _is_stationary now st = Returns (STATIONARY_SECONDS <=? now - s) st) /\
  (forall now st s,
     recent_activity (_activity_history st) now < ACTIVITY_THRESHOLD ->
     _stationary_start st = PNum s ->
     fits_float s = false ->
     _is_stationary now st = Raises OverflowError st) /\
  (forall now st st',
     _is_stationary now st = Returns true st' ->
     _stationary_start st <> PNone /\
     exists s, as_number (_stationary_start st) = Some s /\
               fits_float s = true /\
               STATIONARY_SECONDS <= now - s) /\
  (forall now st,
     _stationary_start st = PNone ->
     fits_float now = true ->
     exists st', _is_stationary now st = Returns false st') /\
  (forall now st b st',
     _stationary_start st = PNone ->
     _is_stationary now st = Returns b st' -> b = false) /\
  (forall evs ev st st',
     _stationary_start st = PNone ->
     StronglySorted Z.le (List.map snd evs) ->
     evaluate ev (evaluations evs st) = Returns true st' ->
     forall ev' : list (Z * Z) * Z,
       In ev' evs -> snd ev - snd ev' < STATIONARY_SECONDS ->
       activity_of ev' < ACTIVITY_THRESHOLD).
Proof.
  split; [exact _is_stationary_high|].
  split; [exact _is_stationary_low_unset|].
  split.
  { intros now st s Hlow Hs Hfits. apply _is_stationary_low_set; rewrite ?Hs; done. }
  split; [exact _is_stationary_overflow|].
  split.
  { intros now st st' H. apply _is_stationary_true in H. tauto. }
  split.
  { intros now st Hunset Hfits.
    destruct (Z.lt_ge_cases (recent_activity (_activity_history st) now)
                ACTIVITY_THRESHOLD) as [Hlow|Hhigh].
    - rewrite _is_stationary_low_unset by done. eauto.
    - rewrite _is_stationary_high by done. eauto. }
  split.
  { intros now st b st' Hunset H. destruct b; [|done].
    apply _is_stationary_true in H. tauto. }
  intros evs ev st st' Hunset Hsorted Htrue ev' Hin Hrecent.
  pose proof (evaluations_timer evs st Hunset Hsorted) as Hinv.
  unfold evaluate in Htrue.
  apply _is_stationary_true in Htrue as (_ & _ & Hset & s & Hs & _ & Hel).
  change (_stationary_start (set_activity_history (fst ev) (evaluations evs st)))
    with (_stationary_start (evaluations evs st)) in Hset, Hs.
  unfold timer_after_high in Hinv.
  destruct (_stationary_start (evaluations evs st)) eqn:E; try done.
  cbn in Hs. injection Hs as ->.
  destruct (Z.lt_ge_cases (activity_of ev') ACTIVITY_THRESHOLD) as [|Hhigh]; [done|].
  specialize (Hinv ev' Hin Hhigh). lia.
Qed.

Lemma stationary_hysteresis_witness :
  _is_stationary 3600 quiet_since_0 = Returns true quiet_since_0 /\
  _is_stationary 3599 quiet_since_0 = Returns false quiet_since_0 /\
  _is_stationary 7 (fresh ∅) = Returns false (set_stationary_start (PNum 7) (fresh ∅)) /\
  _is_stationary 4000 (set_activity_history [(3900, 5)] quiet_since_0)
    = Returns false (set_activity_history [(3900, 5)] (fresh ∅)) /\
  _is_stationary 3600 (set_stationary_start (PNum (- 10 ^ 400)) quiet_since_0)
    = Raises OverflowError (set_stationary_start (PNum (- 10 ^ 400)) quiet_since_0).
Proof.
  destruct stationary_hysteresis as (Hhigh & Hunset & Hset & Hover & _).
  split; [|split; [|split; [|split]]].
  - apply (Hset 3600 quiet_since_0 0);
      [vm_compute; reflexivity | reflexivity | vm_compute; reflexivity].
  - apply (Hset 3599 quiet_since_0 0);
      [vm_compute; reflexivity | reflexivity | vm_compute; reflexivity].
  - apply (Hunset 7 (fresh ∅));
      [vm_compute; reflexivity | reflexivity | vm_compute; reflexivity].
  - apply (Hhigh 4000 (set_activity_history [(3900, 5)] quiet_since_0)).
    vm_compute. discriminate.
  - apply (Hover 3600 (set_stationary_start (PNum (- 10 ^ 400)) quiet_since_0) (- 10 ^ 400));
      [vm_compute; reflexivity | reflexivity | vm_compute; reflexivity].
Defined.

(** C10: for one activity history and one evaluation time,
    [_is_stationary] and [_is_moving] never both answer true: a true answer
    of [_is_stationary] needs the windowed sum strictly below
    [ACTIVITY_THRESHOLD], which makes [_is_moving] false, whatever the
    timer holds. *)
Theorem moving_stationary_exclusive now st st' :
  _is_stationary now st = Returns true st' ->
  recent_activity (_activity_history st) now < ACTIVITY_THRESHOLD /\
  _is_moving now st = false /\
  _is_moving now st' = false.
Proof.
  intros H. apply _is_stationary_true in H as (Hlow & -> & _).
  split; [done|].
  assert (_is_moving now st = false); [|done].
  unfold _is_moving. apply Z.leb_gt. done.
Qed.

Lemma moving_stationary_exclusive_witness :
  _is_stationary 3600 quiet_since_0 = Returns true quiet_since_0 /\
  _is_moving 3600 quiet_since_0 = false.
Proof.
  assert (H : _is_stationary 3600 quiet_since_0 = Returns true quiet_since_0)
    by (vm_compute; reflexivity).
  split; [exact H|].
  exact (proj1 (proj2 (moving_stationary_exclusive 3600 quiet_since_0 quiet_since_0 H))).
Defined.

(** ** Eviction *)

Lemma is_expired_Ok now ttl data b :
  is_expired now ttl data = Ok b <-> exists a, age now data = Ok a /\ b = (ttl <? a).
Proof.
  unfold is_expired. destruct (age now data) as [a|e]; cbn.
  - split.
    + intros [= <-]. eauto.
    + intros (a' & [= <-] & ->). done.
  - split; [discriminate|]. intros (a & [=] & _).
Qed.

Lemma is_expired_false now ttl data :
  is_expired now ttl data = Ok false <-> fresh_at now ttl data.
Proof.
  rewrite is_expired_Ok. unfold fresh_at. split; intros (a & Ha & Hb); exists a.
  - split; [done|]. symmetry in Hb. by apply Z.ltb_ge in Hb.
  - split; [done|]. symmetry. by apply Z.ltb_ge.
Qed.

Lemma expired_keys_spec now ttl items ks :
  expired_keys now ttl items = Ok ks ->
  (forall k v, In (k, v) items ->
     exists b, is_expired now ttl v = Ok b /\ (b = true -> In k ks)) /\
  (forall k, In k ks -> exists v, In (k, v) items /\ is_expired now ttl v = Ok true).
Proof.
  revert ks. induction items as [|[k0 v0] items IH]; intros ks; cbn.
  - intros [= <-]. split; [tauto|]. intros k [].
  - intros H. inv_ok. destruct (IH _ Ha0) as [IH1 IH2]. split.
    + intros k v [[= <- <-]|Hin].
      * exists a. split; [done|]. intros ->. by left.
      * destruct (IH1 k v Hin) as (b & Hb & Hks). exists b. split; [done|].
        intros Hbt. specialize (Hks Hbt). destruct a; [by right | done].
    + intros k Hin. destruct a.
      * destruct Hin as [<-|Hin]; [eauto using in_eq|].
        destruct (IH2 k Hin) as (v & ? & ?). eauto using in_cons.
      * destruct (IH2 k Hin) as (v & ? & ?). eauto using in_cons.
Qed.

Lemma In_del_keys {A} ks (d : list (string * A)) k v :
  In (k, v) (del_keys ks d) <-> In (k, v) d /\ ~ In k ks.
Proof.
  unfold del_keys. revert d. induction ks as [|k0 ks IH]; intros d; cbn; [tauto|].
  rewrite IH.
  assert (Hdel : (if Dict.mem k0 d then Dict.del k0 d else d) = Dict.del k0 d).
  { destruct (Dict.mem k0 d) eqn:E; [done|]. by rewrite DictFacts.del_not_mem. }
  rewrite Hdel, DictFacts.In_del. intuition congruence.
Qed.

Lemma del_client_spec client_mac d clients :
  Dict.get "clients" d = Some (PDict clients) ->
  exists d',
    del_client client_mac (PDict d) = Ok (PDict d') /\
    Dict.get "clients" d' = Some (PDict (del_keys [client_mac] clients)) /\
    (forall field, field <> "clients" -> Dict.get field d' = Dict.get field d).
Proof.
  intros Hc. unfold del_client, del_keys. cbn. rewrite Hc. cbn.
  destruct (Dict.mem client_mac clients) eqn:E; cbn.
  - eexists. split; [done|]. split.
    + apply DictFacts.get_set_eq.
    + intros field Hne. by apply DictFacts.get_set_ne.
  - eauto.
Qed.

Lemma del_clients_spec expired d clients :
  Dict.get "clients" d = Some (PDict clients) ->
  exists d',
    del_clients expired (PDict d) = Ok (PDict d') /\
    Dict.get "clients" d' = Some (PDict (del_keys expired clients)) /\
    (forall field, field <> "clients" -> Dict.get field d' = Dict.get field d).
Proof.
  revert d clients. induction expired as [|c expired IH]; intros d clients Hc.
  - exists d. by cbn.
  - destruct (del_client_spec c d clients Hc) as (d1 & Hd1 & Hc1 & Hother1).
    destruct (IH d1 _ Hc1) as (d' & Hd' & Hc' & Hother').
    exists d'. cbn [del_clients]. rewrite Hd1. cbn. split; [done|]. split.
    + exact Hc'.
    + intros field Hne. rewrite Hother' by done. by apply Hother1.
Qed.

Lemma pruned_from_refl d : pruned_from (PDict d) (PDict d).
Proof. exists d, d. repeat split; eauto. Qed.

Lemma pruned_from_trans ap1 ap2 ap3 :
  pruned_from ap1 ap2 -> pruned_from ap2 ap3 -> pruned_from ap1 ap3.
Proof.
  intros (d1 & d2 & -> & -> & Hf12 & Hc12) (d2' & d3 & [= <-] & -> & Hf23 & Hc23).
  exists d1, d3. repeat split.
  - intros field Hne. rewrite Hf23 by done. by apply Hf12.
  - intros clients3 H3.
    destruct (Hc23 _ H3) as (clients2 & H2 & Hsub23).
    destruct (Hc12 _ H2) as (clients1 & H1 & Hsub12).
    exists clients1. split; [done|]. eauto.
Qed.

Lemma pruned_from_age now ap ap' :
  pruned_from ap ap' -> age now ap' = age now ap.
Proof.
  intros (d & d' & -> & -> & Hf & _). unfold age. cbn. by rewrite Hf.
Qed.

Lemma pruned_from_clients_fresh now ttl ap ap' :
  pruned_from ap ap' -> clients_fresh now ttl ap -> clients_fresh now ttl ap'.
Proof.
  intros (d & d' & -> & -> & _ & Hc) Hfresh clients' Hclients' client_mac c Hin.
  destruct (Hc _ Hclients') as (clients & Hclients & Hsub).
  eapply Hfresh; eauto.
Qed.

(** Pruning removes the expired clients of one record and nothing else. *)
Lemma prune_clients_spec now ttl ap ap' :
  prune_clients now ttl ap = Ok ap' ->
  pruned_from ap ap' /\ clients_fresh now ttl ap'.
Proof.
  unfold prune_clients. intros H. inv_ok.
  destruct ap as [| | | | |d]; try discriminate. cbn in Ha. injection Ha as <-.
  destruct (Dict.get "clients" d) as [v|] eqn:Hc; cbn in Ha0.
  - destruct v as [| | | | |clients]; try discriminate. injection Ha0 as <-.
    destruct (del_clients_spec a1 d clients Hc) as (d' & Hd' & Hc' & Hother).
    rewrite Hd' in H. injection H as <-.
    destruct (expired_keys_spec _ _ _ _ Ha1) as [Hexp _]. split.
    + exists d, d'. repeat split; [done|]. intros clients'. cbn. rewrite Hc', Hc.
      intros [= <-]. exists clients. split; [done|].
      intros client_mac c Hin. by apply In_del_keys in Hin as [? _].
    + intros clients'. cbn. rewrite Hc'. intros [= <-] client_mac c Hin.
      apply In_del_keys in Hin as [Hin Hkeep].
      destruct (Hexp _ _ Hin) as ([] & Hb & Hks); [by destruct Hkeep; auto|].
      by apply is_expired_false.
  - injection Ha0 as <-. cbn in Ha1. injection Ha1 as <-. cbn in H. injection H as <-.
    split; [apply pruned_from_refl|].
    intros clients. cbn. by rewrite Hc.
Qed.

Lemma derived_from_trans ap1 ap2 ap3 :
  derived_from ap1 ap2 -> derived_from ap2 ap3 -> derived_from ap1 ap3.
Proof.
  intros [->|H12] [->|H23]; unfold derived_from; eauto using pruned_from_trans.
Qed.

Lemma derived_from_age now ap ap' : derived_from ap ap' -> age now ap' = age now ap.
Proof. intros [->|H]; [done|]. by apply pruned_from_age. Qed.

Lemma derived_from_clients_fresh now ttl ap ap' :
  derived_from ap ap' -> clients_fresh now ttl ap -> clients_fresh now ttl ap'.
Proof. intros [->|H]; [done|]. by apply pruned_from_clients_fresh. Qed.

(** The second loop of the sweep: every entry stems from the entry under
    the same key, and the entries the loop has visited hold no expired
    client. *)
Lemma sweep_clients_spec now ttl ap_macs mem mem' err :
  sweep_clients now ttl ap_macs mem = (mem', err) ->
  (forall k ap', Dict.get k mem' = Some ap' ->
     exists ap, Dict.get k mem = Some ap /\ derived_from ap ap') /\
  (err = None -> forall k ap', In k ap_macs -> Dict.get k mem' = Some ap' ->
     clients_fresh now ttl ap').
Proof.
  revert mem. induction ap_macs as [|k0 rest IH]; intros mem; cbn.
  - intros [= <- <-]. split; [|tauto]. intros k ap' H. exists ap'. split; [done|by left].
  - destruct (Dict.get k0 mem) as [ap0|] eqn:E0.
    + destruct (prune_clients now ttl ap0) as [ap1|e] eqn:Ep.
      * intros H. destruct (IH _ H) as [IHa IHb].
        destruct (prune_clients_spec _ _ _ _ Ep) as [Hpr Hfr].
        assert (Ha : forall k ap', Dict.get k mem' = Some ap' ->
                  exists ap, Dict.get k mem = Some ap /\ derived_from ap ap' /\
                             (k = k0 -> derived_from ap1 ap')).
        { intros k ap' Hget. destruct (IHa k ap' Hget) as (ap & Hap & Hder).
          rewrite DictFacts.get_set in Hap.
          destruct (String.eqb_spec k0 k) as [->|Hne].
          - injection Hap as <-. exists ap0. split; [done|]. split; [|done].
            eapply derived_from_trans; [by right | done].
          - exists ap. split; [done|]. split; [done|]. congruence. }
        split.
        -- intros k ap' Hget. destruct (Ha k ap' Hget) as (ap & ? & ? & _). eauto.
        -- intros -> k ap' Hin Hget.
           destruct (string_dec k k0) as [->|Hne].
           ++ destruct (Ha k0 ap' Hget) as (ap & _ & _ & Hder).
              eapply derived_from_clients_fresh; [by apply Hder | done].
           ++ destruct Hin as [->|Hin]; [done|]. by eapply IHb.
      * intros [= <- <-]. split; [|discriminate].
        intros k ap' H. exists ap'. split; [done|by left].
    + intros H. destruct (IH _ H) as [IHa IHb]. split; [done|].
      intros -> k ap' [<-|Hin] Hget; [|by eapply IHb].
      destruct (IHa _ _ Hget) as (ap & Hap & _). congruence.
Qed.

Lemma mem_keys {A} k (d : list (string * A)) v :
  Dict.get k d = Some v -> In k (Dict.keys d).
Proof.
  intros H. apply DictFacts.get_In in H. unfold Dict.keys.
  change k with (fst (k, v)). by apply in_map.
Qed.

Lemma sweep_Returns ap_ttl client_ttl now st u st' :
  sweep ap_ttl client_ttl now st = Returns u st' ->
  exists aps expired aps',
    memory st = PDict aps /\
    expired_keys now ap_ttl aps = Ok expired /\
    sweep_clients now client_ttl (Dict.keys (del_keys expired aps)) (del_keys expired aps)
      = (aps', None) /\
    st' = set_memory (PDict aps') (set_dirty true st).
Proof.
  unfold sweep, bind, modify, reads, lift, ret.
  change (memory (set_dirty true st)) with (memory st).
  destruct (memory st) as [| | | | |aps] eqn:Hmem; try discriminate.
  cbn [py_items].
  destruct (expired_keys now ap_ttl aps) as [expired|e] eqn:Hexp; [|discriminate].
  destruct (sweep_clients now client_ttl _ _) as [aps' [e|]] eqn:Es; [discriminate|].
  intros [= _ <-]. by exists aps, expired, aps'.
Qed.

(** C4: after a sweep at time [now], no record left in the store is older
    than the access-point lifetime of the current mode, no client left
    in a surviving record is older than the client lifetime of the current
    mode, and an access point that is too old is removed as a whole: its
    key is gone, and each surviving record stems from the record that was
    stored under its key, with a subset of that record's clients. *)
Theorem eviction_safety now st st' :
  _cleanup_memory now st = Returns tt st' ->
  exists aps aps',
    memory st = PDict aps /\ memory st' = PDict aps' /\ mode st' = mode st /\
    (forall ap_mac ap', Dict.get ap_mac aps' = Some ap' ->
       fresh_at now (ap_expiry (mode st')) ap' /\
       clients_fresh now (client_expiry (mode st')) ap' /\
       exists ap, In (ap_mac, ap) aps /\ derived_from ap ap') /\
    (forall ap_mac ap a, In (ap_mac, ap) aps ->
       age now ap = Ok a -> ap_expiry (mode st) < a ->
       Dict.get ap_mac aps' = None).
Proof.
  unfold _cleanup_memory, bind at 1, gets. intros H.
  apply sweep_Returns in H as (aps & expired & aps' & Hmem & Hexp & Hsweep & ->).
  exists aps, aps'. split; [done|]. split; [done|]. split; [done|]. cbn [mode set_memory set_dirty].
  destruct (expired_keys_spec _ _ _ _ Hexp) as [Hexp1 Hexp2].
  destruct (sweep_clients_spec _ _ _ _ _ _ Hsweep) as [Hstem Hfresh].
  split.
  - intros ap_mac ap' Hget.
    destruct (Hstem _ _ Hget) as (ap & Hap & Hder).
    pose proof (DictFacts.get_In _ _ _ Hap) as Hin.
    apply In_del_keys in Hin as [Hin Hkeep].
    split; [|split].
    + destruct (Hexp1 _ _ Hin) as ([] & Hb & Hks); [by destruct Hkeep; auto|].
      apply is_expired_false in Hb. unfold fresh_at.
      by rewrite (derived_from_age now ap ap').
    + eapply Hfresh; [done| |done]. by eapply mem_keys.
    + eauto.
  - intros ap_mac ap a Hin Hage Hold.
    destruct (Dict.get ap_mac aps') as [ap'|] eqn:Hget; [|done].
    destruct (Hstem _ _ Hget) as (ap0 & Hap0 & _).
    apply DictFacts.get_In, In_del_keys in Hap0 as [_ Hkeep].
    destruct Hkeep. destruct (Hexp1 _ _ Hin) as (b & Hb & Hks). apply Hks.
    apply is_expired_Ok in Hb as (a' & Ha' & ->). rewrite Hage in Ha'.
    injection Ha' as <-. by apply Z.ltb_lt.
Qed.

Lemma eviction_safety_witness :
  _cleanup_memory 2000 drive_by_store = Returns tt drive_by_store_swept /\
  exists aps aps',
    memory drive_by_store = PDict aps /\ memory drive_by_store_swept = PDict aps' /\
    forall ap_mac ap', Dict.get ap_mac aps' = Some ap' ->
      fresh_at 2000 1800 ap' /\ clients_fresh 2000 900 ap'.
Proof.
  assert (H : _cleanup_memory 2000 drive_by_store = Returns tt drive_by_store_swept)
    by (vm_compute; reflexivity).
  split; [exact H|].
  destruct (eviction_safety 2000 drive_by_store drive_by_store_swept H)
    as (aps & aps' & Hm & Hm' & _ & Hsafe & _).
  exists aps, aps'. split; [exact Hm|]. split; [exact Hm'|].
  intros ap_mac ap' Hget. destruct (Hsafe ap_mac ap' Hget) as (Ha & Hc & _).
  split; [exact Ha | exact Hc].
Defined.

(** ** Persistence *)

Lemma in_modes_In v : in_modes v = true <-> exists s, v = PStr s /\ In s modes.
Proof.
  unfold in_modes. rewrite existsb_exists. split.
  - intros (m & Hin & Hm). destruct v; try discriminate.
    apply String.eqb_eq in Hm as <-. eauto.
  - intros (s & -> & Hin). exists s. split; [done|]. cbn. apply String.eqb_refl.
Qed.

Lemma default_mode_valid : In default_mode modes.
Proof. by left. Qed.

(** [restore_mode] never raises and leaves a valid mode. *)
Lemma restore_mode_spec saved_mode st :
  exists st',
    restore_mode saved_mode st = Returns tt st' /\
    memory st' = memory st /\
    _stationary_start st' = _stationary_start st /\
    In (mode st') modes /\
    (forall s, saved_mode = PStr s -> In s modes -> st' = set_mode s st) /\
    (in_modes saved_mode = false ->
       st' = set_mode default_mode (add_log WarnInvalidSavedMode st)).
Proof.
  unfold restore_mode. destruct saved_mode as [| | |s| |];
    try (eexists; split; [reflexivity|]; repeat split;
         [apply default_mode_valid | discriminate]).
  destruct (in_modes (PStr s)) eqn:E.
  - eexists. split; [reflexivity|]. repeat split.
    + apply in_modes_In in E as (s' & [= <-] & Hin). done.
    + by intros s' [= <-] _.
    + discriminate.
  - eexists. split; [reflexivity|]. repeat split.
    + apply default_mode_valid.
    + intros s' [= <-] Hin. assert (in_modes (PStr s) = true); [|congruence].
      apply in_modes_In. eauto.
Qed.

(** A clock read converts to a [float]. *)
Lemma time_time_fits t : fits_float (time_time t) = true.
Proof.
  assert (H : 0 <= FLOAT_MAX /\ FLOAT_MAX < FLOAT_LIMIT)
    by (split; [apply Z.leb_le | apply Z.ltb_lt]; vm_compute; reflexivity).
  unfold fits_float, time_time. apply Z.ltb_lt.
  generalize dependent FLOAT_MAX. generalize FLOAT_LIMIT. lia.
Qed.

(** The [try] block on a document that has a metadata dictionary. *)
Lemma load_file_metadata now d md st :
  Dict.get "plugin_metadata" d = Some (PDict md) ->
  exists st2,
    restore_mode (default (PStr default_mode) (Dict.get "current_mode" md))
      (set_memory (default (PDict []) (Dict.get "ap_data" d)) st) = Returns tt st2 /\
    load_file now (JsonText (PDict d)) st =
      let st3 := set_stationary_start (default PNone (Dict.get "stationary_start" md)) st2 in
      match py_sub now (default (PNum 0) (Dict.get "last_saved" md)) with
      | Ok _ => Returns tt st3
      | Raise e => Raises e st3
      end.
Proof.
  intros Hmeta.
  destruct (restore_mode_spec (default (PStr default_mode) (Dict.get "current_mode" md))
              (set_memory (default (PDict []) (Dict.get "ap_data" d)) st))
    as (st2 & Hst2 & _).
  exists st2. split; [done|].
  unfold load_file, bind, lift, modify, ret, py_in, Dict.mem, py_getitem, py_get.
  rewrite Hmeta, Hst2. cbn.
  by destruct (py_sub now _).
Qed.

(** The [try] block on a document without a metadata key. *)
Lemma load_file_legacy now doc st :
  py_in "plugin_metadata" doc = Ok false ->
  load_file now (JsonText doc) st = Returns tt (set_mode default_mode (set_memory doc st)).
Proof.
  intros H. unfold load_file, bind, lift, modify, ret. by rewrite H.
Qed.


(** C3: loading the document that [_save_memory] wrote gives back the
    store (the same keys and the same values, nested clients included),
    the top-level mode and the stationary timer; a document without a
    metadata block loads as the store itself with the default mode. *)
Theorem save_load_roundtrip :
  (forall st st0 disk t_save t_load,
     In (mode st) modes ->
     let st' := _load_memory t_load (snd (_save_memory t_save WriteOk st disk)) st0 in
     fst (_save_memory t_save WriteOk st disk) = st /\
     memory st' = memory st /\
     mode st' = mode st /\
     _stationary_start st' = _stationary_start st) /\
  (forall aps st0 t_load,
     Dict.get "plugin_metadata" aps = None ->
     let st' := _load_memory t_load (Some (JsonText (PDict aps))) st0 in
     memory st' = PDict aps /\ mode st' = default_mode).
Proof.
  split.
  - intros st st0 disk t_save t_load Hmode. cbn [_save_memory fst snd].
    split; [done|]. unfold _load_memory, memory_data.
    edestruct (load_file_metadata t_load) as (st2 & Hst2 & ->); [reflexivity|].
    change (restore_mode (PStr (mode st)) (set_memory (memory st) st0) = Returns tt st2)
      in Hst2.
    destruct (restore_mode_spec (PStr (mode st)) (set_memory (memory st) st0))
      as (st2' & Hst2' & Hmem & _ & _ & Hset & _).
    rewrite Hst2 in Hst2'. injection Hst2' as <-.
    rewrite (Hset _ eq_refl Hmode). cbn [Dict.get String.eqb Ascii.eqb Bool.eqb from_option id].
    unfold py_sub. cbn [as_number]. by rewrite time_time_fits.
  - intros aps st0 t_load Hlegacy. unfold _load_memory.
    rewrite load_file_legacy; [done|].
    unfold py_in, Dict.mem. by rewrite Hlegacy.
Qed.

Lemma save_load_roundtrip_witness :
  let st := set_stationary_start (PNum 1500) drive_by_store in
  let st' := _load_memory 2100 (snd (_save_memory 2000 WriteOk st None)) (init ∅) in
  memory st' = memory drive_by_store /\ mode st' = "drive-by" /\
  _stationary_start st' = PNum 1500.
Proof.
  pose proof (proj1 save_load_roundtrip
                (set_stationary_start (PNum 1500) drive_by_store) (init ∅) None 2000 2100)
    as H.
  destruct H as (_ & Hmem & Hmode & Hstart).
  - right. right. left. reflexivity.
  - split; [exact Hmem|]. split; [exact Hmode | exact Hstart].
Defined.



(** ** Invariants of stateful computations *)

Section Preserves.
Context (R : plugin -> plugin -> Prop).
Hypothesis R_refl : forall st, R st st.
Hypothesis R_trans : forall st1 st2 st3, R st1 st2 -> R st2 st3 -> R st1 st3.

Lemma preserves_ret {A} (a : A) : preserves R (ret a).
Proof. intros st. apply R_refl. Qed.

Lemma preserves_lift {A} (r : result A) : preserves R (lift r).
Proof. intros st. unfold lift. destruct r; apply R_refl. Qed.

Lemma preserves_gets {A} (f : plugin -> A) : preserves R (gets f).
Proof. intros st. apply R_refl. Qed.

Lemma preserves_reads {A} (f : plugin -> result A) : preserves R (reads f).
Proof. intros st. unfold reads, lift. destruct (f st); apply R_refl. Qed.

Lemma preserves_modify f : (forall st, R st (f st)) -> preserves R (modify f).
Proof. intros H st. apply H. Qed.

Lemma preserves_atomic f :
  (forall st st', f st = Ok st' -> R st st') -> preserves R (atomic f).
Proof.
  intros H st. unfold atomic. destruct (f st) eqn:E; cbn; [by apply H | apply R_refl].
Qed.

Lemma preserves_bind {A B} (m : M A) (k : A -> M B) :
  preserves R m -> (forall a, preserves R (k a)) -> preserves R (bind m k).
Proof.
  intros Hm Hk st. unfold bind. specialize (Hm st).
  destruct (m st) as [a st1|e st1]; cbn in *; [|done].
  eapply R_trans; [done | apply Hk].
Qed.
End Preserves.

Lemma same_store_refl st : same_store st st.
Proof. done. Qed.

Lemma same_store_trans st1 st2 st3 :
  same_store st1 st2 -> same_store st2 st3 -> same_store st1 st3.
Proof. unfold same_store. intros [] []. split; congruence. Qed.

Lemma _is_stationary_same_store now : preserves same_store (_is_stationary now).
Proof.
  intros st. destruct (_is_stationary_frame now st) as [v ->]. done.
Qed.

(** Walk through a computation, leaving the steps that change the state. *)
Ltac preserves_step refl trans :=
  first
    [ eapply preserves_bind; [exact trans | | intros ?]
    | apply preserves_reads; exact refl
    | apply preserves_gets; exact refl
    | apply preserves_ret; exact refl
    | apply preserves_lift; exact refl
    | match goal with |- preserves _ (if ?b then _ else _) => destruct b end
    | match goal with |- preserves _ (match ?x with _ => _ end) => destruct x end ].

Lemma _auto_mode_logic_same_store ts tm : preserves same_store (_auto_mode_logic ts tm).
Proof.
  unfold _auto_mode_logic.
  repeat first [ apply _is_stationary_same_store
               | preserves_step same_store_refl same_store_trans ].
Qed.

(** ** Timestamps of records *)

Lemma stamped_mono t t' v : stamped t v -> t <= t' -> stamped t' v.
Proof. intros (f & l & Hf & Hl & Hle) Ht. exists f, l. repeat split; try done; lia. Qed.

Lemma record_ok_mono t t' ap : record_ok t ap -> t <= t' -> record_ok t' ap.
Proof.
  intros [Hs Hc] Ht. split; [by eapply stamped_mono|].
  intros clients Hclients client_mac c Hget. eapply stamped_mono; [|done]. eauto.
Qed.

Lemma store_ok_mono t t' m : store_ok t m -> t <= t' -> store_ok t' m.
Proof.
  intros (aps & -> & Hok) Ht. exists aps. split; [done|].
  intros ap_mac ap Hget. eapply record_ok_mono; eauto.
Qed.

Lemma stamp_grows_refl t v : stamped t v -> stamp_grows v v.
Proof. intros (f & l & Hf & Hl & Hle). split; [done|]. exists l, l. by repeat split. Qed.

Lemma stamp_grows_trans v1 v2 v3 :
  stamp_grows v1 v2 -> stamp_grows v2 v3 -> stamp_grows v1 v3.
Proof.
  intros [Hf12 (l1 & l2 & Hl1 & Hl2 & Hle12)] [Hf23 (l2' & l3 & Hl2' & Hl3 & Hle23)].
  split; [congruence|]. exists l1, l3. repeat split; try done.
  assert (l2' = l2) by congruence. lia.
Qed.

Lemma record_grows_refl t ap : record_ok t ap -> record_grows ap ap.
Proof.
  intros [Hs Hc]. split; [by eapply stamp_grows_refl|].
  intros clients Hclients. exists clients. split; [done|].
  intros client_mac c Hget. exists c. split; [done|].
  eapply stamp_grows_refl. eauto.
Qed.

Lemma record_grows_trans ap1 ap2 ap3 :
  record_grows ap1 ap2 -> record_grows ap2 ap3 -> record_grows ap1 ap3.
Proof.
  intros [Hs12 Hc12] [Hs23 Hc23]. split; [by eapply stamp_grows_trans|].
  intros clients1 H1. destruct (Hc12 _ H1) as (clients2 & H2 & Hg12).
  destruct (Hc23 _ H2) as (clients3 & H3 & Hg23).
  exists clients3. split; [done|]. intros client_mac c1 Hget1.
  destruct (Hg12 _ _ Hget1) as (c2 & Hget2 & Hgrow12).
  destruct (Hg23 _ _ Hget2) as (c3 & Hget3 & Hgrow23).
  exists c3. split; [done|]. by eapply stamp_grows_trans.
Qed.

Lemma store_grows_refl t m : store_ok t m -> store_grows m m.
Proof.
  intros (aps & -> & Hok). exists aps, aps. repeat split.
  intros ap_mac ap Hget. exists ap. split; [done|]. eapply record_grows_refl. eauto.
Qed.

Lemma store_grows_trans m1 m2 m3 :
  store_grows m1 m2 -> store_grows m2 m3 -> store_grows m1 m3.
Proof.
  intros (aps1 & aps2 & -> & -> & H12) (aps2' & aps3 & [= <-] & -> & H23).
  exists aps1, aps3. repeat split. intros ap_mac ap1 Hget1.
  destruct (H12 _ _ Hget1) as (ap2 & Hget2 & Hg12).
  destruct (H23 _ _ Hget2) as (ap3 & Hget3 & Hg23).
  exists ap3. split; [done|]. by eapply record_grows_trans.
Qed.

Lemma same_store_advances now st st' : same_store st st' -> advances now st st'.
Proof.
  intros [Hmem _] t Ht Hok. rewrite Hmem. split.
  - by eapply store_ok_mono.
  - by eapply store_grows_refl.
Qed.

Lemma advances_refl now st : advances now st st.
Proof. by apply same_store_advances. Qed.

Lemma advances_trans now st1 st2 st3 :
  advances now st1 st2 -> advances now st2 st3 -> advances now st1 st3.
Proof.
  intros H12 H23 t Ht Hok. destruct (H12 t Ht Hok) as [Hok2 Hg12].
  destruct (H23 now (Z.le_refl _) Hok2) as [Hok3 Hg23].
  split; [done|]. by eapply store_grows_trans.
Qed.

Lemma preserves_same_store_advances now {A} (m : M A) :
  preserves same_store m -> preserves (advances now) m.
Proof. intros H st. apply same_store_advances, H. Qed.

Lemma stamp_of_set field k v d :
  stamp_of field (PDict (Dict.set k v d)) =
    if String.eqb k field then stamp_of field (PDict [(k, v)]) else stamp_of field (PDict d).
Proof.
  unfold stamp_of. rewrite DictFacts.get_set. cbn.
  destruct (String.eqb_spec k field) as [->|Hne]; [by rewrite String.eqb_refl | done].
Qed.

Lemma clients_of_set k v d :
  k <> "clients" -> clients_of (PDict (Dict.set k v d)) = clients_of (PDict d).
Proof. intros Hne. unfold clients_of. by rewrite DictFacts.get_set_ne. Qed.

Lemma clients_of_set_clients clients d :
  clients_of (PDict (Dict.set "clients" (PDict clients) d)) = Some clients.
Proof. unfold clients_of. by rewrite DictFacts.get_set_eq. Qed.

(** A new record enters a store in order. *)
Lemma store_insert now t aps k ap' :
  store_ok t (PDict aps) -> t <= now ->
  Dict.get k aps = None ->
  record_ok now ap' ->
  store_ok now (PDict (Dict.set k ap' aps)) /\
  store_grows (PDict aps) (PDict (Dict.set k ap' aps)).
Proof.
  intros (aps0 & [= <-] & Hok) Ht Hnew Hap'. split.
  - eexists. split; [done|]. intros k' ap. rewrite DictFacts.get_set.
    destruct (String.eqb_spec k k') as [->|Hne].
    + by intros [= <-].
    + intros Hget. eapply record_ok_mono; eauto.
  - eexists _, _. repeat split. intros k' ap Hget. exists ap.
    rewrite DictFacts.get_set_ne by congruence. split; [done|].
    eapply record_grows_refl. eauto.
Qed.

(** A record of a store in order is replaced by one it grows into. *)
Lemma store_update now t aps k ap ap' :
  store_ok t (PDict aps) -> t <= now ->
  Dict.get k aps = Some ap ->
  record_ok now ap' -> record_grows ap ap' ->
  store_ok now (PDict (Dict.set k ap' aps)) /\
  store_grows (PDict aps) (PDict (Dict.set k ap' aps)).
Proof.
  intros (aps0 & [= <-] & Hok) Ht Hold Hap' Hgrows. split.
  - eexists. split; [done|]. intros k' ap0. rewrite DictFacts.get_set.
    destruct (String.eqb_spec k k') as [->|Hne].
    + by intros [= <-].
    + intros Hget. eapply record_ok_mono; eauto.
  - eexists _, _. repeat split. intros k' ap0 Hget. rewrite DictFacts.get_set.
    destruct (String.eqb_spec k k') as [->|Hne].
    + exists ap'. split; [done|]. congruence.
    + exists ap0. split; [done|]. eapply record_grows_refl. eauto.
Qed.

Lemma new_ap_record_ok ssid rssi channel encryption now :
  record_ok now (new_ap_record ssid rssi channel encryption now).
Proof.
  split.
  - exists now, now. repeat split; try done; lia.
  - intros clients [= <-] client_mac c. discriminate.
Qed.

Lemma new_client_record_stamped now : stamped now (new_client_record now).
Proof. exists now, now. repeat split; try done; lia. Qed.

(** ** Ingest *)

(** The entry branch, case by case. *)
Lemma ingest_entry_eq now k ssid rssi channel encryption st aps :
  memory st = PDict aps ->
  ingest_entry now k ssid rssi channel encryption st =
    match Dict.get k aps with
    | None =>
        Ok (set_dirty true
              (set_memory
                 (PDict (Dict.set k (new_ap_record ssid rssi channel encryption now) aps)) st))
    | Some (PDict d) =>
        Ok (set_memory (PDict (Dict.set k (PDict (updated_entry now ssid rssi d)) aps)) st)
    | Some _ => Raise TypeError
    end.
Proof.
  intros Hmem. unfold ingest_entry, updated_entry. rewrite Hmem. cbn. unfold Dict.mem.
  destruct (Dict.get k aps) as [ap|]; cbn; [|done].
  destruct ap; cbn; try done. by destruct (py_truthy ssid).
Qed.

Lemma ingest_entry_Ok now k ssid rssi channel encryption st st' :
  ingest_entry now k ssid rssi channel encryption st = Ok st' ->
  exists aps, memory st = PDict aps.
Proof.
  unfold ingest_entry. destruct (memory st); cbn; try discriminate; eauto.
  all: by case_match.
Qed.

Lemma updated_entry_stamps now ssid rssi d :
  first_seen_of (PDict (updated_entry now ssid rssi d)) = first_seen_of (PDict d) /\
  last_seen_of (PDict (updated_entry now ssid rssi d)) = Some now /\
  clients_of (PDict (updated_entry now ssid rssi d)) = clients_of (PDict d).
Proof.
  unfold updated_entry, first_seen_of, last_seen_of.
  destruct (py_truthy ssid);
    rewrite ?stamp_of_set, ?clients_of_set by discriminate; cbn; done.
Qed.

Lemma ingest_entry_advances now k ssid rssi channel encryption st st' :
  ingest_entry now k ssid rssi channel encryption st = Ok st' -> advances now st st'.
Proof.
  intros H. destruct (ingest_entry_Ok _ _ _ _ _ _ _ _ H) as [aps Hmem].
  rewrite (ingest_entry_eq _ _ _ _ _ _ _ _ Hmem) in H.
  intros t Ht Hok. rewrite Hmem in Hok |- *.
  destruct (Dict.get k aps) as [ap|] eqn:Hget.
  - destruct ap as [| | | | |d]; try discriminate. injection H as <-. cbn [memory set_memory].
    destruct (updated_entry_stamps now ssid rssi d) as (Hf & Hl & Hc).
    destruct Hok as (aps0 & [= <-] & Hrec). pose proof (Hrec _ _ Hget) as [Hst Hcl].
    destruct Hst as (f & l & Hf0 & Hl0 & Hle).
    eapply store_update; [by eexists| done | done | |].
    + split.
      * exists f, now. rewrite Hf, Hl. repeat split; try done; lia.
      * rewrite Hc. intros clients Hclients client_mac c Hc0.
        eapply stamped_mono; [|done]. eauto.
    + split.
      * split; [congruence|]. exists l, now. repeat split; try done; lia.
      * rewrite Hc. intros clients Hclients. exists clients. split; [done|].
        intros client_mac c Hc0. exists c. split; [done|].
        eapply stamp_grows_refl. eauto.
  - injection H as <-. cbn [memory set_memory set_dirty].
    eapply store_insert; [done..|]. apply new_ap_record_ok.
Qed.

(** The client branch, case by case. *)
Lemma ingest_client_eq now k client_data st aps d clients c :
  memory st = PDict aps ->
  Dict.get k aps = Some (PDict d) ->
  Dict.get "clients" d = Some (PDict clients) ->
  mac_of client_data = Ok c -> c <> "" ->
  ingest_client now k client_data st =
    match Dict.get c clients with
    | None =>
        Ok (set_dirty true
              (set_memory (with_client k c (new_client_record now) aps d clients) st))
    | Some (PDict cd) =>
        Ok (set_memory
              (with_client k c (PDict (Dict.set "last_seen" (PNum now) cd)) aps d clients) st)
    | Some _ => Raise TypeError
    end.
Proof.
  intros Hmem Hap Hclients Hmac Hne. unfold ingest_client, with_client.
  rewrite Hmac, Hmem. cbn.
  destruct (String.eqb_spec c ""); [done|].
  rewrite Hap. cbn. rewrite Hclients. cbn. unfold Dict.mem.
  destruct (Dict.get c clients) as [cv|]; cbn; [|done].
  by destruct cv.
Qed.

Lemma ingest_client_Ok now k client_data st st' :
  ingest_client now k client_data st = Ok st' ->
  mac_of client_data = Ok "" /\ st' = st \/
  exists aps d clients c,
    memory st = PDict aps /\ Dict.get k aps = Some (PDict d) /\
    Dict.get "clients" d = Some (PDict clients) /\
    mac_of client_data = Ok c /\ c <> "".
Proof.
  unfold ingest_client. intros H. apply bind_Ok in H as (c & Hc & H).
  destruct (String.eqb_spec c "") as [->|Hne].
  { left. by injection H as <-. }
  right. apply bind_Ok in H as (ap & Hap & H). apply bind_Ok in H as (cl & Hcl & H).
  destruct (memory st) as [| | | | |aps]; try discriminate.
  cbn in Hap. destruct (Dict.get k aps) as [ap0|] eqn:Hget; [|discriminate].
  injection Hap as ->.
  destruct ap as [| | | | |d]; try discriminate.
  cbn in Hcl. destruct (Dict.get "clients" d) as [cl0|] eqn:Hgetc; [|discriminate].
  injection Hcl as ->.
  destruct cl as [| | | | |clients]; try discriminate.
  - cbn in H. by case_match.
  - cbn in H. by case_match.
  - by exists aps, d, clients, c.
Qed.

Lemma ingest_client_advances now k client_data st st' :
  ingest_client now k client_data st = Ok st' -> advances now st st'.
Proof.
  intros H.
  destruct (ingest_client_Ok _ _ _ _ _ H)
    as [[_ ->]|(aps & d & clients & c & Hmem & Hap & Hclients & Hmac & Hne)].
  { apply advances_refl. }
  rewrite (ingest_client_eq _ _ _ _ _ _ _ _ Hmem Hap Hclients Hmac Hne) in H.
  intros t Ht Hok. rewrite Hmem in Hok |- *.
  pose proof Hok as (aps0 & [= <-] & Hrec).
  destruct (Hrec _ _ Hap) as [Hst Hcl].
  assert (Hclients_of : clients_of (PDict d) = Some clients)
    by (unfold clients_of; by rewrite Hclients).
  assert (Hstamps : forall c' field,
            field <> "clients" ->
            stamp_of field (PDict (Dict.set "clients" c' d)) = stamp_of field (PDict d)).
  { intros c' field Hfield. rewrite stamp_of_set.
    destruct (String.eqb_spec "clients" field); [congruence | done]. }
  assert (Hput : forall cv,
            stamped now cv ->
            (forall old, Dict.get c clients = Some old -> stamp_grows old cv) ->
            store_ok now (with_client k c cv aps d clients) /\
            store_grows (PDict aps) (with_client k c cv aps d clients)).
  { intros cv Hcv Hgrow. unfold with_client.
    destruct Hst as (f & l & Hf & Hl & Hle).
    eapply store_update; [done..| |].
    - split.
      + exists f, l. unfold first_seen_of, last_seen_of in *.
        rewrite !Hstamps by discriminate. repeat split; try done; lia.
      + rewrite clients_of_set_clients. intros ? [= <-] c' v. rewrite DictFacts.get_set.
        destruct (String.eqb_spec c c') as [->|Hne'].
        * by intros [= <-].
        * intros Hget. eapply stamped_mono; [|done]. eauto.
    - split.
      + split.
        * unfold first_seen_of. by rewrite Hstamps.
        * exists l, l. unfold last_seen_of in *. rewrite Hstamps by discriminate.
          repeat split; try done; lia.
      + intros ? Hcl0. rewrite Hclients_of in Hcl0. injection Hcl0 as <-.
        eexists. split; [apply clients_of_set_clients|].
        intros c' v Hget. rewrite DictFacts.get_set.
        destruct (String.eqb_spec c c') as [->|Hne'].
        * eexists. split; [done|]. by apply Hgrow.
        * exists v. split; [done|]. eapply stamp_grows_refl. eauto. }
  destruct (Dict.get c clients) as [cv|] eqn:Hget.
  - destruct cv as [| | | | |cd]; try discriminate. injection H as <-.
    cbn [memory set_memory].
    destruct (Hcl _ Hclients_of _ _ Hget) as (f & l & Hf & Hl & Hle).
    apply Hput.
    + exists f, now. unfold first_seen_of, last_seen_of in *.
      rewrite !stamp_of_set. cbn. repeat split; try done; lia.
    + intros old [= <-]. split.
      * unfold first_seen_of. by rewrite stamp_of_set.
      * exists l, now. unfold last_seen_of in *. rewrite stamp_of_set. cbn.
        repeat split; try done; lia.
  - injection H as <-. cbn [memory set_memory set_dirty].
    apply Hput; [apply new_client_record_stamped | discriminate].
Qed.

Lemma ingest_clients_advances now k clients :
  preserves (advances now) (ingest_clients now k clients).
Proof.
  induction clients as [|client_data rest IH]; cbn [ingest_clients].
  - apply preserves_ret, advances_refl.
  - eapply preserves_bind; [exact (advances_trans now) | | intros _; exact IH].
    apply preserves_atomic; [exact (advances_refl now)|].
    intros st st'. apply ingest_client_advances.
Qed.

Lemma ingest_ap_advances now ap_data new_ap_count :
  preserves (advances now) (ingest_ap now ap_data new_ap_count).
Proof.
  unfold ingest_ap, ingest_ap_clients.
  repeat first
    [ apply ingest_clients_advances
    | apply preserves_atomic;
        [exact (advances_refl now) | intros ? ?; apply ingest_entry_advances]
    | preserves_step (advances_refl now) (advances_trans now) ].
Qed.

Lemma ingest_aps_advances now aps new_ap_count :
  preserves (advances now) (ingest_aps now aps new_ap_count).
Proof.
  revert new_ap_count. induction aps as [|ap_data rest IH]; intros n; cbn [ingest_aps].
  - apply preserves_ret, advances_refl.
  - eapply preserves_bind; [exact (advances_trans now) | | intros n'; apply IH].
    apply ingest_ap_advances.
Qed.

Lemma process_ap_list_advances t data :
  preserves (advances (t_now t)) (process_ap_list t data).
Proof.
  unfold process_ap_list.
  repeat first
    [ apply ingest_aps_advances
    | apply preserves_same_store_advances, _auto_mode_logic_same_store
    | apply preserves_modify; intros ?; by apply same_store_advances
    | preserves_step (advances_refl (t_now t)) (advances_trans (t_now t)) ].
Qed.

Lemma on_unfiltered_ap_list_advances t data st :
  advances (t_now t) st (on_unfiltered_ap_list t data st).
Proof.
  unfold on_unfiltered_ap_list. destruct (ready st); cbn [negb]; [|apply advances_refl].
  set (st0 := if 30 <? _ then _ else st).
  assert (H0 : advances (t_now t) st st0).
  { apply same_store_advances. unfold st0. by case_match. }
  eapply advances_trans; [exact H0|].
  pose proof (process_ap_list_advances t data st0) as H.
  destruct (process_ap_list t data st0) as [u st'|e st']; cbn in H; [done|].
  eapply advances_trans; [exact H|]. by apply same_store_advances.
Qed.

Lemma ingests_advances batches t0 st :
  store_ok t0 (memory st) ->
  StronglySorted Z.le (t0 :: batch_times batches) ->
  exists t1,
    t0 <= t1 /\ In t1 (t0 :: batch_times batches) /\
    store_ok t1 (memory (ingests batches st)) /\
    store_grows (memory st) (memory (ingests batches st)).
Proof.
  revert t0 st. induction batches as [|[t data] rest IH]; intros t0 st Hok Hsorted.
  - exists t0. split; [lia|]. split; [by left|]. split; [done|]. by eapply store_grows_refl.
  - cbn in Hsorted. apply StronglySorted_cons in Hsorted as [Hall Hsorted].
    pose proof Hall as Hle. apply Forall_cons in Hle as [Hle _].
    destruct (on_unfiltered_ap_list_advances t data st t0 Hle Hok) as [Hok1 Hg1].
    destruct (IH _ _ Hok1 Hsorted) as (t1 & Hle1 & Hin1 & Hok2 & Hg2).
    exists t1. split; [lia|]. split; [by right|]. split; [done|].
    by eapply store_grows_trans.
Qed.

(** C8: along ingest batches with non-decreasing timestamps, starting
    from a store whose records are in order (as the empty store is), at
    any two points of the run the records are in order (first-seen is not
    after last-seen, for access points and for clients), and each record
    of the earlier point is still there at the later point with the same
    first-seen and a last-seen that did not go back. *)
Theorem timestamps_monotone t0 st before after :
  store_ok t0 (memory st) ->
  StronglySorted Z.le (t0 :: batch_times (before ++ after)) ->
  let st1 := ingests before st in
  let st2 := ingests after st1 in
  exists t1 t2,
    t0 <= t1 <= t2 /\
    store_ok t1 (memory st1) /\
    store_ok t2 (memory st2) /\
    store_grows (memory st) (memory st1) /\
    store_grows (memory st1) (memory st2).
Proof.
  intros Hok Hsorted st1 st2. unfold batch_times in Hsorted.
  rewrite map_app in Hsorted. fold (batch_times before) (batch_times after) in Hsorted.
  change (StronglySorted Z.le ((t0 :: batch_times before) ++ batch_times after)) in Hsorted.
  apply StronglySorted_app in Hsorted as (Hcross & Hsorted1 & Hsorted2).
  destruct (ingests_advances before t0 st Hok Hsorted1) as (t1 & Hle1 & Hin1 & Hok1 & Hg1).
  assert (Hsorted2' : StronglySorted Z.le (t1 :: batch_times after)).
  { apply StronglySorted_cons. split; [|done]. apply Forall_forall.
    intros x Hx. apply Hcross; [by apply list_elem_of_In | done]. }
  destruct (ingests_advances after t1 st1 Hok1 Hsorted2') as (t2 & Hle2 & _ & Hok2 & Hg2).
  exists t1, t2. by repeat split.
Qed.

Lemma timestamps_monotone_witness :
  let st1 := ingests [hd (at_time 0, PNone) two_batches] (fresh ∅) in
  let st2 := ingests (tl two_batches) st1 in
  exists t1 t2,
    0 <= t1 <= t2 /\ store_ok t1 (memory st1) /\ store_ok t2 (memory st2) /\
    store_grows (memory st1) (memory st2).
Proof.
  assert (Hok : store_ok 0 (memory (fresh ∅))).
  { exists []. split; [reflexivity|]. intros ap_mac ap H. discriminate H. }
  assert (Hsorted : StronglySorted Z.le
                      (0 :: batch_times ([hd (at_time 0, PNone) two_batches]
                                           ++ tl two_batches))).
  { cbn. repeat constructor; lia. }
  destruct (timestamps_monotone 0 (fresh ∅) [hd (at_time 0, PNone) two_batches]
              (tl two_batches) Hok Hsorted)
    as (t1 & t2 & Hle & Hok1 & Hok2 & _ & Hgrows).
  exists t1, t2. split; [exact Hle|]. split; [exact Hok1|]. split; [exact Hok2 | exact Hgrows].
Defined.

Lemma keeps_fields_refl k st : keeps_fields k st st.
Proof. split; [done|]. intros aps d Hmem Hget. by exists aps, d. Qed.

Lemma keeps_fields_trans k st1 st2 st3 :
  keeps_fields k st1 st2 -> keeps_fields k st2 st3 -> keeps_fields k st1 st3.
Proof.
  intros [Hd12 H12] [Hd23 H23]. split; [auto|]. intros aps d Hmem Hget.
  destruct (H12 _ _ Hmem Hget) as (aps2 & d2 & Hmem2 & Hget2 & Hf2 & Ho2).
  destruct (H23 _ _ Hmem2 Hget2) as (aps3 & d3 & Hmem3 & Hget3 & Hf3 & Ho3).
  exists aps3, d3. repeat split; try done.
  - intros field Hne. rewrite Hf3 by done. by apply Hf2.
  - intros other Hne. rewrite Ho3 by done. by apply Ho2.
Qed.

Lemma ingest_client_keeps_fields now k client_data st st' :
  ingest_client now k client_data st = Ok st' -> keeps_fields k st st'.
Proof.
  intros H.
  destruct (ingest_client_Ok _ _ _ _ _ H)
    as [[_ ->]|(aps & d & clients & c & Hmem & Hap & Hclients & Hmac & Hne)].
  { apply keeps_fields_refl. }
  rewrite (ingest_client_eq _ _ _ _ _ _ _ _ Hmem Hap Hclients Hmac Hne) in H.
  assert (Hput : forall cv dirty,
            keeps_fields k st
              (set_dirty (dirty || memory_is_dirty st)
                 (set_memory (with_client k c cv aps d clients) st))).
  { intros cv dirty. split.
    - cbn. intros ->. apply orb_true_r.
    - intros aps0 d0 Hmem0 Hget0. rewrite Hmem in Hmem0. injection Hmem0 as <-.
      rewrite Hap in Hget0. injection Hget0 as <-.
      eexists _, _. split; [reflexivity|]. split; [apply DictFacts.get_set_eq|]. split.
      + intros field Hfield. by apply DictFacts.get_set_ne.
      + intros other Hother. by apply DictFacts.get_set_ne. }
  destruct (Dict.get c clients) as [cv|].
  - destruct cv as [| | | | |cd]; try discriminate. injection H as <-.
    specialize (Hput (PDict (Dict.set "last_seen" (PNum now) cd)) false).
    cbn [orb] in Hput. by destruct st.
  - injection H as <-. exact (Hput (new_client_record now) true).
Qed.

Lemma ingest_ap_clients_keeps_fields now k ap_data :
  preserves (keeps_fields k) (ingest_ap_clients now k ap_data).
Proof.
  unfold ingest_ap_clients.
  eapply preserves_bind;
    [exact (keeps_fields_trans k) | apply preserves_lift, keeps_fields_refl | intros v].
  eapply preserves_bind;
    [exact (keeps_fields_trans k) | apply preserves_lift, keeps_fields_refl | intros clients].
  induction clients as [|client_data rest IH]; cbn [ingest_clients].
  - apply preserves_ret, keeps_fields_refl.
  - eapply preserves_bind; [exact (keeps_fields_trans k) | | intros _; exact IH].
    apply preserves_atomic; [exact (keeps_fields_refl k)|].
    intros st st'. apply ingest_client_keeps_fields.
Qed.

Lemma mac_of_dict d :
  mac_of (PDict d) = py_lower (default (PStr "") (Dict.get "mac" d)).
Proof. done. Qed.

Lemma lower_empty s : lower s = "" <-> s = "".
Proof. destruct s; cbn; split; congruence. Qed.

(** An observation without identifier is passed over. *)
Lemma ingest_ap_skip now ap_data new_ap_count st :
  mac_of ap_data = Ok "" ->
  ingest_ap now ap_data new_ap_count st = Returns new_ap_count st.
Proof. intros H. unfold ingest_ap, bind, lift. by rewrite H. Qed.

(** An observation with an identifier: the entry branch runs, then the
    clients are processed. *)
Lemma ingest_ap_entry now d new_ap_count st k st1 :
  mac_of (PDict d) = Ok k -> k <> "" ->
  ingest_entry now k (default (PStr "") (Dict.get "hostname" d))
    (default (PNum 0) (Dict.get "rssi" d)) (default (PNum 0) (Dict.get "channel" d))
    (default (PStr "") (Dict.get "encryption" d)) st = Ok st1 ->
  keeps_fields k st1 (final_state (ingest_ap now (PDict d) new_ap_count st)).
Proof.
  intros Hmac Hne Hentry.
  destruct (ingest_entry_Ok _ _ _ _ _ _ _ _ Hentry) as [aps Hmem].
  unfold ingest_ap. unfold bind at 1. unfold lift at 1. rewrite Hmac.
  destruct (String.eqb_spec k ""); [done|].
  unfold bind, lift, reads, ret, atomic, py_get. rewrite Hmem. cbn [py_in fmap result_fmap].
  unfold lift. rewrite Hentry.
  pose proof (ingest_ap_clients_keeps_fields now k (PDict d) st1) as H.
  by destruct (ingest_ap_clients now k (PDict d) st1).
Qed.

(** C7: one observation of a batch.  An observation without identifier,
    or with the empty identifier, is passed over: no exception, the state
    is as before.  The first observation of an identifier creates the
    record, with first-seen and last-seen at the time of the batch, and
    sets the dirty flag.  A later observation sets last-seen and the
    signal strength to the incoming values, sets the name to the incoming
    value only if that is non-empty (it is the previous name otherwise) and
    leaves first-seen as it is.  The records of other identifiers are not
    touched. *)
Theorem ingest_observation now d new_ap_count st :
  let ssid := default (PStr "") (Dict.get "hostname" d) in
  let rssi := default (PNum 0) (Dict.get "rssi" d) in
  let st' := final_state (ingest_ap now (PDict d) new_ap_count st) in
  (Dict.get "mac" d = None \/ Dict.get "mac" d = Some (PStr "") ->
     ingest_ap now (PDict d) new_ap_count st = Returns new_ap_count st /\
     forall rest,
       ingest_aps now (PDict d :: rest) new_ap_count st = ingest_aps now rest new_ap_count st) /\
  (forall mac aps,
     Dict.get "mac" d = Some (PStr mac) -> mac <> "" -> memory st = PDict aps ->
     (Dict.get (lower mac) aps = None ->
        exists aps' record,
          memory st' = PDict aps' /\
          Dict.get (lower mac) aps' = Some (PDict record) /\
          Dict.get "first_seen" record = Some (PNum now) /\
          Dict.get "last_seen" record = Some (PNum now) /\
          Dict.get "ssid" record = Some ssid /\
          Dict.get "rssi" record = Some rssi /\
          memory_is_dirty st' = true /\
          (forall other, other <> lower mac -> Dict.get other aps' = Dict.get other aps)) /\
     (forall old,
        Dict.get (lower mac) aps = Some (PDict old) ->
        exists aps' record,
          memory st' = PDict aps' /\
          Dict.get (lower mac) aps' = Some (PDict record) /\
          Dict.get "last_seen" record = Some (PNum now) /\
          Dict.get "rssi" record = Some rssi /\
          Dict.get "ssid" record = (if py_truthy ssid then Some ssid else Dict.get "ssid" old) /\
          Dict.get "first_seen" record = Dict.get "first_seen" old /\
          (forall other, other <> lower mac -> Dict.get other aps' = Dict.get other aps))).
Proof.
  intros ssid rssi st'. split.
  - intros Hmac.
    assert (Hskip : mac_of (PDict d) = Ok "").
    { rewrite mac_of_dict. by destruct Hmac as [-> | ->]. }
    split; [by apply ingest_ap_skip|].
    intros rest. cbn [ingest_aps]. unfold bind. by rewrite ingest_ap_skip.
  - intros mac aps Hmac Hne Hmem.
    assert (Hk : mac_of (PDict d) = Ok (lower mac)) by (by rewrite mac_of_dict, Hmac).
    assert (Hkne : lower mac <> "") by (by rewrite lower_empty).
    pose proof (ingest_entry_eq now (lower mac) ssid rssi
                  (default (PNum 0) (Dict.get "channel" d))
                  (default (PStr "") (Dict.get "encryption" d)) st aps Hmem) as Hentry.
    split.
    + intros Hnew. rewrite Hnew in Hentry.
      destruct (ingest_ap_entry now d new_ap_count st _ _ Hk Hkne Hentry) as [Hdirty Hkeep].
      edestruct Hkeep as (aps' & record & Hmem' & Hget' & Hfields & Hother);
        [reflexivity | apply DictFacts.get_set_eq |].
      exists aps', record. split; [done|]. split; [done|].
      rewrite !Hfields by discriminate. repeat split; try done.
      * by apply Hdirty.
      * intros other Hne'. rewrite Hother by done. by apply DictFacts.get_set_ne.
    + intros old Hold. rewrite Hold in Hentry.
      destruct (ingest_ap_entry now d new_ap_count st _ _ Hk Hkne Hentry) as [_ Hkeep].
      edestruct Hkeep as (aps' & record & Hmem' & Hget' & Hfields & Hother);
        [reflexivity | apply DictFacts.get_set_eq |].
      exists aps', record. split; [done|]. split; [done|].
      rewrite !Hfields by discriminate. unfold updated_entry.
      repeat split.
      * destruct (py_truthy ssid); by rewrite !DictFacts.get_set.
      * destruct (py_truthy ssid); by rewrite !DictFacts.get_set.
      * destruct (py_truthy ssid); by rewrite !DictFacts.get_set.
      * destruct (py_truthy ssid); by rewrite !DictFacts.get_set.
      * intros other Hne'. rewrite Hother by done. by apply DictFacts.get_set_ne.
Qed.

Lemma ingest_observation_witness :
  let st := ingests [hd (at_time 0, PNone) two_batches] (fresh ∅) in
  let st' := final_state
               (ingest_ap 200 (observation "AA:BB" "" (-50) ["cc:dd"; "EE:FF"]) 0 st) in
  exists aps' record,
    memory st' = PDict aps' /\
    Dict.get "aa:bb" aps' = Some (PDict record) /\
    Dict.get "last_seen" record = Some (PNum 200) /\
    Dict.get "rssi" record = Some (PNum (-50)) /\
    Dict.get "ssid" record = Some (PStr "Net1") /\
    Dict.get "first_seen" record = Some (PNum 100).
Proof.
  pose proof (ingest_observation 200 (observation_fields "AA:BB" "" (-50) ["cc:dd"; "EE:FF"])
                0 (ingests [hd (at_time 0, PNone) two_batches] (fresh ∅))) as [_ H].
  edestruct (H "AA:BB") as [_ Hseen]; [reflexivity | discriminate | vm_compute; reflexivity |].
  edestruct Hseen as (aps' & record & Hmem & Hget & Hlast & Hrssi & Hssid & Hfirst & _);
    [vm_compute; reflexivity|].
  exists aps', record.
  split; [exact Hmem|]. split; [exact Hget|]. split; [exact Hlast|].
  split; [exact Hrssi|]. split; [exact Hssid | exact Hfirst].
Defined.

(** ** Dirty flag *)

(** The periodic save is attempted after the sweep of the tick, when the
    flag is set and the epoch is a multiple of 5. *)
Lemma on_epoch_unfold k disk st st1 :
  ready st = true ->
  epoch_cleanup k st = Returns tt st1 ->
  on_epoch k disk st =
    if memory_is_dirty st1 && (epoch k mod 5 =? 0) then
      (Returns tt (set_dirty false (fst (_save_memory (t_save k) (write k) st1 disk))),
       snd (_save_memory (t_save k) (write k) st1 disk))
    else (Returns tt st1, disk).
Proof.
  intros Hready Hsweep. unfold on_epoch. rewrite Hready, Hsweep. cbn [negb].
  destruct (memory_is_dirty st1 && (epoch k mod 5 =? 0)); [|done].
  by destruct (_save_memory (t_save k) (write k) st1 disk).
Qed.







Lemma _cleanup_memory_sets_dirty now st :
  memory_is_dirty (final_state (_cleanup_memory now st)) = true.
Proof.
  unfold _cleanup_memory, sweep, bind, gets, modify, reads, lift, ret.
  change (memory (set_dirty true st)) with (memory st).
  destruct (memory st); cbn [py_items final_state]; try done.
  destruct (expired_keys now _ d); cbn [final_state]; [|done].
  destruct (sweep_clients now _ _ _) as [aps' [e|]]; done.
Qed.




(** * Further properties *)

(** ** Activity tracker *)

Lemma total_count_app h1 h2 : total_count (h1 ++ h2) = total_count h1 + total_count h2.
Proof.
  unfold total_count. induction h1 as [|s h1 IH]; cbn; [done|]. rewrite IH. lia.
Qed.

Lemma total_count_nonneg hist : counts_nonneg hist -> 0 <= total_count hist.
Proof.
  unfold total_count. induction 1 as [|s hist Hs _ IH]; cbn; lia.
Qed.

Lemma counts_nonneg_filter f hist : counts_nonneg hist -> counts_nonneg (List.filter f hist).
Proof.
  unfold counts_nonneg. rewrite !List.Forall_forall. intros H s Hin.
  apply filter_In in Hin as [Hin _]. by apply H.
Qed.

(** Inside the window nothing is left out of the sum. *)
Lemma recent_activity_all hist now :
  (forall s, In s hist -> now - ACTIVITY_WINDOW_SECONDS <= fst s) ->
  recent_activity hist now = total_count hist.
Proof.
  unfold recent_activity, total_count. induction hist as [|s hist IH]; intros H; [done|].
  cbn [List.filter]. destruct (Z.leb_spec (now - fst s) ACTIVITY_WINDOW_SECONDS) as [_|Hout].
  - cbn. rewrite IH; [done|]. intros s' Hin. apply H. by right.
  - specialize (H s (or_introl eq_refl)). lia.
Qed.

(** The sample [_update_activity_history] adds is the last one of the
    history, and a sum taken at the time of the update covers the whole
    history. *)
Lemma update_history_last count now st :
  let hist' := _activity_history (_update_activity_history count now st) in
  (exists older, hist' = older ++ [(now, count)]) /\
  recent_activity hist' now = total_count hist'.
Proof.
  cbn zeta. unfold _update_activity_history. cbn [_activity_history set_activity_history].
  split.
  - rewrite List.filter_app. cbn [List.filter fst].
    destruct (Z.ltb_spec (now - ACTIVITY_WINDOW_SECONDS) now) as [_|Hbad].
    + eauto.
    + unfold ACTIVITY_WINDOW_SECONDS in Hbad. lia.
  - apply recent_activity_all. intros s Hin.
    apply filter_In in Hin as [_ Hnew]. apply Z.ltb_lt in Hnew. lia.
Qed.

(** X1: [_update_activity_history] keeps exactly the samples that are
    newer than the window, the new sample last among them; a sum taken at
    the time of the update then covers every sample kept. *)
Theorem activity_window_after_update count now st :
  let hist' := _activity_history (_update_activity_history count now st) in
  (forall t c, In (t, c) hist' <->
     now - ACTIVITY_WINDOW_SECONDS < t /\
     (In (t, c) (_activity_history st) \/ (t, c) = (now, count))) /\
  (exists older, hist' = older ++ [(now, count)]) /\
  recent_activity hist' now = total_count hist'.
Proof.
  cbn zeta. split; [|apply update_history_last].
  intros t c. unfold _update_activity_history.
  cbn [_activity_history set_activity_history].
  rewrite filter_In, in_app_iff. cbn [fst In].
  rewrite Z.ltb_lt. intuition congruence.
Qed.

(** X2: a batch that discovers at least [ACTIVITY_THRESHOLD] access
    points makes [_is_moving] true at once, whatever the history held,
    as long as the counts in it are not negative. *)
Theorem burst_is_moving count now st :
  counts_nonneg (_activity_history st) ->
  ACTIVITY_THRESHOLD <= count ->
  _is_moving now (_update_activity_history count now st) = true.
Proof.
  intros Hnonneg Hburst. unfold _is_moving. apply Z.leb_le.
  destruct (update_history_last count now st) as ([older Hhist] & ->).
  assert (Hkept : counts_nonneg (_activity_history (_update_activity_history count now st))).
  { unfold _update_activity_history. cbn [_activity_history set_activity_history].
    apply counts_nonneg_filter. apply Forall_app. split; [done|].
    apply Forall_cons. split; [|done]. cbn. unfold ACTIVITY_THRESHOLD in Hburst. lia. }
  rewrite Hhist in Hkept |- *. apply Forall_app in Hkept as [Holder _].
  rewrite total_count_app. pose proof (total_count_nonneg older Holder).
  unfold total_count at 2. cbn. lia.
Qed.

Lemma burst_is_moving_witness :
  _is_moving 400 (_update_activity_history 6 400 (set_activity_history [(90, 2); (350, 1)]
                                                   (fresh ∅))) = true.
Proof.
  apply burst_is_moving.
  - repeat constructor; cbn; lia.
  - unfold ACTIVITY_THRESHOLD. lia.
Defined.

(** ** Inversion of computations that return *)

Lemma bind_Returns {A B} (m : M A) (k : A -> M B) st b st' :
  bind m k st = Returns b st' ->
  exists a st1, m st = Returns a st1 /\ k a st1 = Returns b st'.
Proof. unfold bind. destruct (m st) as [a st1|e st1]; [eauto | discriminate]. Qed.

Lemma lift_Returns {A} (r : result A) st a st' :
  lift r st = Returns a st' -> r = Ok a /\ st' = st.
Proof. destruct r; cbn; [|discriminate]. intros [= -> ->]. auto. Qed.

Lemma reads_Returns {A} (f : plugin -> result A) st a st' :
  reads f st = Returns a st' -> f st = Ok a /\ st' = st.
Proof. apply lift_Returns. Qed.

Lemma atomic_Returns f st u st' : atomic f st = Returns u st' -> f st = Ok st'.
Proof. unfold atomic. destruct (f st); [|discriminate]. by intros [= _ ->]. Qed.

Lemma preserves_Returns R {A} (m : M A) st a st' :
  preserves R m -> m st = Returns a st' -> R st st'.
Proof. intros H E. specialize (H st). by rewrite E in H. Qed.

(** ** Keys of the store *)

Lemma keys_set_present {A} k (v : A) d :
  Dict.mem k d = true -> Dict.keys (Dict.set k v d) = Dict.keys d.
Proof.
  unfold Dict.mem, Dict.keys. induction d as [|[k' v'] d IH]; cbn; [discriminate|].
  destruct (String.eqb_spec k k') as [->|Hne]; cbn; [done|].
  intros H. f_equal. by apply IH.
Qed.

Lemma keys_set_absent {A} k (v : A) d :
  Dict.get k d = None -> Dict.keys (Dict.set k v d) = Dict.keys d ++ [k].
Proof.
  unfold Dict.keys. induction d as [|[k' v'] d IH]; cbn; [done|].
  destruct (String.eqb_spec k k') as [->|Hne]; cbn; [discriminate|].
  intros H. f_equal. by apply IH.
Qed.

Lemma get_mem {A} k (d : list (string * A)) v : Dict.get k d = Some v -> Dict.mem k d = true.
Proof. unfold Dict.mem. by intros ->. Qed.

Lemma In_set {A} k (v : A) d k' v' :
  In (k', v') (Dict.set k v d) -> (k', v') = (k, v) \/ In (k', v') d.
Proof.
  induction d as [|[k0 v0] d IH]; cbn.
  - intros [H|[]]. by left.
  - destruct (String.eqb_spec k k0) as [->|Hne]; cbn.
    + intros [H|H]; [by left | by right; right].
    + intros [H|H]; [by right; left|]. destruct (IH H); [by left | by right; right].
Qed.

Lemma same_keys_refl st : same_keys st st.
Proof. intros aps H. by exists aps. Qed.

Lemma same_keys_trans st1 st2 st3 :
  same_keys st1 st2 -> same_keys st2 st3 -> same_keys st1 st3.
Proof.
  intros H12 H23 aps1 H1. destruct (H12 _ H1) as (aps2 & H2 & Hk2).
  destruct (H23 _ H2) as (aps3 & H3 & Hk3). exists aps3. split; [done | congruence].
Qed.

Lemma ingest_client_same_keys now k client_data st st' :
  ingest_client now k client_data st = Ok st' -> same_keys st st'.
Proof.
  intros H.
  destruct (ingest_client_Ok _ _ _ _ _ H)
    as [[_ ->]|(aps & d & clients & c & Hmem & Hap & Hclients & Hmac & Hne)].
  { apply same_keys_refl. }
  rewrite (ingest_client_eq _ _ _ _ _ _ _ _ Hmem Hap Hclients Hmac Hne) in H.
  assert (Hput : forall cv st1,
            memory st1 = with_client k c cv aps d clients -> same_keys st st1).
  { intros cv st1 Hst1 aps0 Hmem0. rewrite Hmem in Hmem0. injection Hmem0 as <-.
    eexists. split; [exact Hst1|]. apply keys_set_present. by eapply get_mem. }
  destruct (Dict.get c clients) as [[| | | | |cd]|]; try discriminate;
    injection H as <-; by eapply Hput.
Qed.

Lemma ingest_ap_clients_same_keys now k ap_data :
  preserves same_keys (ingest_ap_clients now k ap_data).
Proof.
  unfold ingest_ap_clients.
  eapply preserves_bind;
    [exact same_keys_trans | apply preserves_lift, same_keys_refl | intros v].
  eapply preserves_bind;
    [exact same_keys_trans | apply preserves_lift, same_keys_refl | intros clients].
  induction clients as [|client_data rest IH]; cbn [ingest_clients].
  - apply preserves_ret, same_keys_refl.
  - eapply preserves_bind; [exact same_keys_trans | | intros _; exact IH].
    apply preserves_atomic; [exact same_keys_refl|].
    intros st st'. apply ingest_client_same_keys.
Qed.

(** One iteration of the ingest loop that returns: the observation was
    passed over, or its entry branch and its client loop completed. *)
Lemma ingest_ap_Returns now ap_data n st n' st' :
  ingest_ap now ap_data n st = Returns n' st' ->
  mac_of ap_data = Ok "" /\ n' = n /\ st' = st \/
  exists k d st1 present,
    ap_data = PDict d /\ mac_of ap_data = Ok k /\ k <> "" /\
    py_in k (memory st) = Ok present /\
    ingest_entry now k (default (PStr "") (Dict.get "hostname" d))
      (default (PNum 0) (Dict.get "rssi" d)) (default (PNum 0) (Dict.get "channel" d))
      (default (PStr "") (Dict.get "encryption" d)) st = Ok st1 /\
    ingest_ap_clients now k ap_data st1 = Returns tt st' /\
    n' = if present then n else n + 1.
Proof.
  unfold ingest_ap. intros H.
  apply bind_Returns in H as (k & st0 & Hk & H). apply lift_Returns in Hk as [Hk ->].
  destruct (String.eqb_spec k "") as [->|Hne].
  { left. by injection H as <- <-. }
  right. destruct ap_data as [| | | | |d]; try discriminate.
  do 4 (apply bind_Returns in H as (? & ? & Hget & H);
        apply lift_Returns in Hget as [Hget ->]; cbn in Hget; injection Hget as <-).
  apply bind_Returns in H as (is_new & ? & Hnew & H).
  apply reads_Returns in Hnew as [Hnew ->].
  apply fmap_Ok in Hnew as (present & Hpresent & ->).
  apply bind_Returns in H as ([] & st1 & Hentry & H). apply atomic_Returns in Hentry.
  apply bind_Returns in H as ([] & st2 & Hclients & H). injection H as <- <-.
  exists k, d, st1, present. repeat split; try done. by destruct present.
Qed.

(** ** What the parts of the ingest touch *)

Lemma only_store_changes_refl st : only_store_changes st st.
Proof. by destruct st. Qed.

Lemma only_store_changes_trans st1 st2 st3 :
  only_store_changes st1 st2 -> only_store_changes st2 st3 -> only_store_changes st1 st3.
Proof. unfold only_store_changes. intros -> ->. by destruct st1. Qed.

Lemma ingest_entry_only_store now k ssid rssi channel encryption st st' :
  ingest_entry now k ssid rssi channel encryption st = Ok st' -> only_store_changes st st'.
Proof.
  intros H. destruct (ingest_entry_Ok _ _ _ _ _ _ _ _ H) as [aps Hmem].
  rewrite (ingest_entry_eq _ _ _ _ _ _ _ _ Hmem) in H.
  destruct (Dict.get k aps) as [[| | | | |d]|]; try discriminate;
    injection H as <-; by destruct st.
Qed.

Lemma ingest_client_only_store now k client_data st st' :
  ingest_client now k client_data st = Ok st' -> only_store_changes st st'.
Proof.
  intros H.
  destruct (ingest_client_Ok _ _ _ _ _ H)
    as [[_ ->]|(aps & d & clients & c & Hmem & Hap & Hclients & Hmac & Hne)].
  { apply only_store_changes_refl. }
  rewrite (ingest_client_eq _ _ _ _ _ _ _ _ Hmem Hap Hclients Hmac Hne) in H.
  destruct (Dict.get c clients) as [[| | | | |cd]|]; try discriminate;
    injection H as <-; by destruct st.
Qed.

Lemma ingest_aps_only_store now aps n : preserves only_store_changes (ingest_aps now aps n).
Proof.
  revert n. induction aps as [|ap_data rest IH]; intros n; cbn [ingest_aps].
  - apply preserves_ret, only_store_changes_refl.
  - eapply preserves_bind; [exact only_store_changes_trans | | intros n'; apply IH].
    unfold ingest_ap, ingest_ap_clients.
    repeat first
      [ apply preserves_atomic;
          [exact only_store_changes_refl | intros ? ?; apply ingest_entry_only_store]
      | match goal with
        | |- preserves _ (ingest_clients _ _ ?l) =>
            induction l; cbn [ingest_clients];
            [ apply preserves_ret, only_store_changes_refl
            | eapply preserves_bind;
                [ exact only_store_changes_trans
                | apply preserves_atomic;
                    [ exact only_store_changes_refl
                    | intros ? ?; apply ingest_client_only_store ]
                | intros _; assumption ] ]
        end
      | preserves_step only_store_changes_refl only_store_changes_trans ].
Qed.

Lemma only_auto_changes_refl st : only_auto_changes st st.
Proof. by repeat split. Qed.

Lemma only_auto_changes_trans st1 st2 st3 :
  only_auto_changes st1 st2 -> only_auto_changes st2 st3 -> only_auto_changes st1 st3.
Proof.
  unfold only_auto_changes. intros (?&?&?&?&?&?&?) (?&?&?&?&?&?&?).
  repeat split; congruence.
Qed.

Lemma _is_stationary_only_auto now : preserves only_auto_changes (_is_stationary now).
Proof. intros st. destruct (_is_stationary_frame now st) as [v ->]. by repeat split. Qed.

Lemma _auto_mode_logic_only_auto ts tm : preserves only_auto_changes (_auto_mode_logic ts tm).
Proof.
  unfold _auto_mode_logic.
  repeat first [ apply _is_stationary_only_auto
               | preserves_step only_auto_changes_refl only_auto_changes_trans ].
Qed.

(** The part of the [try] block that follows the activity update. *)
Lemma auto_switch_only_auto ts tm :
  preserves only_auto_changes
    (let! mode := gets mode in
     if String.eqb mode "auto" then
       let! new_submode := _auto_mode_logic ts tm in
       let! current := gets _current_auto_submode in
       if bool_decide (Some new_submode = current) then ret tt
       else
         modify (add_log (InfoAutoSwitch current new_submode));;;
         modify (set_current_auto_submode (Some new_submode))
     else ret tt).
Proof.
  repeat first [ apply _auto_mode_logic_only_auto
               | apply preserves_modify; intros ?; by repeat split
               | preserves_step only_auto_changes_refl only_auto_changes_trans ].
Qed.

(** ** The count of new access points *)

Lemma lower_ascii_idem a : lower_ascii (lower_ascii a) = lower_ascii a.
Proof. by destruct a as [[] [] [] [] [] [] [] []]. Qed.

Lemma lower_idem s : lower (lower s) = lower s.
Proof. induction s as [|a s IH]; cbn; [done|]. by rewrite lower_ascii_idem, IH. Qed.

Lemma mac_of_normal x k : mac_of x = Ok k -> normal_key k.
Proof.
  unfold mac_of. intros H. inv_ok. destruct a; try discriminate.
  cbn in H. injection H as <-. apply lower_idem.
Qed.

(** One iteration that returns appends at most the key of the
    observation, and counts it if it does. *)
Lemma ingest_ap_keys now ap_data n st n' st' aps :
  ingest_ap now ap_data n st = Returns n' st' ->
  memory st = PDict aps ->
  exists aps' new_keys,
    memory st' = PDict aps' /\
    Dict.keys aps' = Dict.keys aps ++ new_keys /\
    n' = n + Z.of_nat (List.length new_keys) /\
    Forall normal_key new_keys /\
    NoDup new_keys /\
    Forall (fun k => Dict.get k aps = None) new_keys.
Proof.
  intros H Hmem.
  apply ingest_ap_Returns in H
    as [(_ & -> & ->)|(k & d & st1 & present & -> & Hk & Hne & Hin & Hentry & Hclients & ->)].
  { exists aps, []. rewrite app_nil_r. cbn.
    split; [done|]. split; [done|]. split; [lia|]. repeat split; constructor. }
  rewrite Hmem in Hin. cbn in Hin. injection Hin as <-.
  rewrite (ingest_entry_eq _ _ _ _ _ _ _ _ Hmem) in Hentry.
  pose proof (preserves_Returns _ _ _ _ _ (ingest_ap_clients_same_keys now k (PDict d))
                Hclients) as Hsame.
  unfold Dict.mem. destruct (Dict.get k aps) as [ap|] eqn:Hget.
  - destruct ap as [| | | | |d0]; try discriminate. injection Hentry as <-.
    destruct (Hsame _ eq_refl) as (aps' & Hmem' & Hkeys).
    exists aps', []. rewrite app_nil_r. split; [done|]. split.
    + rewrite Hkeys. apply keys_set_present. by eapply get_mem.
    + cbn. split; [lia|]. repeat split; constructor.
  - injection Hentry as <-. destruct (Hsame _ eq_refl) as (aps' & Hmem' & Hkeys).
    exists aps', [k]. split; [done|]. split.
    + rewrite Hkeys. by apply keys_set_absent.
    + cbn. split; [lia|]. split; [|split].
      * repeat constructor. by eapply mac_of_normal.
      * apply NoDup_singleton.
      * by repeat constructor.
Qed.

Lemma get_None_keys {A} k (d : list (string * A)) :
  Dict.get k d = None <-> ~ In k (Dict.keys d).
Proof.
  unfold Dict.keys. induction d as [|[k' v] d IH]; cbn; [tauto|].
  destruct (String.eqb_spec k k') as [->|Hne].
  - split; [discriminate|]. intros H. destruct H. by left.
  - rewrite IH. intuition congruence.
Qed.

(** The loop over a batch that returns: the records it created are
    appended in the order of discovery, under lower-cased keys that are
    new and distinct, and the count is their number. *)
Lemma ingest_aps_keys now items n st n' st' aps :
  ingest_aps now items n st = Returns n' st' ->
  memory st = PDict aps ->
  exists aps' new_keys,
    memory st' = PDict aps' /\
    Dict.keys aps' = Dict.keys aps ++ new_keys /\
    n' = n + Z.of_nat (List.length new_keys) /\
    Forall normal_key new_keys /\
    NoDup new_keys /\
    Forall (fun k => Dict.get k aps = None) new_keys.
Proof.
  revert n st aps. induction items as [|ap_data rest IH]; intros n st aps; cbn [ingest_aps].
  - intros [= <- <-] Hmem. exists aps, []. rewrite app_nil_r. cbn.
    split; [done|]. split; [done|]. split; [lia|]. repeat split; constructor.
  - intros H Hmem. apply bind_Returns in H as (n1 & st1 & Hstep & Hrest).
    destruct (ingest_ap_keys _ _ _ _ _ _ _ Hstep Hmem)
      as (aps1 & new1 & Hmem1 & Hkeys1 & -> & Hnormal1 & Hnodup1 & Habsent1).
    destruct (IH _ _ _ Hrest Hmem1)
      as (aps' & new2 & Hmem' & Hkeys' & -> & Hnormal2 & Hnodup2 & Habsent2).
    assert (Hfresh : forall k, In k new2 -> Dict.get k aps = None /\ ~ In k new1).
    { intros k Hin. rewrite List.Forall_forall in Habsent2.
      specialize (Habsent2 k Hin). apply get_None_keys in Habsent2.
      rewrite Hkeys1, in_app_iff in Habsent2. split; [|tauto].
      apply get_None_keys. tauto. }
    exists aps', (new1 ++ new2). split; [done|]. split.
    { by rewrite Hkeys', Hkeys1, app_assoc. }
    split. { rewrite length_app, Nat2Z.inj_add. lia. }
    split. { by apply Forall_app. }
    split.
    + apply NoDup_app. split; [done|]. split; [|done].
      intros k Hk1 Hk2. apply list_elem_of_In in Hk1, Hk2.
      destruct (Hfresh k Hk2). tauto.
    + apply Forall_app. split; [done|]. apply List.Forall_forall.
      intros k Hin. by apply Hfresh.
Qed.

(** X3: when the [try] block of [on_unfiltered_ap_list] completes, the
    records the batch created are appended to the store in the order of
    discovery, under new, distinct, lower-cased keys, no key is removed
    or moved, and the sample added to the activity history is the number
    of records created. *)
Theorem batch_sample_counts_created t data st st' aps :
  process_ap_list t data st = Returns tt st' ->
  memory st = PDict aps ->
  exists aps' new_keys,
    memory st' = PDict aps' /\
    Dict.keys aps' = Dict.keys aps ++ new_keys /\
    Forall normal_key new_keys /\
    NoDup new_keys /\
    Forall (fun k => Dict.get k aps = None) new_keys /\
    _activity_history st' =
      _activity_history
        (_update_activity_history (Z.of_nat (List.length new_keys)) (t_history t) st).
Proof.
  unfold process_ap_list. intros H Hmem.
  apply bind_Returns in H as (wifi & ? & Hwifi & H). apply lift_Returns in Hwifi as [_ ->].
  apply bind_Returns in H as (v & ? & Hv & H). apply lift_Returns in Hv as [_ ->].
  apply bind_Returns in H as (items & ? & Hitems & H). apply lift_Returns in Hitems as [_ ->].
  apply bind_Returns in H as (n & st1 & Hingest & H).
  apply bind_Returns in H as ([] & st2 & Hupdate & Htail).
  injection Hupdate as <-.
  pose proof (preserves_Returns _ _ _ _ _ (ingest_aps_only_store _ _ _) Hingest) as Hframe.
  destruct (ingest_aps_keys _ _ _ _ _ _ _ Hingest Hmem)
    as (aps' & new_keys & Hmem1 & Hkeys & -> & Hnormal & Hnodup & Habsent).
  pose proof (preserves_Returns _ _ _ _ _
                (auto_switch_only_auto (t_stationary t) (t_moving t)) Htail)
    as (_ & Hmem2 & _ & _ & _ & Hhist2 & _).
  exists aps', new_keys. split; [by rewrite Hmem2|]. repeat split; try done.
  rewrite Hhist2, Hframe. cbn. reflexivity.
Qed.

Lemma batch_sample_counts_created_witness :
  let st := ingests [hd (at_time 0, PNone) two_batches] (fresh ∅) in
  let data := batch [observation "aa:bb" "" (-50) ["cc:dd"; "EE:FF"];
                     observation "11:22" "Net2" (-70) []] in
  let st' := final_state (process_ap_list (at_time 200) data st) in
  exists aps' new_keys,
    memory st' = PDict aps' /\
    Dict.keys aps' = ["aa:bb"] ++ new_keys /\
    _activity_history st' = [(100, 1); (200, Z.of_nat (List.length new_keys))].
Proof.
  intros st data st'.
  destruct (batch_sample_counts_created (at_time 200) data st st'
              [("aa:bb", default PNone (Dict.get "aa:bb"
                                          match memory st with PDict aps => aps | _ => [] end))])
    as (aps' & new_keys & Hmem & Hkeys & _ & _ & _ & Hhist).
  - vm_compute. reflexivity.
  - vm_compute. reflexivity.
  - exists aps', new_keys. split; [exact Hmem|]. split; [exact Hkeys|].
    rewrite Hhist. reflexivity.
Defined.

(** ** Normalised keys *)

Lemma keeps_keys_normal_refl st : keeps_keys_normal st st.
Proof. by intros H. Qed.

Lemma keeps_keys_normal_trans st1 st2 st3 :
  keeps_keys_normal st1 st2 -> keeps_keys_normal st2 st3 -> keeps_keys_normal st1 st3.
Proof. unfold keeps_keys_normal. auto. Qed.

Lemma preserves_bind_lift R {A B} (r : result A) (k : A -> M B) :
  (forall st, R st st) ->
  (forall a, r = Ok a -> preserves R (k a)) ->
  preserves R (bind (lift r) k).
Proof.
  intros Hrefl Hk st. unfold bind, lift. destruct r as [a|e]; cbn; [|apply Hrefl].
  by apply Hk.
Qed.

Lemma ingest_entry_keys_normal now k ssid rssi channel encryption st st' :
  normal_key k ->
  ingest_entry now k ssid rssi channel encryption st = Ok st' -> keeps_keys_normal st st'.
Proof.
  intros Hk H. destruct (ingest_entry_Ok _ _ _ _ _ _ _ _ H) as [aps Hmem].
  rewrite (ingest_entry_eq _ _ _ _ _ _ _ _ Hmem) in H.
  intros (aps0 & Hmem0 & Hnormal). rewrite Hmem in Hmem0. injection Hmem0 as <-.
  destruct (Dict.get k aps) as [ap|] eqn:Hget.
  - destruct ap as [| | | | |d]; try discriminate. injection H as <-.
    eexists. split; [reflexivity|]. intros ap_mac ap [[= -> ->]|Hin]%In_set; [|by apply Hnormal].
    split; [done|].
    destruct (updated_entry_stamps now ssid rssi d) as (_ & _ & ->).
    apply (Hnormal k (PDict d)). by apply DictFacts.get_In.
  - injection H as <-.
    eexists. split; [reflexivity|]. intros ap_mac ap [[= -> ->]|Hin]%In_set; [|by apply Hnormal].
    split; [done|]. intros clients [= <-] client_mac c [].
Qed.

Lemma ingest_client_keys_normal now k client_data st st' :
  ingest_client now k client_data st = Ok st' -> keeps_keys_normal st st'.
Proof.
  intros H.
  destruct (ingest_client_Ok _ _ _ _ _ H)
    as [[_ ->]|(aps & d & clients & c & Hmem & Hap & Hclients & Hmac & Hne)].
  { apply keeps_keys_normal_refl. }
  rewrite (ingest_client_eq _ _ _ _ _ _ _ _ Hmem Hap Hclients Hmac Hne) in H.
  intros (aps0 & Hmem0 & Hnormal). rewrite Hmem in Hmem0. injection Hmem0 as <-.
  assert (Hput : forall cv st1,
            memory st1 = with_client k c cv aps d clients -> keys_normal (memory st1)).
  { intros cv st1 ->. eexists. split; [reflexivity|].
    intros ap_mac ap [[= -> ->]|Hin]%In_set; [|by apply Hnormal].
    destruct (Hnormal k (PDict d)) as [Hk Hcl]; [by apply DictFacts.get_In|].
    split; [done|]. rewrite clients_of_set_clients. intros ? [= <-] client_mac c'.
    intros [[= -> ->]|Hin]%In_set; [by eapply mac_of_normal|].
    eapply Hcl; [|done]. unfold clients_of. by rewrite Hclients. }
  destruct (Dict.get c clients) as [[| | | | |cd]|]; try discriminate;
    injection H as <-; by eapply Hput.
Qed.

Lemma ingest_aps_keys_normal now items n :
  preserves keeps_keys_normal (ingest_aps now items n).
Proof.
  revert n. induction items as [|ap_data rest IH]; intros n; cbn [ingest_aps].
  - apply preserves_ret, keeps_keys_normal_refl.
  - eapply preserves_bind; [exact keeps_keys_normal_trans | | intros n'; apply IH].
    unfold ingest_ap. apply preserves_bind_lift; [exact keeps_keys_normal_refl|].
    intros k Hk. apply mac_of_normal in Hk. unfold ingest_ap_clients.
    repeat first
      [ apply preserves_atomic;
          [ exact keeps_keys_normal_refl
          | intros ? ?; by apply ingest_entry_keys_normal ]
      | match goal with
        | |- preserves _ (ingest_clients _ _ ?l) =>
            induction l; cbn [ingest_clients];
            [ apply preserves_ret, keeps_keys_normal_refl
            | eapply preserves_bind;
                [ exact keeps_keys_normal_trans
                | apply preserves_atomic;
                    [ exact keeps_keys_normal_refl
                    | intros ? ?; apply ingest_client_keys_normal ]
                | intros _; assumption ] ]
        end
      | preserves_step keeps_keys_normal_refl keeps_keys_normal_trans ].
Qed.

Lemma only_auto_changes_keys_normal st st' :
  only_auto_changes st st' -> keeps_keys_normal st st'.
Proof. intros (_ & Hmem & _) H. by rewrite Hmem. Qed.

Lemma on_unfiltered_ap_list_keys_normal t data st :
  keeps_keys_normal st (on_unfiltered_ap_list t data st).
Proof.
  unfold on_unfiltered_ap_list.
  destruct (ready st); cbn [negb]; [|apply keeps_keys_normal_refl].
  set (st0 := if 30 <? _ then _ else st).
  assert (H0 : memory st0 = memory st) by (unfold st0; by case_match).
  assert (H : preserves keeps_keys_normal (process_ap_list t data)).
  { unfold process_ap_list.
    do 3 (eapply preserves_bind;
          [ exact keeps_keys_normal_trans
          | apply preserves_lift, keeps_keys_normal_refl | intros ? ]).
    eapply preserves_bind;
      [exact keeps_keys_normal_trans | apply ingest_aps_keys_normal | intros n].
    eapply preserves_bind;
      [ exact keeps_keys_normal_trans
      | apply preserves_modify; intros ?; by intros ? | intros _ ].
    intros st1. apply only_auto_changes_keys_normal.
    apply (auto_switch_only_auto (t_stationary t) (t_moving t) st1). }
  specialize (H st0). intros Hnormal. rewrite <- H0 in Hnormal.
  destruct (process_ap_list t data st0); by apply H.
Qed.

(** ** More on the sweep *)

(** Every entry the second loop leaves stems from an entry under the same
    key, also when the loop ends in an exception. *)
Lemma sweep_clients_In now ttl ap_macs mem mem' err :
  sweep_clients now ttl ap_macs mem = (mem', err) ->
  forall k ap', In (k, ap') mem' -> exists ap, In (k, ap) mem /\ derived_from ap ap'.
Proof.
  revert mem. induction ap_macs as [|k0 rest IH]; intros mem; cbn.
  - intros [= <- <-] k ap' Hin. exists ap'. split; [done | by left].
  - destruct (Dict.get k0 mem) as [ap0|] eqn:E0; [|by apply IH].
    destruct (prune_clients now ttl ap0) as [ap1|e] eqn:Ep.
    + intros H k ap' Hin. destruct (IH _ H k ap' Hin) as (ap & Hap & Hder).
      apply In_set in Hap as [[= -> ->]|Hap]; [|eauto].
      exists ap0. split; [by apply DictFacts.get_In|].
      eapply derived_from_trans; [|done]. right.
      by apply prune_clients_spec in Ep as [? _].
    + intros [= <- <-] k ap' Hin. exists ap'. split; [done | by left].
Qed.

(** The outcomes of the sweep: it stops before it removes anything, or
    it removes the expired access points and runs the second loop. *)
Lemma sweep_outcome ap_ttl client_ttl now st :
  final_state (sweep ap_ttl client_ttl now st) = set_dirty true st \/
  exists aps expired aps' err,
    memory st = PDict aps /\
    expired_keys now ap_ttl aps = Ok expired /\
    sweep_clients now client_ttl (Dict.keys (del_keys expired aps)) (del_keys expired aps)
      = (aps', err) /\
    final_state (sweep ap_ttl client_ttl now st)
      = set_memory (PDict aps') (set_dirty true st).
Proof.
  unfold sweep, bind, modify, reads, lift, ret.
  change (memory (set_dirty true st)) with (memory st).
  destruct (memory st) as [| | | | |aps] eqn:Hmem; try (by left).
  cbn [py_items].
  destruct (expired_keys now ap_ttl aps) as [expired|e] eqn:Hexp; [|by left].
  destruct (sweep_clients now client_ttl _ _) as [aps' err] eqn:Es.
  right. exists aps, expired, aps', err. repeat split; try done. by destruct err.
Qed.

Lemma expired_keys_fresh now ttl items :
  (forall k v, In (k, v) items -> fresh_at now ttl v) ->
  expired_keys now ttl items = Ok [].
Proof.
  induction items as [|[k v] items IH]; intros H; [done|]. cbn.
  assert (Hv : is_expired now ttl v = Ok false).
  { apply is_expired_false. apply (H k). by left. }
  rewrite Hv. cbn. rewrite IH; [done|]. intros k' v' Hin. apply (H k'). by right.
Qed.

Lemma set_same {A} k (v : A) d : Dict.get k d = Some v -> Dict.set k v d = d.
Proof.
  induction d as [|[k' v'] d IH]; cbn; [discriminate|].
  destruct (String.eqb_spec k k') as [->|Hne].
  - by intros [= ->].
  - intros H. by rewrite IH.
Qed.

Lemma get_del {A} k k' (d : list (string * A)) :
  k <> k' -> Dict.get k' (Dict.del k d) = Dict.get k' d.
Proof.
  intros Hne. unfold Dict.del. induction d as [|[k0 v0] d IH]; cbn; [done|].
  destruct (String.eqb_spec k k0) as [->|Hne0]; cbn.
  - destruct (String.eqb_spec k' k0); [congruence | exact IH].
  - destruct (String.eqb_spec k' k0); [done | exact IH].
Qed.

Lemma get_del_keys {A} ks k (d : list (string * A)) :
  ~ In k ks -> Dict.get k (del_keys ks d) = Dict.get k d.
Proof.
  unfold del_keys. revert d. induction ks as [|k0 ks IH]; intros d Hk; cbn; [done|].
  cbn in Hk. rewrite IH by tauto.
  destruct (Dict.mem k0 d); [|done]. apply get_del. tauto.
Qed.

(** What pruning makes of a record: the record itself when it has no
    client mapping, and else the record with the expired clients removed
    from the mapping. *)
Lemma prune_clients_exact now ttl d ap1 :
  prune_clients now ttl (PDict d) = Ok ap1 ->
  Dict.get "clients" d = None /\ ap1 = PDict d \/
  exists clients expired d1,
    Dict.get "clients" d = Some (PDict clients) /\
    expired_keys now ttl clients = Ok expired /\
    ap1 = PDict d1 /\
    Dict.get "clients" d1 = Some (PDict (del_keys expired clients)) /\
    (forall field, field <> "clients" -> Dict.get field d1 = Dict.get field d).
Proof.
  unfold prune_clients. intros H. inv_ok. cbn in Ha. injection Ha as <-.
  destruct (Dict.get "clients" d) as [v|] eqn:Hc; cbn in Ha0.
  - destruct v as [| | | | |clients]; try discriminate. injection Ha0 as <-.
    destruct (del_clients_spec a1 d clients Hc) as (d1 & Hd1 & Hc1 & Hother).
    rewrite Hd1 in H. injection H as <-. right. by exists clients, a1, d1.
  - injection Ha0 as <-. cbn in Ha1. injection Ha1 as <-. cbn in H. injection H as <-.
    by left.
Qed.

(** Pruning a pruned record changes nothing. *)
Lemma prune_clients_idem now ttl ap ap1 :
  prune_clients now ttl ap = Ok ap1 -> prune_clients now ttl ap1 = Ok ap1.
Proof.
  intros H. destruct ap as [| | | | |d]; try discriminate.
  destruct (prune_clients_exact _ _ _ _ H)
    as [[_ ->]|(clients & expired & d1 & _ & Hexp & -> & Hc1 & _)]; [done|].
  unfold prune_clients. cbn. rewrite Hc1. cbn.
  rewrite expired_keys_fresh; [done|].
  intros k c [Hin Hkeep]%In_del_keys.
  destruct (expired_keys_spec _ _ _ _ Hexp) as [Hspec _].
  destruct (Hspec _ _ Hin) as ([] & Hb & Hks); [by destruct Hkeep; auto|].
  by apply is_expired_false.
Qed.

(** The second loop that completes: the record under each key is pruned
    once, whatever the number of times the key is visited. *)
Lemma sweep_clients_exact now ttl ap_macs mem mem' :
  sweep_clients now ttl ap_macs mem = (mem', None) ->
  Dict.keys mem' = Dict.keys mem /\
  forall k ap, Dict.get k mem = Some ap ->
    (In k ap_macs ->
       exists ap1, prune_clients now ttl ap = Ok ap1 /\ Dict.get k mem' = Some ap1) /\
    (~ In k ap_macs -> Dict.get k mem' = Some ap).
Proof.
  revert mem. induction ap_macs as [|k0 rest IH]; intros mem; cbn [sweep_clients].
  - intros [= <-]. split; [done|]. intros k ap Hget. split; [intros [] | done].
  - destruct (Dict.get k0 mem) as [ap0|] eqn:E0.
    + destruct (prune_clients now ttl ap0) as [ap1|e] eqn:Ep; [|discriminate].
      intros H. destruct (IH _ H) as [Hkeys IHget]. split.
      { rewrite Hkeys. apply keys_set_present. by eapply get_mem. }
      intros k ap Hget.
      destruct (String.eqb_spec k0 k) as [->|Hne].
      * rewrite E0 in Hget. injection Hget as <-.
        destruct (IHget k ap1 (DictFacts.get_set_eq _ _ _)) as [Hin Hnin].
        split; [|intros Hno; destruct Hno; by left].
        intros _. exists ap1. split; [done|].
        destruct (in_dec string_dec k rest) as [Hk|Hk]; [|by apply Hnin].
        destruct (Hin Hk) as (ap2 & Hp2 & Hget2).
        rewrite (prune_clients_idem _ _ _ _ Ep) in Hp2. by injection Hp2 as <-.
      * specialize (IHget k ap). rewrite DictFacts.get_set_ne in IHget by done.
        destruct (IHget Hget) as [Hin Hnin]. split.
        -- intros [?|Hk]; [done | by apply Hin].
        -- intros Hno. apply Hnin. intros Hk. apply Hno. by right.
    + intros H. destruct (IH _ H) as [Hkeys IHget]. split; [done|].
      intros k ap Hget. destruct (IHget k ap Hget) as [Hin Hnin]. split.
      * intros [->|Hk]; [congruence | by apply Hin].
      * intros Hno. apply Hnin. intros Hk. apply Hno. by right.
Qed.

(** The second loop on records that are pruned already does nothing. *)
Lemma sweep_clients_settled now ttl ap_macs mem :
  (forall k ap, In k ap_macs -> Dict.get k mem = Some ap -> prune_clients now ttl ap = Ok ap) ->
  sweep_clients now ttl ap_macs mem = (mem, None).
Proof.
  induction ap_macs as [|k0 rest IH]; intros H; cbn [sweep_clients]; [done|].
  destruct (Dict.get k0 mem) as [ap0|] eqn:E0.
  - rewrite (H k0 ap0) by (done || by left). rewrite set_same by done.
    apply IH. intros k ap Hin. apply H. by right.
  - apply IH. intros k ap Hin. apply H. by right.
Qed.

(** X4: a sweep that completes removes nothing more when it is repeated at
    the same time: the second sweep returns the very state the first one
    left. *)
Theorem sweep_idempotent now st st1 :
  _cleanup_memory now st = Returns tt st1 ->
  _cleanup_memory now st1 = Returns tt st1.
Proof.
  unfold _cleanup_memory, bind at 1, gets. intros H.
  apply sweep_Returns in H as (aps & expired & aps' & Hmem & Hexp & Hsweep & ->).
  destruct (expired_keys_spec _ _ _ _ Hexp) as [Hexp1 _].
  destruct (sweep_clients_exact _ _ _ _ _ Hsweep) as [Hkeys Hexact].
  assert (Hfresh : forall k ap', In (k, ap') aps' -> fresh_at now (ap_expiry (mode st)) ap').
  { intros k ap' Hin.
    destruct (sweep_clients_In _ _ _ _ _ _ Hsweep _ _ Hin) as (ap & Hap & Hder).
    apply In_del_keys in Hap as [Hap Hkeep].
    destruct (Hexp1 _ _ Hap) as ([] & Hb & Hks); [by destruct Hkeep; auto|].
    apply is_expired_false in Hb. unfold fresh_at.
    by rewrite (derived_from_age now ap ap'). }
  assert (Hsettled : forall k ap', In k (Dict.keys aps') -> Dict.get k aps' = Some ap' ->
            prune_clients now (client_expiry (mode st)) ap' = Ok ap').
  { intros k ap' Hin Hget. rewrite Hkeys in Hin.
    assert (Hsome : exists ap, Dict.get k (del_keys expired aps) = Some ap).
    { destruct (Dict.get k (del_keys expired aps)) eqn:E; [eauto|].
      by apply get_None_keys in E. }
    destruct Hsome as [ap Hap]. destruct (Hexact _ _ Hap) as [Hvisited _].
    destruct (Hvisited Hin) as (ap1 & Hp1 & Hget1).
    rewrite Hget in Hget1. injection Hget1 as <-. by eapply prune_clients_idem. }
  unfold sweep, bind, modify, reads, lift, ret. cbn [mode memory set_memory set_dirty py_items].
  rewrite (expired_keys_fresh _ _ _ Hfresh).
  change (del_keys [] aps') with aps'.
  rewrite (sweep_clients_settled _ _ _ _ Hsettled). by destruct st.
Qed.

Lemma sweep_idempotent_witness :
  _cleanup_memory 2000 drive_by_store_swept = Returns tt drive_by_store_swept.
Proof.
  apply (sweep_idempotent 2000 drive_by_store). vm_compute. reflexivity.
Defined.

(** X5: a sweep that completes keeps what is not expired.  A record under
    whose key no entry is older than the access-point lifetime is still
    stored under that key, with every field but the client mapping as it
    was; a client under whose key no entry is older than the client
    lifetime is still in the mapping of its record.  Nothing but the memory
    and the dirty flag is changed. *)
Theorem sweep_keeps_fresh now st st' aps ap_mac ap :
  _cleanup_memory now st = Returns tt st' ->
  memory st = PDict aps ->
  Dict.get ap_mac aps = Some ap ->
  (forall v, In (ap_mac, v) aps -> fresh_at now (ap_expiry (mode st)) v) ->
  st' = set_dirty true (set_memory (memory st') st) /\
  exists aps' ap',
    memory st' = PDict aps' /\
    Dict.get ap_mac aps' = Some ap' /\
    pruned_from ap ap' /\
    forall clients client_mac c,
      clients_of ap = Some clients ->
      In (client_mac, c) clients ->
      (forall v, In (client_mac, v) clients -> fresh_at now (client_expiry (mode st)) v) ->
      exists clients', clients_of ap' = Some clients' /\ In (client_mac, c) clients'.
Proof.
  unfold _cleanup_memory, bind at 1, gets. intros H Hmem Hget Hfresh.
  apply sweep_Returns in H as (aps0 & expired & aps' & Hmem0 & Hexp & Hsweep & ->).
  rewrite Hmem in Hmem0. injection Hmem0 as <-.
  split; [by destruct st|].
  destruct (expired_keys_spec _ _ _ _ Hexp) as [_ Hexp2].
  destruct (sweep_clients_exact _ _ _ _ _ Hsweep) as [_ Hexact].
  assert (Hkeep : ~ In ap_mac expired).
  { intros Hin. destruct (Hexp2 _ Hin) as (v & Hv & Hold).
    apply Hfresh, is_expired_false in Hv. congruence. }
  assert (Hget1 : Dict.get ap_mac (del_keys expired aps) = Some ap)
    by (by rewrite get_del_keys).
  destruct (Hexact _ _ Hget1) as [Hvisited _].
  destruct (Hvisited (mem_keys _ _ _ Hget1)) as (ap' & Hprune & Hget').
  exists aps', ap'. split; [done|]. split; [done|].
  pose proof (prune_clients_spec _ _ _ _ Hprune) as [Hpruned _]. split; [done|].
  intros clients client_mac c Hclients Hin Hcfresh.
  destruct ap as [| | | | |d]; try discriminate.
  destruct (prune_clients_exact _ _ _ _ Hprune)
    as [[Hnone _]|(clients0 & cexpired & d1 & Hc & Hcexp & -> & Hc1 & _)].
  { unfold clients_of in Hclients. by rewrite Hnone in Hclients. }
  unfold clients_of in Hclients. rewrite Hc in Hclients. injection Hclients as <-.
  exists (del_keys cexpired clients0). split; [unfold clients_of; by rewrite Hc1|].
  apply In_del_keys. split; [done|]. intros Hbad.
  destruct (expired_keys_spec _ _ _ _ Hcexp) as [_ Hcexp2].
  destruct (Hcexp2 _ Hbad) as (v & Hv & Hold).
  apply Hcfresh, is_expired_false in Hv. congruence.
Qed.

Lemma sweep_keeps_fresh_witness :
  exists aps' ap' clients',
    memory drive_by_store_swept = PDict aps' /\
    Dict.get "aa:02" aps' = Some ap' /\
    clients_of ap' = Some clients' /\
    In ("c0:03", new_client_record 1900) clients'.
Proof.
  destruct (sweep_keeps_fresh 2000 drive_by_store drive_by_store_swept
              [("aa:01", PDict [("ssid", PStr "Old"); ("first_seen", PNum 50);
                                ("last_seen", PNum 100);
                                ("clients", PDict [("c0:01", new_client_record 100)])]);
               ("aa:02", PDict [("ssid", PStr "Near"); ("first_seen", PNum 900);
                                ("last_seen", PNum 1900);
                                ("clients", PDict [("c0:02", new_client_record 1000);
                                                   ("c0:03", new_client_record 1900)])])]
              "aa:02"
              (PDict [("ssid", PStr "Near"); ("first_seen", PNum 900);
                      ("last_seen", PNum 1900);
                      ("clients", PDict [("c0:02", new_client_record 1000);
                                         ("c0:03", new_client_record 1900)])]))
    as (_ & aps' & ap' & Hmem & Hget & _ & Hclients).
  - vm_compute. reflexivity.
  - reflexivity.
  - reflexivity.
  - intros v [H|[H|[]]]; [discriminate H|]. injection H as <-.
    exists 100. split; [reflexivity | vm_compute; discriminate].
  - destruct (Hclients [("c0:02", new_client_record 1000); ("c0:03", new_client_record 1900)]
                "c0:03" (new_client_record 1900))
      as (clients' & Hc & Hin).
    + reflexivity.
    + right. left. reflexivity.
    + intros v [H|[H|[]]]; [discriminate H|]. injection H as <-.
      exists 100. split; [reflexivity | vm_compute; discriminate].
    + exists aps', ap', clients'. split; [exact Hmem|]. split; [exact Hget|].
      split; [exact Hc | exact Hin].
Defined.

(** ** Lifetimes of the sweep *)

(** The sweep reads the mode and the memory, and nothing of the selected
    sub-mode. *)
Lemma _cleanup_memory_submode now submode st :
  _cleanup_memory now (set_current_auto_submode submode st) =
    match _cleanup_memory now st with
    | Returns u st' => Returns u (set_current_auto_submode submode st')
    | Raises e st' => Raises e (set_current_auto_submode submode st')
    end.
Proof.
  unfold _cleanup_memory, sweep, bind, gets, modify, reads, lift, ret.
  cbn [mode memory set_current_auto_submode set_dirty].
  destruct (py_items (memory st)) as [items|e]; [|done].
  destruct (expired_keys now (ap_expiry (mode st)) items) as [expired|e]; [|done].
  by destruct (sweep_clients now (client_expiry (mode st)) _ _) as [mem' [e|]].
Qed.

Lemma get_del_keys_In {A} ks k (d : list (string * A)) :
  In k ks -> Dict.get k (del_keys ks d) = None.
Proof.
  intros Hin. destruct (Dict.get k (del_keys ks d)) as [v|] eqn:Hget; [|done].
  apply DictFacts.get_In, In_del_keys in Hget as [_ Hkeep]. by destruct Hkeep.
Qed.

(** C2: the lifetimes [_cleanup_memory] sweeps with are decided by the
    top-level mode alone.  When the mode is the string [drive-by], a sweep
    that completes removes every access point older than 1800 s and keeps
    those that are not, and in a kept record removes every client older
    than 900 s and keeps those that are not; with any other mode the two
    bounds are 172800 s and 86400 s.  The selected sub-mode of [auto] plays
    no part: the sweep does the same whatever it is, also when it is
    [drive-by]. *)
Theorem cleanup_ttl_by_literal_mode now st st' aps :
  _cleanup_memory now st = Returns tt st' ->
  memory st = PDict aps ->
  let ap_ttl := if String.eqb (mode st) "drive-by" then 1800 else 172800 in
  let client_ttl := if String.eqb (mode st) "drive-by" then 900 else 86400 in
  exists aps',
    memory st' = PDict aps' /\
    (forall ap_mac ap a,
       In (ap_mac, ap) aps -> age now ap = Ok a -> ap_ttl < a ->
       Dict.get ap_mac aps' = None) /\
    (forall ap_mac ap,
       Dict.get ap_mac aps = Some ap ->
       (forall v, In (ap_mac, v) aps -> fresh_at now ap_ttl v) ->
       exists ap',
         Dict.get ap_mac aps' = Some ap' /\
         forall clients, clients_of ap = Some clients ->
           exists clients',
             clients_of ap' = Some clients' /\
             (forall client_mac c a,
                In (client_mac, c) clients -> age now c = Ok a -> client_ttl < a ->
                Dict.get client_mac clients' = None) /\
             (forall client_mac c,
                In (client_mac, c) clients ->
                (forall v, In (client_mac, v) clients -> fresh_at now client_ttl v) ->
                In (client_mac, c) clients')) /\
    (forall submode,
       _cleanup_memory now (set_current_auto_submode submode st)
       = Returns tt (set_current_auto_submode submode st')).
Proof.
  intros H Hmem ap_ttl client_ttl.
  assert (Hap_ttl : ap_expiry (mode st) = ap_ttl).
  { unfold ap_expiry, ap_ttl. by destruct (String.eqb (mode st) "drive-by"). }
  assert (Hclient_ttl : client_expiry (mode st) = client_ttl).
  { unfold client_expiry, client_ttl. by destruct (String.eqb (mode st) "drive-by"). }
  assert (Hsub : forall submode,
            _cleanup_memory now (set_current_auto_submode submode st)
            = Returns tt (set_current_auto_submode submode st')).
  { intros submode. by rewrite _cleanup_memory_submode, H. }
  clearbody ap_ttl client_ttl.
  unfold _cleanup_memory, bind at 1, gets in H. rewrite Hap_ttl, Hclient_ttl in H.
  apply sweep_Returns in H as (aps0 & expired & aps' & Hmem0 & Hexp & Hsweep & ->).
  rewrite Hmem in Hmem0. injection Hmem0 as <-.
  exists aps'. split; [done|].
  destruct (expired_keys_spec _ _ _ _ Hexp) as [Hexp1 Hexp2].
  destruct (sweep_clients_exact _ _ _ _ _ Hsweep) as [_ Hexact].
  destruct (sweep_clients_spec _ _ _ _ _ _ Hsweep) as [Hstem _].
  split; [|split; [|done]].
  - intros ap_mac ap a Hin Hage Hold.
    destruct (Dict.get ap_mac aps') as [ap'|] eqn:Hget; [|done].
    destruct (Hstem _ _ Hget) as (ap0 & Hap0 & _).
    apply DictFacts.get_In, In_del_keys in Hap0 as [_ Hkeep].
    destruct Hkeep. destruct (Hexp1 _ _ Hin) as (b & Hb & Hks). apply Hks.
    apply is_expired_Ok in Hb as (a' & Ha' & ->). rewrite Hage in Ha'.
    injection Ha' as <-. by apply Z.ltb_lt.
  - intros ap_mac ap Hget Hfresh.
    assert (Hkeep : ~ In ap_mac expired).
    { intros Hin. destruct (Hexp2 _ Hin) as (v & Hv & Hold).
      apply Hfresh, is_expired_false in Hv. congruence. }
    assert (Hget1 : Dict.get ap_mac (del_keys expired aps) = Some ap)
      by (by rewrite get_del_keys).
    destruct (Hexact _ _ Hget1) as [Hvisited _].
    destruct (Hvisited (mem_keys _ _ _ Hget1)) as (ap' & Hprune & Hget').
    exists ap'. split; [done|].
    intros clients Hclients.
    destruct ap as [| | | | |d]; try discriminate.
    destruct (prune_clients_exact _ _ _ _ Hprune)
      as [[Hnone _]|(clients0 & cexpired & d1 & Hc & Hcexp & -> & Hc1 & _)].
    { unfold clients_of in Hclients. by rewrite Hnone in Hclients. }
    unfold clients_of in Hclients. rewrite Hc in Hclients. injection Hclients as <-.
    destruct (expired_keys_spec _ _ _ _ Hcexp) as [Hcexp1 Hcexp2].
    exists (del_keys cexpired clients0). split; [unfold clients_of; by rewrite Hc1|].
    split.
    + intros client_mac c a Hin Hage Hold. apply get_del_keys_In.
      destruct (Hcexp1 _ _ Hin) as (b & Hb & Hks). apply Hks.
      apply is_expired_Ok in Hb as (a' & Ha' & ->). rewrite Hage in Ha'.
      injection Ha' as <-. by apply Z.ltb_lt.
    + intros client_mac c Hin Hcfresh.
      apply In_del_keys. split; [done|]. intros Hbad.
      destruct (Hcexp2 _ Hbad) as (v & Hv & Hold).
      apply Hcfresh, is_expired_false in Hv. congruence.
Qed.

(** In [auto] mode with the sub-mode [drive-by], an access point seen
    1900 s ago and a client seen 1000 s ago are kept; in [drive-by] mode
    the sweep of the same store at the same time removes both. *)
Lemma cleanup_ttl_by_literal_mode_witness :
  (exists st' aps' ap' clients',
     _cleanup_memory 2000 auto_store_driving = Returns tt st' /\
     memory st' = PDict aps' /\
     Dict.mem "aa:01" aps' = true /\
     Dict.get "aa:02" aps' = Some ap' /\
     clients_of ap' = Some clients' /\
     In ("c0:02", new_client_record 1000) clients') /\
  (exists aps' ap' clients',
     memory drive_by_store_swept = PDict aps' /\
     Dict.get "aa:01" aps' = None /\
     Dict.get "aa:02" aps' = Some ap' /\
     clients_of ap' = Some clients' /\
     Dict.get "c0:02" clients' = None).
Proof.
  set (near := PDict [("ssid", PStr "Near"); ("first_seen", PNum 900);
                      ("last_seen", PNum 1900);
                      ("clients", PDict [("c0:02", new_client_record 1000);
                                         ("c0:03", new_client_record 1900)])]).
  set (old := PDict [("ssid", PStr "Old"); ("first_seen", PNum 50);
                     ("last_seen", PNum 100);
                     ("clients", PDict [("c0:01", new_client_record 100)])]).
  split.
  - assert (Hrun : _cleanup_memory 2000 auto_store_driving
                   = Returns tt (final_state (_cleanup_memory 2000 auto_store_driving)))
      by (vm_compute; reflexivity).
    destruct (cleanup_ttl_by_literal_mode 2000 auto_store_driving _
                [("aa:01", old); ("aa:02", near)] Hrun eq_refl)
      as (aps' & Hmem & _ & Hkept & _).
    destruct (Hkept "aa:01" old eq_refl) as (old' & Hold' & _).
    { intros v [E|[E|[]]]; [|discriminate E]. injection E as <-.
      exists 1900. split; [reflexivity | vm_compute; discriminate]. }
    destruct (Hkept "aa:02" near eq_refl) as (near' & Hnear' & Hclients).
    { intros v [E|[E|[]]]; [discriminate E|]. injection E as <-.
      exists 100. split; [reflexivity | vm_compute; discriminate]. }
    destruct (Hclients _ eq_refl) as (clients' & Hc' & _ & Hin).
    exists (final_state (_cleanup_memory 2000 auto_store_driving)), aps', near', clients'.
    split; [exact Hrun|]. split; [exact Hmem|].
    split; [unfold Dict.mem; by rewrite Hold'|]. split; [exact Hnear'|].
    split; [exact Hc'|].
    apply (Hin "c0:02" (new_client_record 1000)); [by left|].
    intros v [E|[E|[]]]; [|discriminate E]. injection E as <-.
    exists 1000. split; [reflexivity | vm_compute; discriminate].
  - assert (Hrun : _cleanup_memory 2000 drive_by_store = Returns tt drive_by_store_swept)
      by (vm_compute; reflexivity).
    destruct (cleanup_ttl_by_literal_mode 2000 drive_by_store _
                [("aa:01", old); ("aa:02", near)] Hrun eq_refl)
      as (aps' & Hmem & Hevict & Hkept & _).
    destruct (Hkept "aa:02" near eq_refl) as (near' & Hnear' & Hclients).
    { intros v [E|[E|[]]]; [discriminate E|]. injection E as <-.
      exists 100. split; [reflexivity | vm_compute; discriminate]. }
    destruct (Hclients _ eq_refl) as (clients' & Hc' & Hgone & _).
    exists aps', near', clients'.
    split; [exact Hmem|].
    split; [apply (Hevict "aa:01" old 1900); [by left | reflexivity | reflexivity]|].
    split; [exact Hnear'|]. split; [exact Hc'|].
    apply (Hgone "c0:02" (new_client_record 1000) 1000);
      [by left | reflexivity | reflexivity].
Defined.

Lemma _cleanup_memory_keys_normal now st :
  keeps_keys_normal st (final_state (_cleanup_memory now st)).
Proof.
  unfold _cleanup_memory, bind at 1, gets.
  destruct (sweep_outcome (ap_expiry (mode st)) (client_expiry (mode st)) now st)
    as [->|(aps & expired & aps' & err & Hmem & _ & Hsweep & ->)]; [by intros H|].
  intros (aps0 & Hmem0 & Hnormal). rewrite Hmem in Hmem0. injection Hmem0 as <-.
  exists aps'. split; [done|]. intros k ap' Hin.
  destruct (sweep_clients_In _ _ _ _ _ _ Hsweep _ _ Hin) as (ap & Hap & Hder).
  apply In_del_keys in Hap as [Hap _]. destruct (Hnormal _ _ Hap) as [Hk Hclients].
  split; [done|]. destruct Hder as [->|(d & d' & -> & -> & _ & Hsub)]; [done|].
  intros clients' Hc' client_mac c Hc. destruct (Hsub _ Hc') as (clients & Hcl & Hincl).
  eapply Hclients; eauto.
Qed.

(** X6: the keys of the store are lower-cased identifiers, and so are the
    keys of every client mapping: the ingest of a batch and the sweep keep
    this, whatever they are given and whether or not they end in an
    exception, and so it holds after any batches a new plugin has
    ingested. *)
Theorem keys_stay_normal :
  (forall t data st,
     keys_normal (memory st) -> keys_normal (memory (on_unfiltered_ap_list t data st))) /\
  (forall now st,
     keys_normal (memory st) -> keys_normal (memory (final_state (_cleanup_memory now st)))) /\
  (forall whitelist batches, keys_normal (memory (ingests batches (fresh whitelist)))).
Proof.
  split; [exact on_unfiltered_ap_list_keys_normal|].
  split; [exact _cleanup_memory_keys_normal|].
  intros whitelist batches.
  assert (H : forall st, keys_normal (memory st) -> keys_normal (memory (ingests batches st))).
  { unfold ingests. induction batches as [|[t data] rest IH]; intros st Hst; [done|].
    cbn. apply IH. by apply on_unfiltered_ap_list_keys_normal. }
  apply H. exists []. split; [done|]. intros ap_mac ap [].
Qed.

Lemma keys_stay_normal_witness :
  keys_normal (memory (on_unfiltered_ap_list (at_time 300)
                         (batch [observation "DE:AD:BE:EF" "Net3" (-60) ["0A:0B"]])
                         (ingests two_batches (fresh ∅)))).
Proof.
  destruct keys_stay_normal as (Hingest & _ & Hrun).
  apply Hingest. apply Hrun.
Defined.

(** ** Malformed observations *)

Lemma ingest_aps_app now before after n st :
  ingest_aps now (before ++ after) n st
  = bind (ingest_aps now before n) (fun n' => ingest_aps now after n') st.
Proof.
  revert n st. induction before as [|ap_data rest IH]; intros n st; cbn [ingest_aps app].
  - done.
  - unfold bind in *. destruct (ingest_ap now ap_data n st) as [n1 st1|e st1]; [|done].
    apply IH.
Qed.

Lemma mac_of_Raise x e : mac_of x = Raise e -> e = AttributeError.
Proof.
  unfold mac_of. destruct x as [| | | | |d]; cbn; try (by intros [= <-]).
  destruct (default (PStr "") (Dict.get "mac" d)); cbn; by intros [= <-].
Qed.

(** X7: an observation that is not a dictionary, or whose identifier is
    not a string, ends the batch: [on_unfiltered_ap_list] keeps what the
    observations before it did to the store, never looks at the
    observations after it, records no activity sample, selects no
    sub-mode, and logs the [AttributeError]. *)
Theorem malformed_observation_ends_batch t d wifi before bad after st n st1 e :
  ready st = true ->
  Dict.get "wifi" d = Some (PDict wifi) ->
  Dict.get "aps" wifi = Some (PList (before ++ bad :: after)) ->
  mac_of bad = Raise e ->
  ingest_aps (t_now t) before 0 (check_activity_time t st) = Returns n st1 ->
  e = AttributeError /\
  on_unfiltered_ap_list t (PDict d) st = add_log (ErrProcessingApList e) st1 /\
  _activity_history (on_unfiltered_ap_list t (PDict d) st) = _activity_history st /\
  _current_auto_submode (on_unfiltered_ap_list t (PDict d) st) = _current_auto_submode st.
Proof.
  intros Hready Hwifi Haps Hbad Hbefore. split; [by eapply mac_of_Raise|].
  assert (Hrun : on_unfiltered_ap_list t (PDict d) st = add_log (ErrProcessingApList e) st1).
  { unfold on_unfiltered_ap_list. rewrite Hready. cbn [negb].
    fold (check_activity_time t st).
    unfold process_ap_list. unfold bind at 1 2 3 4. unfold lift, py_get.
    rewrite Hwifi. cbn [default from_option id]. rewrite Haps. cbn [default from_option id py_iter].
    rewrite ingest_aps_app. unfold bind at 1. rewrite Hbefore.
    cbn [ingest_aps]. unfold bind at 1. unfold ingest_ap. unfold bind at 1.
    unfold lift. by rewrite Hbad. }
  split; [done|]. rewrite Hrun.
  pose proof (preserves_Returns _ _ _ _ _ (ingest_aps_only_store _ _ _) Hbefore) as ->.
  split.
  - unfold check_activity_time. by case_match.
  - unfold check_activity_time. by case_match.
Qed.

Lemma malformed_observation_ends_batch_witness :
  let data := batch [observation "AA:01" "First" (-40) [];
                     PDict [("mac", PNone); ("hostname", PStr "Broken")];
                     observation "AA:03" "Third" (-40) []] in
  let st' := on_unfiltered_ap_list (at_time 100) data (fresh ∅) in
  exists aps,
    memory st' = PDict aps /\ Dict.keys aps = ["aa:01"] /\
    log st' = [ErrProcessingApList AttributeError] /\
    _activity_history st' = [].
Proof.
  intros data st'.
  destruct (malformed_observation_ends_batch (at_time 100)
              [("wifi", PDict [("aps",
                  PList [observation "AA:01" "First" (-40) [];
                         PDict [("mac", PNone); ("hostname", PStr "Broken")];
                         observation "AA:03" "Third" (-40) []])])]
              [("aps", PList [observation "AA:01" "First" (-40) [];
                              PDict [("mac", PNone); ("hostname", PStr "Broken")];
                              observation "AA:03" "Third" (-40) []])]
              [observation "AA:01" "First" (-40) []]
              (PDict [("mac", PNone); ("hostname", PStr "Broken")])
              [observation "AA:03" "Third" (-40) []]
              (fresh ∅) 1
              (final_state (ingest_aps 100 [observation "AA:01" "First" (-40) []] 0
                              (check_activity_time (at_time 100) (fresh ∅))))
              AttributeError eq_refl eq_refl eq_refl eq_refl)
    as (_ & Hrun & Hhist & _).
  - vm_compute. reflexivity.
  - eexists. split; [|split; [|split]].
    + unfold st', data, batch. rewrite Hrun. vm_compute. reflexivity.
    + reflexivity.
    + unfold st', data, batch. rewrite Hrun. reflexivity.
    + exact Hhist.
Defined.

(** ** Home-presence detector *)

Lemma home_scan_spec wl items :
  Forall (fun kv => record_with_name (snd kv)) items ->
  exists b, home_scan wl items = Ok b /\
    (b = true <-> exists k ap, In (k, ap) items /\ is_home wl k ap).
Proof.
  induction 1 as [|[k ap] items (d & s & Hap & Hs) _ (b & IHb & IHiff)]; cbn [home_scan].
  - exists false. split; [done|]. split; [discriminate|]. by intros (? & ? & [] & _).
  - cbn in Hap. subst ap. cbn. rewrite Hs. cbn.
    destruct (bool_decide_reflect (s ∈ wl)) as [Hin|Hnin]; cbn.
    { exists true. split; [done|]. split; [|done]. intros _.
      exists k, (PDict d). split; [by left|]. right. by exists d, s. }
    destruct (bool_decide_reflect (k ∈ wl)) as [Hkin|Hknin]; cbn.
    { exists true. split; [done|]. split; [|done]. intros _.
      exists k, (PDict d). split; [by left | by left]. }
    exists b. split; [done|]. rewrite IHiff. split.
    + intros (k' & ap' & Hin' & Hhome). exists k', ap'. split; [by right | done].
    + intros (k' & ap' & [[= <- <-]|Hin'] & Hhome); [|by exists k', ap'].
      destruct Hhome as [?|(d' & s' & [= <-] & Hs' & ?)]; [done|].
      rewrite Hs in Hs'. by injection Hs' as <-.
Qed.

(** X8: [_home_ssid_visible] takes the length of the memory first: a
    memory that has none ([None], a truth value or a number) raises
    [TypeError], whatever the whitelist.  With an empty whitelist it
    answers false for every memory that has a length, without looking
    into it.  On a store whose records have string names it answers true
    exactly when some record is on the whitelist by its key or by its
    name, compared letter for letter. *)
Theorem home_visible_iff :
  (forall st e, py_len (memory st) = Raise e ->
     e = TypeError /\ _home_ssid_visible st = Raise TypeError) /\
  (forall st n, py_len (memory st) = Ok n -> home_whitelist st = ∅ ->
     _home_ssid_visible st = Ok false) /\
  (forall st aps,
     memory st = PDict aps ->
     Forall (fun kv => record_with_name (snd kv)) aps ->
     exists b, _home_ssid_visible st = Ok b /\
       (b = true <-> exists k ap, In (k, ap) aps /\ is_home (home_whitelist st) k ap)).
Proof.
  split; [|split].
  - intros st e Hlen. unfold _home_ssid_visible.
    destruct (memory st); cbn in *; try discriminate; by injection Hlen as <-.
  - intros st n Hlen Hempty. unfold _home_ssid_visible. rewrite Hlen. cbn.
    by rewrite bool_decide_true.
  - intros st aps Hmem Hnamed. unfold _home_ssid_visible. rewrite Hmem. cbn.
    destruct (bool_decide_reflect (home_whitelist st = ∅)) as [Hempty|_].
    + exists false. split; [done|]. split; [discriminate|].
      rewrite Hempty. intros (k & ap & _ & [Hk|(d & s & _ & _ & Hs)]); set_solver.
    + by apply home_scan_spec.
Qed.

Lemma home_visible_iff_witness :
  _home_ssid_visible at_home_and_moving = Ok true /\
  _home_ssid_visible (set_memory (PList [PStr "11:22"]) (fresh ∅)) = Ok false /\
  _home_ssid_visible (set_memory PNone (fresh ∅)) = Raise TypeError.
Proof.
  destruct home_visible_iff as (Hnone & Hempty & Hiff). split; [|split].
  - destruct (Hiff at_home_and_moving
                [("11:22", new_ap_record (PStr "HomeNet") (PNum (-40)) (PNum 6)
                             (PStr "WPA2") 200)] eq_refl)
      as (b & Hb & Htrue).
    + repeat constructor. eexists _, "HomeNet". split; reflexivity.
    + rewrite Hb. f_equal. apply Htrue.
      eexists "11:22", _. split; [left; reflexivity|].
      right. eexists _, "HomeNet". split; [reflexivity|]. split; [reflexivity|].
      vm_compute. reflexivity.
  - apply (Hempty _ 1); reflexivity.
  - apply (Hnone _ TypeError). reflexivity.
Defined.

(** ** Status display *)

Lemma only_timer_changes_refl st : only_timer_changes st st.
Proof. exists (_stationary_start st). by rewrite set_stationary_start_same. Qed.

Lemma only_timer_changes_trans st1 st2 st3 :
  only_timer_changes st1 st2 -> only_timer_changes st2 st3 -> only_timer_changes st1 st3.
Proof. intros [v ->] [w ->]. by exists w. Qed.

Lemma _is_stationary_only_timer now : preserves only_timer_changes (_is_stationary now).
Proof. intros st. apply _is_stationary_frame. Qed.

Lemma render_status_only_timer tm ts : preserves only_timer_changes (render_status tm ts).
Proof.
  unfold render_status, activity_indicator.
  repeat first [ apply _is_stationary_only_timer
               | preserves_step only_timer_changes_refl only_timer_changes_trans ].
Qed.

(** X9: [on_ui_update] changes nothing of the plugin but the stationary
    timer, which its call of [_is_stationary] may start or reset; while the
    device is moving it changes nothing at all, and a plugin that is not
    ready leaves the display as it is. *)
Theorem ui_update_touches_only_timer tm ts shown st :
  let '(st', shown', err) := on_ui_update tm ts shown st in
  only_timer_changes st st' /\
  (_is_moving tm st = true -> st' = st) /\
  (ready st = false -> shown' = shown /\ err = None).
Proof.
  unfold on_ui_update. destruct (ready st); cbn [negb].
  2: { split; [apply only_timer_changes_refl|]. by split. }
  pose proof (render_status_only_timer tm ts st) as Hframe.
  assert (Hmoving : _is_moving tm st = true ->
            final_state (render_status tm ts st) = st).
  { intros Hm. unfold render_status, activity_indicator, bind, gets, reads, lift, ret.
    destruct (py_len (memory st)); [|done].
    destruct (py_values (memory st)) as [aps|]; [|done].
    destruct (count_clients aps); [|done]. by rewrite Hm. }
  destruct (render_status tm ts st) as [text st'|e st']; cbn in *; by repeat split.
Qed.

Lemma ui_update_touches_only_timer_witness :
  fst (fst (on_ui_update 200 200 None at_home_and_moving)) = at_home_and_moving.
Proof.
  pose proof (ui_update_touches_only_timer 200 200 None at_home_and_moving) as H.
  destruct (on_ui_update 200 200 None at_home_and_moving) as [[st' shown'] err].
  destruct H as (_ & Hmoving & _). exact (Hmoving eq_refl).
Defined.

Lemma count_clients_shaped aps :
  Forall record_shaped aps -> count_clients aps = Ok (client_total aps).
Proof.
  induction 1 as [|ap aps (d & -> & Hc) _ IH]; [done|].
  cbn [count_clients client_total fold_right]. fold (client_total aps). rewrite IH.
  unfold clients_of. cbn.
  destruct Hc as [->|[clients ->]]; cbn; [done|]. done.
Qed.

(** X10: on a store of well-shaped records, when the choice of the glyph
    completes, [on_ui_update] sets the display to the status line with the
    mode as displayed, the number of records of the store, the number of
    clients over all records, and the glyph. *)
Theorem status_line_counts tm ts shown st aps glyph st' :
  ready st = true ->
  memory st = PDict aps ->
  Forall record_shaped (List.map snd aps) ->
  activity_indicator tm ts st = Returns glyph st' ->
  on_ui_update tm ts shown st =
    (st',
     Some (status_text (mode_display st) (Z.of_nat (List.length aps))
             (client_total (List.map snd aps)) glyph),
     None).
Proof.
  intros Hready Hmem Hshaped Hglyph. unfold on_ui_update. rewrite Hready. cbn [negb].
  unfold render_status, bind, gets, reads, ret. cbv beta. rewrite Hmem.
  cbn [py_len lift]. rewrite Hmem. cbn [py_values lift].
  rewrite (count_clients_shaped _ Hshaped). cbn [lift]. by rewrite Hglyph.
Qed.

Lemma status_line_counts_witness :
  on_ui_update 2000 2000 None (set_mode "auto" (set_current_auto_submode (Some "loose")
                                                  drive_by_store))
  = (set_stationary_start (PNum 2000)
       (set_mode "auto" (set_current_auto_submode (Some "loose") drive_by_store)),
     Some "SATpwn:auto(loose) APs:2 Clients:3 ", None).
Proof.
  apply (status_line_counts 2000 2000 None
           (set_mode "auto" (set_current_auto_submode (Some "loose") drive_by_store))
           match memory drive_by_store with PDict aps => aps | _ => [] end "").
  - reflexivity.
  - reflexivity.
  - repeat constructor; eexists; (split; [reflexivity|]); right; eexists; reflexivity.
  - vm_compute. reflexivity.
Defined.

(** X11: the glyph follows the order moving, stationary, home, while the
    sub-mode of [auto] follows the order home, stationary, moving: with a
    home network in sight and the device moving, the display shows the
    moving glyph and the sub-mode selected is [recon]. *)
Theorem glyph_and_submode_disagree tm ts st stat st1 :
  _home_ssid_visible st = Ok true ->
  _is_moving tm st = true ->
  _is_stationary ts st = Returns stat st1 ->
  activity_indicator tm ts st = Returns glyph_moving st /\
  _auto_mode_logic ts tm st = Returns "recon" st1.
Proof.
  intros Hhome Hmoving Hstat. split.
  - unfold activity_indicator, bind, gets, ret. by rewrite Hmoving.
  - by rewrite (_auto_mode_logic_unfold ts tm st true stat st1 Hhome Hstat).
Qed.

Lemma glyph_and_submode_disagree_witness :
  activity_indicator 200 200 at_home_and_moving = Returns glyph_moving at_home_and_moving /\
  _auto_mode_logic 200 200 at_home_and_moving = Returns "recon" at_home_and_moving.
Proof.
  apply (glyph_and_submode_disagree 200 200 at_home_and_moving false at_home_and_moving).
  - vm_compute. reflexivity.
  - reflexivity.
  - vm_compute. reflexivity.
Defined.

(** ** Home whitelist from the configuration *)

Lemma lstrip_idem s : lstrip (lstrip s) = lstrip s.
Proof.
  induction s as [|a s IH]; cbn; [done|].
  destruct (is_space a) eqn:E; [done|]. cbn. by rewrite E.
Qed.

Lemma rstrip_idem s : rstrip (rstrip s) = rstrip s.
Proof.
  induction s as [|a s IH]; cbn; [done|].
  destruct (rstrip s) as [|b r] eqn:E.
  - destruct (is_space a) eqn:Ea; cbn; [done|]. by rewrite Ea.
  - cbn [rstrip]. cbn [rstrip] in IH. by rewrite IH.
Qed.

(** Stripping on the right leaves the left end alone. *)
Lemma lstrip_rstrip s : lstrip s = s -> lstrip (rstrip s) = rstrip s.
Proof.
  destruct s as [|a s]; cbn; [done|].
  destruct (is_space a) eqn:Ea.
  - intros H. exfalso.
    assert (Hlen : forall t, (String.length (lstrip t) <= String.length t)%nat).
    { induction t as [|b t IHt]; cbn; [done|]. destruct (is_space b); cbn; lia. }
    specialize (Hlen s). rewrite H in Hlen. cbn in Hlen. lia.
  - intros _. destruct (rstrip s); cbn; by rewrite Ea.
Qed.

Lemma strip_trimmed s : trimmed (strip s).
Proof.
  unfold trimmed, strip. split.
  - apply lstrip_rstrip, lstrip_idem.
  - apply rstrip_idem.
Qed.

Lemma In_non_empty x xs : In x (non_empty xs) <-> In x xs /\ x <> "".
Proof.
  unfold non_empty. rewrite filter_In.
  destruct (String.eqb_spec x ""); cbn; intuition congruence.
Qed.

Lemma In_whitelist_entries str_of v w :
  In w (whitelist_entries str_of v) -> w <> "" /\ trimmed w.
Proof.
  destruct v; cbn; try done.
  - intros [Hin Hne]%In_non_empty. split; [done|].
    apply in_map_iff in Hin as (piece & <- & _). apply strip_trimmed.
  - intros [Hin Hne]%In_non_empty. split; [done|].
    apply in_map_iff in Hin as (x & <- & _). apply strip_trimmed.
Qed.

(** X12: whatever the configuration holds, every entry of the whitelist
    [_load_home_whitelist] builds is a non-empty string without white
    space at either end; without a configuration table the whitelist is
    empty. *)
Theorem whitelist_entries_are_trimmed str_of config w :
  w ∈ _load_home_whitelist str_of config ->
  w <> "" /\ trimmed w /\ exists conf, config = ConfigTable conf.
Proof.
  destruct config as [| |conf]; cbn; try set_solver.
  destruct (find_whitelist conf) as [v|]; [|set_solver].
  rewrite elem_of_list_to_set, list_elem_of_In. intros Hin.
  destruct (In_whitelist_entries _ _ _ Hin). eauto.
Qed.

Lemma whitelist_entries_are_trimmed_witness :
  "HomeNet" <> "" /\ trimmed "HomeNet".
Proof.
  destruct (whitelist_entries_are_trimmed (fun _ => "")
              (ConfigTable [("main", PDict [("home_whitelist", PStr " HomeNet , ,aa:bb ")])])
              "HomeNet")
    as (Hne & Htrim & _).
  - vm_compute. reflexivity.
  - split; [exact Hne | exact Htrim].
Defined.

Lemma split_comma_nonempty s : split_comma s <> [].
Proof.
  destruct s as [|a s]; cbn; [done|].
  destruct (Ascii.eqb a ","); [done|]. by destruct (split_comma s).
Qed.

(** Joining the pieces with commas gives the string back, and no piece
    holds a comma. *)
Lemma split_comma_join s :
  String.concat "," (split_comma s) = s /\
  Forall (fun piece => forall a, In a (list_ascii_of_string piece) -> a <> ","%char)
    (split_comma s).
Proof.
  induction s as [|a s [IHjoin IHpieces]]; cbn [split_comma].
  - split; [done|]. repeat constructor. intros a [].
  - destruct (Ascii.eqb_spec a ",") as [->|Hne].
    + split.
      * pose proof (split_comma_nonempty s).
        destruct (split_comma s) as [|p ps] eqn:E; [done|].
        transitivity (String "," (String.concat "," (p :: ps))); [done|].
        by rewrite IHjoin.
      * constructor; [intros a [] | done].
    + pose proof (split_comma_nonempty s).
      destruct (split_comma s) as [|p ps] eqn:E; [done|]. split.
      * transitivity (String a (String.concat "," (p :: ps))); [by destruct ps|].
        by rewrite IHjoin.
      * apply Forall_cons in IHpieces as [Hp Hps]. constructor; [|done].
        intros b [<-|Hb]; [done | by apply Hp].
Qed.

Lemma split_comma_piece piece rest :
  comma_free piece ->
  split_comma (String.append piece (String "," rest)) = piece :: split_comma rest.
Proof.
  induction piece as [|a piece IH]; intros Hfree; simpl.
  - done.
  - destruct (Ascii.eqb_spec a ",") as [->|Hne].
    + exfalso. apply (Hfree ","%char); [by left | done].
    + rewrite IH; [done|]. intros b Hb. apply Hfree. by right.
Qed.

Lemma split_comma_free piece : comma_free piece -> split_comma piece = [piece].
Proof.
  induction piece as [|a piece IH]; intros Hfree; cbn; [done|].
  destruct (Ascii.eqb_spec a ",") as [->|Hne].
  - exfalso. apply (Hfree ","%char); [by left | done].
  - rewrite IH; [done|]. intros b Hb. apply Hfree. by right.
Qed.

(** The pieces between the commas of a string are what [split_comma]
    returns. *)
Lemma split_comma_unique pieces :
  pieces <> [] -> Forall comma_free pieces ->
  split_comma (String.concat "," pieces) = pieces.
Proof.
  induction pieces as [|p ps IH]; [done|]. intros _ Hfree.
  apply Forall_cons in Hfree as [Hp Hps].
  destruct ps as [|q qs].
  - cbn. by apply split_comma_free.
  - change (String.concat "," (p :: q :: qs))
      with (String.append p (String "," (String.concat "," (q :: qs)))).
    rewrite split_comma_piece by done. f_equal. by apply IH.
Qed.

(** X13: for a whitelist given as one string of ASCII characters, the
    entries are the pieces between its commas, stripped of surrounding
    white space, the empty ones left out.  On ASCII characters [strip] is
    [str.strip]; a piece with other characters is outside this statement,
    since [str.strip] also removes the white space of Unicode. *)
Theorem whitelist_from_csv str_of conf pieces w :
  pieces <> [] -> Forall comma_free pieces -> Forall ascii_only pieces ->
  find_whitelist conf = Some (PStr (String.concat "," pieces)) ->
  w ∈ _load_home_whitelist str_of (ConfigTable conf) <->
  w <> "" /\ exists piece, In piece pieces /\ strip piece = w.
Proof.
  intros Hne Hfree _ Hfind. cbn. rewrite Hfind. cbn.
  rewrite split_comma_unique by done.
  rewrite elem_of_list_to_set, list_elem_of_In, In_non_empty, in_map_iff.
  split.
  - intros [(piece & Hs & Hin) Hw]. eauto.
  - intros [Hw (piece & Hin & Hs)]. eauto.
Qed.

Lemma whitelist_from_csv_witness :
  "aa:bb" ∈ _load_home_whitelist (fun _ => "")
              (ConfigTable [("main.home_whitelist", PStr " HomeNet , ,aa:bb ")]).
Proof.
  apply (whitelist_from_csv (fun _ => "")
           [("main.home_whitelist", PStr " HomeNet , ,aa:bb ")]
           [" HomeNet "; " "; "aa:bb "]).
  - discriminate.
  - repeat constructor; intros a Ha; cbn in Ha;
      repeat (destruct Ha as [<-|Ha]; [discriminate|]); destruct Ha.
  - repeat (constructor;
            [intros a Ha; cbn in Ha;
             repeat (destruct Ha as [<-|Ha]; [vm_compute; lia|]); destruct Ha|]).
    constructor.
  - reflexivity.
  - split; [discriminate|]. exists "aa:bb ". split; [|reflexivity].
    right. right. left. reflexivity.
Defined.

(** ** The plugin under its host *)

(** Loading a snapshot of a state with a valid mode gives the memory, the
    mode and the timer of that state. *)
Lemma load_own_snapshot now t st0 st :
  In (mode st0) modes ->
  memory (_load_memory now (Some (JsonText (memory_data t st0))) st) = memory st0 /\
  mode (_load_memory now (Some (JsonText (memory_data t st0))) st) = mode st0 /\
  _stationary_start (_load_memory now (Some (JsonText (memory_data t st0))) st)
    = _stationary_start st0.
Proof.
  intros Hmode. unfold _load_memory, memory_data.
  edestruct (load_file_metadata now) as (st2 & Hst2 & ->); [reflexivity|].
  change (restore_mode (PStr (mode st0)) (set_memory (memory st0) st) = Returns tt st2)
    in Hst2.
  destruct (restore_mode_spec (PStr (mode st0)) (set_memory (memory st0) st))
    as (st2' & Hst2' & _ & _ & _ & Hset & _).
  rewrite Hst2 in Hst2'. injection Hst2' as <-.
  rewrite (Hset _ eq_refl Hmode). cbn [Dict.get String.eqb Ascii.eqb Bool.eqb from_option id].
  unfold py_sub. cbn [as_number]. by rewrite time_time_fits.
Qed.

Lemma _load_memory_sound now disk st :
  own_file disk -> sound st -> sound (_load_memory now disk st).
Proof.
  intros Hdisk Hst. destruct disk as [[doc|]|]; [| |done].
  - destruct Hdisk as (t & st0 & -> & Hmode0 & Hkeys0).
    destruct (load_own_snapshot now t st0 st Hmode0) as (Hmem & Hmode & _).
    split; [by rewrite Hmode | by rewrite Hmem].
  - split; [apply default_mode_valid|]. exists []. split; [done|]. intros ? ? [].
Qed.

Lemma on_unfiltered_ap_list_mode t data st :
  mode (on_unfiltered_ap_list t data st) = mode st.
Proof.
  unfold on_unfiltered_ap_list. destruct (ready st); cbn [negb]; [|done].
  set (st0 := if 30 <? _ then _ else st).
  assert (H0 : mode st0 = mode st) by (unfold st0; by case_match).
  assert (H : preserves (fun st st' => mode st' = mode st) (process_ap_list t data)).
  { unfold process_ap_list.
    assert (Hrefl : forall st : plugin, mode st = mode st) by done.
    assert (Htrans : forall st1 st2 st3 : plugin,
              mode st2 = mode st1 -> mode st3 = mode st2 -> mode st3 = mode st1)
      by (intros; congruence).
    do 3 (eapply preserves_bind;
          [exact Htrans | apply preserves_lift, Hrefl | intros ?]).
    eapply preserves_bind; [exact Htrans | | intros n].
    { intros st1. pose proof (ingest_aps_only_store (t_now t) a1 0 st1) as ->. done. }
    eapply preserves_bind;
      [exact Htrans | apply preserves_modify; intros ?; done | intros _].
    intros st1.
    by destruct (auto_switch_only_auto (t_stationary t) (t_moving t) st1) as (_ & _ & ? & _). }
  specialize (H st0). destruct (process_ap_list t data st0); cbn in *; congruence.
Qed.

Lemma _cleanup_memory_mode now st : mode (final_state (_cleanup_memory now st)) = mode st.
Proof.
  unfold _cleanup_memory, bind at 1, gets.
  by destruct (sweep_outcome (ap_expiry (mode st)) (client_expiry (mode st)) now st)
    as [->|(aps & expired & aps' & err & _ & _ & _ & ->)].
Qed.

Lemma _save_memory_own now w st disk :
  sound st -> own_file disk ->
  sound (fst (_save_memory now w st disk)) /\ own_file (snd (_save_memory now w st disk)).
Proof.
  intros Hst Hdisk. destruct w; cbn; try done. split; [done|]. by exists now, st.
Qed.

Lemma dispatch_sound c st disk :
  sound st -> own_file disk ->
  sound (fst (dispatch c (st, disk))) /\ own_file (snd (dispatch c (st, disk))).
Proof.
  intros Hst Hdisk. destruct c as [now| |t data|tm ts|k|now w]; cbn [dispatch fst snd].
  - split; [by apply _load_memory_sound | done].
  - done.
  - split; [|done]. destruct Hst as [Hmode Hkeys]. split.
    + by rewrite on_unfiltered_ap_list_mode.
    + by apply on_unfiltered_ap_list_keys_normal.
  - split; [|done].
    unfold on_ui_update. destruct (ready st); cbn [negb]; [|done].
    pose proof (render_status_only_timer tm ts st) as H.
    destruct (render_status tm ts st) as [text st'|e st']; cbn in *;
      by destruct H as [v ->].
  - unfold on_epoch. destruct (ready st); cbn [negb]; [|done].
    assert (Hswept : sound (final_state (epoch_cleanup k st))).
    { unfold epoch_cleanup. destruct (epoch k mod 10 =? 0); [|done].
      destruct Hst as [Hmode Hkeys]. split.
      - by rewrite _cleanup_memory_mode.
      - by apply _cleanup_memory_keys_normal. }
    destruct (epoch_cleanup k st) as [[] st1|e st1]; cbn in Hswept; [|done].
    destruct (memory_is_dirty st1 && (epoch k mod 5 =? 0)); [|done].
    pose proof (_save_memory_own (t_save k) (write k) st1 disk Hswept Hdisk) as [Hs Hd].
    by destruct (_save_memory (t_save k) (write k) st1 disk).
  - unfold on_unload. destruct (memory_is_dirty st); [|done].
    by apply _save_memory_own.
Qed.

(** X14: from a new plugin without a file, whatever callbacks the host
    makes, whatever the scanner reports and however the writes go, the
    top-level mode is one of the five modes and the memory is a dictionary
    whose keys, and the keys of whose client mappings, are lower-cased;
    the file is absent, unreadable, or a snapshot of such a state. *)
Theorem plugin_stays_sound str_of config callbacks :
  sound (fst (run callbacks (__init__ str_of config, None))) /\
  own_file (snd (run callbacks (__init__ str_of config, None))).
Proof.
  assert (H : forall world,
            sound (fst world) -> own_file (snd world) ->
            sound (fst (run callbacks world)) /\ own_file (snd (run callbacks world))).
  { unfold run. induction callbacks as [|c rest IH]; intros [st disk] Hst Hdisk; [done|].
    cbn [fold_left]. destruct (dispatch_sound c st disk Hst Hdisk) as [Hst' Hdisk'].
    by apply IH. }
  apply H; [|done]. split; [apply default_mode_valid|].
  exists []. split; [done|]. intros ? ? [].
Qed.

(** ** Periodic cycle and shutdown *)

(** X15: at an epoch that is a multiple of 10 the sweep runs first and sets
    the dirty flag, so a ready plugin whose sweep completes always attempts
    a save there, also when the flag was clear and nothing expired: when
    the write succeeds, the file is the snapshot of the swept state and the
    flag is clear.  When the sweep raises, the exception leaves the
    handler, the file is not touched and the flag is set. *)
Theorem tenth_epoch_always_saves :
  (forall k disk st st1,
     ready st = true -> epoch k mod 10 = 0 -> write k = WriteOk ->
     _cleanup_memory (t_cleanup k) st = Returns tt st1 ->
     on_epoch k disk st =
       (Returns tt (set_dirty false st1),
        Some (JsonText (memory_data (t_save k) st1)))) /\
  (forall k disk st e st1,
     ready st = true -> epoch k mod 10 = 0 ->
     _cleanup_memory (t_cleanup k) st = Raises e st1 ->
     on_epoch k disk st = (Raises e st1, disk) /\ memory_is_dirty st1 = true).
Proof.
  split.
  - intros k disk st st1 Hready Hten Hwrite Hsweep.
    assert (Hclean : epoch_cleanup k st = Returns tt st1).
    { unfold epoch_cleanup. by apply Z.eqb_eq in Hten as ->. }
    rewrite (on_epoch_unfold k disk st st1 Hready Hclean).
    pose proof (_cleanup_memory_sets_dirty (t_cleanup k) st) as Hdirty.
    rewrite Hsweep in Hdirty. cbn in Hdirty. rewrite Hdirty.
    assert (Hfive : (epoch k mod 5 =? 0) = true).
    { apply Z.eqb_eq.
      rewrite (Z.div_mod (epoch k) 10) by lia. rewrite Hten, Z.add_0_r.
      replace (10 * (epoch k / 10)) with ((2 * (epoch k / 10)) * 5) by lia.
      apply Z.mod_mul. lia. }
    rewrite Hfive, Hwrite. done.
  - intros k disk st e st1 Hready Hten Hsweep.
    pose proof (_cleanup_memory_sets_dirty (t_cleanup k) st) as Hdirty.
    rewrite Hsweep in Hdirty. split; [|done].
    unfold on_epoch, epoch_cleanup. rewrite Hready. apply Z.eqb_eq in Hten as ->.
    cbn [negb]. by rewrite Hsweep.
Qed.

Lemma tenth_epoch_always_saves_witness :
  on_epoch (working_tick 20) None drive_by_store
  = (Returns tt (set_dirty false (set_dirty true drive_by_store_swept)),
     Some (JsonText (memory_data 2000 (set_dirty true drive_by_store_swept)))).
Proof.
  destruct tenth_epoch_always_saves as [H _].
  apply (H (working_tick 20) None drive_by_store).
  - reflexivity.
  - reflexivity.
  - reflexivity.
  - vm_compute. reflexivity.
Defined.

(** X16: after a periodic save was attempted, [on_unload] writes nothing
    and changes nothing, whatever the write would do: the flag is clear, so
    the save of the shutdown is skipped.  When the periodic write had
    failed, the file is therefore left as the old one or as a truncated
    one. *)
Theorem shutdown_after_save_attempt_writes_nothing k disk st st1 now w :
  ready st = true ->
  epoch_cleanup k st = Returns tt st1 ->
  memory_is_dirty st1 = true -> epoch k mod 5 = 0 ->
  exists st2 disk2,
    on_epoch k disk st = (Returns tt st2, disk2) /\
    on_unload now w disk2 st2 = (st2, disk2) /\
    (write k <> WriteOk -> disk2 = disk \/ disk2 = Some Unparsable).
Proof.
  intros Hready Hclean Hdirty Hfive.
  rewrite (on_epoch_unfold k disk st st1 Hready Hclean).
  rewrite Hdirty. apply Z.eqb_eq in Hfive as ->. cbn [andb].
  eexists _, _. split; [reflexivity|]. split.
  - unfold on_unload. by destruct (write k).
  - intros Hfail. destruct (write k); cbn; [done | by left | by right].
Qed.

Lemma shutdown_after_save_attempt_writes_nothing_witness :
  exists st2,
    on_epoch (failing_tick 5) None unsaved_store = (Returns tt st2, None) /\
    on_unload 3000 WriteOk None st2 = (st2, None).
Proof.
  destruct (shutdown_after_save_attempt_writes_nothing
              (failing_tick 5) None unsaved_store unsaved_store 3000 WriteOk
              eq_refl eq_refl eq_refl eq_refl)
    as (st2 & disk2 & Hrun & Hunload & Hdisk).
  exists st2.
  assert (E : disk2 = None).
  { assert (E : snd (on_epoch (failing_tick 5) None unsaved_store) = None)
      by (vm_compute; reflexivity).
    rewrite Hrun in E. exact E. }
  rewrite E in Hrun, Hunload. split; [exact Hrun | exact Hunload].
Defined.

(** ** Activity history along a run *)

Lemma same_history_refl st : same_history st st.
Proof. done. Qed.

Lemma same_history_trans st1 st2 st3 :
  same_history st1 st2 -> same_history st2 st3 -> same_history st1 st3.
Proof. unfold same_history. congruence. Qed.

Lemma _load_memory_same_history now disk st : same_history st (_load_memory now disk st).
Proof.
  destruct disk as [f|]; [|done]. cbn [_load_memory].
  assert (H : preserves same_history (load_file now f)).
  { unfold load_file, restore_mode.
    repeat first [ apply preserves_modify; intros ?; done
                 | preserves_step same_history_refl same_history_trans ]. }
  specialize (H st). by destruct (load_file now f st).
Qed.

Lemma _cleanup_memory_same_history now st :
  same_history st (final_state (_cleanup_memory now st)).
Proof.
  unfold _cleanup_memory, bind at 1, gets.
  by destruct (sweep_outcome (ap_expiry (mode st)) (client_expiry (mode st)) now st)
    as [->|(aps & expired & aps' & err & _ & _ & _ & ->)].
Qed.

Lemma on_epoch_same_history k disk st :
  same_history st (final_state (fst (on_epoch k disk st))).
Proof.
  unfold on_epoch. destruct (ready st); cbn [negb]; [|done].
  assert (Hswept : same_history st (final_state (epoch_cleanup k st))).
  { unfold epoch_cleanup. destruct (epoch k mod 10 =? 0); [|done].
    apply _cleanup_memory_same_history. }
  destruct (epoch_cleanup k st) as [[] st1|e st1]; cbn in Hswept; [|done].
  destruct (memory_is_dirty st1 && (epoch k mod 5 =? 0)); [|done].
  by destruct (write k).
Qed.

(** The running count of new access points never goes down. *)
Lemma ingest_aps_count now items n st n' st' :
  ingest_aps now items n st = Returns n' st' -> n <= n'.
Proof.
  revert n st. induction items as [|ap_data rest IH]; intros n st H; cbn [ingest_aps] in H.
  - injection H as <- _. lia.
  - apply bind_Returns in H as (n1 & st1 & Hap & Hrest).
    apply IH in Hrest.
    destruct (ingest_ap_Returns _ _ _ _ _ _ Hap)
      as [(_ & -> & _)|(k & d & st2 & present & _ & _ & _ & _ & _ & _ & ->)]; [done|].
    destruct present; lia.
Qed.

Lemma counts_nonneg_update n now st :
  0 <= n -> counts_nonneg (_activity_history st) ->
  counts_nonneg (_activity_history (_update_activity_history n now st)).
Proof.
  intros Hn Hst. unfold _update_activity_history. cbn.
  apply counts_nonneg_filter. unfold counts_nonneg in *.
  apply Forall_app. split; [done|]. by constructor.
Qed.

Lemma on_unfiltered_ap_list_counts t data st :
  counts_nonneg (_activity_history st) ->
  counts_nonneg (_activity_history (on_unfiltered_ap_list t data st)).
Proof.
  intros Hst. unfold on_unfiltered_ap_list. destruct (ready st); cbn [negb]; [|done].
  set (st0 := if 30 <? _ then _ else st).
  assert (H0 : counts_nonneg (_activity_history st0)) by (unfold st0; by case_match).
  clearbody st0.
  assert (H : counts_nonneg (_activity_history (final_state (process_ap_list t data st0)))).
  { unfold process_ap_list.
    unfold bind at 1. destruct (lift _ st0) as [wifi st1|e st1] eqn:E.
    2: { unfold lift in E. destruct (py_get data "wifi" (PDict [])); by simplify_eq. }
    apply lift_Returns in E as [_ ->].
    unfold bind at 1. destruct (lift _ st0) as [aps st1|e st1] eqn:E.
    2: { unfold lift in E. destruct (py_get wifi "aps" (PList [])); by simplify_eq. }
    apply lift_Returns in E as [_ ->].
    unfold bind at 1. destruct (lift _ st0) as [items st1|e st1] eqn:E.
    2: { unfold lift in E. destruct (py_iter aps); by simplify_eq. }
    apply lift_Returns in E as [_ ->].
    unfold bind at 1.
    pose proof (ingest_aps_only_store (t_now t) items 0 st0) as Hstore.
    destruct (ingest_aps (t_now t) items 0 st0) as [n st1|e st1] eqn:E; cbn in Hstore.
    2: { cbn. by rewrite Hstore. }
    apply ingest_aps_count in E.
    unfold bind at 1, modify at 1.
    pose proof (auto_switch_only_auto (t_stationary t) (t_moving t)
                  (_update_activity_history n (t_history t) st1)) as Hauto.
    destruct Hauto as (_ & _ & _ & _ & _ & Hhist & _).
    cbv beta iota.
    rewrite Hhist.
    apply counts_nonneg_update; [done|]. by rewrite Hstore. }
  by destruct (process_ap_list t data st0).
Qed.

(** X17: the activity history of a plugin never holds a negative count,
    whatever callbacks the host makes, whatever the scanner reports and
    whatever the file holds: a sample is the number of access points a
    batch created, and no handler but [on_unfiltered_ap_list] touches the
    history. *)
Theorem activity_counts_never_negative str_of config callbacks disk :
  counts_nonneg
    (_activity_history (fst (run callbacks (__init__ str_of config, disk)))).
Proof.
  assert (H : forall world,
            counts_nonneg (_activity_history (fst world)) ->
            counts_nonneg (_activity_history (fst (run callbacks world)))).
  { unfold run. induction callbacks as [|c rest IH]; intros [st disk0] Hst; [done|].
    cbn [fold_left]. apply IH.
    destruct c as [now| |t data|tm ts|k|now w]; cbn [dispatch fst snd] in *.
    - unfold on_loaded. by rewrite _load_memory_same_history.
    - done.
    - by apply on_unfiltered_ap_list_counts.
    - unfold on_ui_update. destruct (ready st); cbn [negb]; [|done].
      pose proof (render_status_only_timer tm ts st) as H.
      destruct (render_status tm ts st) as [text st'|e st']; cbn in *;
        by destruct H as [v ->].
    - by rewrite on_epoch_same_history.
    - unfold on_unload. destruct (memory_is_dirty st); [|done]. by destruct w. }
  apply H. by constructor.
Qed.

(** ** Replaying an observation *)

Lemma set_memory_same st : set_memory (memory st) st = st.
Proof. by destruct st. Qed.

Lemma ingest_entry_done now k ssid rssi channel encryption st st' :
  ingest_entry now k ssid rssi channel encryption st = Ok st' ->
  entry_done now k ssid rssi st'.
Proof.
  intros H. destruct (ingest_entry_Ok _ _ _ _ _ _ _ _ H) as [aps Hmem].
  rewrite (ingest_entry_eq _ _ _ _ _ _ _ _ Hmem) in H.
  destruct (Dict.get k aps) as [[| | | | |d]|]; try discriminate; injection H as <-;
    eexists _, _; (split; [reflexivity|]); (split; [apply DictFacts.get_set_eq|]).
  - unfold updated_entry.
    destruct (py_truthy ssid); rewrite !DictFacts.get_set; cbn; done.
  - cbn. done.
Qed.

Lemma entry_done_keeps now k ssid rssi st st' :
  keeps_fields k st st' -> entry_done now k ssid rssi st -> entry_done now k ssid rssi st'.
Proof.
  intros [_ Hkeep] (aps & d & Hmem & Hget & Hlast & Hrssi & Hssid).
  destruct (Hkeep _ _ Hmem Hget) as (aps' & d' & Hmem' & Hget' & Hfields & _).
  exists aps', d'. rewrite !Hfields by discriminate. done.
Qed.

Lemma ingest_entry_again now k ssid rssi channel encryption st :
  entry_done now k ssid rssi st ->
  ingest_entry now k ssid rssi channel encryption st = Ok st.
Proof.
  intros (aps & d & Hmem & Hget & Hlast & Hrssi & Hssid).
  rewrite (ingest_entry_eq _ _ _ _ _ _ _ _ Hmem), Hget. f_equal.
  assert (Hd : updated_entry now ssid rssi d = d).
  { unfold updated_entry. rewrite (set_same _ _ _ Hlast), (set_same _ _ _ Hrssi).
    destruct (py_truthy ssid); [|done]. by rewrite set_same by auto. }
  rewrite Hd, (set_same _ _ _ Hget), <- Hmem. apply set_memory_same.
Qed.

Lemma ingest_client_done now k client_data c st st' :
  mac_of client_data = Ok c -> c <> "" ->
  ingest_client now k client_data st = Ok st' -> client_done now k c st'.
Proof.
  intros Hmac Hne H.
  destruct (ingest_client_Ok _ _ _ _ _ H)
    as [[E _]|(aps & d & clients & c' & Hmem & Hap & Hclients & Hmac' & _)];
    [congruence|].
  assert (c' = c) as -> by congruence.
  rewrite (ingest_client_eq _ _ _ _ _ _ _ _ Hmem Hap Hclients Hmac Hne) in H.
  destruct (Dict.get c clients) as [[| | | | |cd]|]; try discriminate; injection H as <-;
    eexists _, _, _, _; (split; [reflexivity|]);
    (split; [apply DictFacts.get_set_eq|]); (split; [apply DictFacts.get_set_eq|]);
    (split; [apply DictFacts.get_set_eq|]).
  - apply DictFacts.get_set_eq.
  - done.
Qed.

Lemma client_done_stable now k c client_data st st' :
  ingest_client now k client_data st = Ok st' ->
  client_done now k c st -> client_done now k c st'.
Proof.
  intros H Hdone.
  destruct (ingest_client_Ok _ _ _ _ _ H)
    as [[_ ->]|(aps & d & clients & c' & Hmem & Hap & Hclients & Hmac & Hne)]; [done|].
  rewrite (ingest_client_eq _ _ _ _ _ _ _ _ Hmem Hap Hclients Hmac Hne) in H.
  destruct Hdone as (aps0 & d0 & clients0 & cd & Hmem0 & Hap0 & Hclients0 & Hc & Hlast).
  assert (aps0 = aps) as -> by congruence.
  assert (d0 = d) as -> by congruence.
  assert (clients0 = clients) as -> by congruence.
  destruct (string_dec c' c) as [->|Hother].
  - rewrite Hc in H. injection H as <-.
    eexists _, _, _, _. split; [reflexivity|].
    split; [apply DictFacts.get_set_eq|]. split; [apply DictFacts.get_set_eq|].
    split; [apply DictFacts.get_set_eq|]. apply DictFacts.get_set_eq.
  - assert (Hput : forall cv dirty,
              client_done now k c
                (set_dirty dirty (set_memory (with_client k c' cv aps d clients) st))).
    { intros cv dirty. eexists _, _, _, cd. split; [reflexivity|].
      split; [apply DictFacts.get_set_eq|]. split; [apply DictFacts.get_set_eq|].
      split; [|done]. by rewrite DictFacts.get_set_ne. }
    destruct (Dict.get c' clients) as [[| | | | |cd']|]; try discriminate; injection H as <-.
    + specialize (Hput (PDict (Dict.set "last_seen" (PNum now) cd')) (memory_is_dirty st)).
      by destruct st.
    + apply Hput.
Qed.

Lemma ingest_client_again now k client_data c st :
  mac_of client_data = Ok c -> (c <> "" -> client_done now k c st) ->
  ingest_client now k client_data st = Ok st.
Proof.
  intros Hmac Hdone. destruct (string_dec c "") as [->|Hne].
  { unfold ingest_client. by rewrite Hmac. }
  destruct (Hdone Hne) as (aps & d & clients & cd & Hmem & Hap & Hclients & Hc & Hlast).
  rewrite (ingest_client_eq _ _ _ _ _ _ _ _ Hmem Hap Hclients Hmac Hne), Hc. f_equal.
  unfold with_client.
  rewrite (set_same _ _ _ Hlast), (set_same _ _ _ Hc), (set_same _ _ _ Hclients),
    (set_same _ _ _ Hap), <- Hmem.
  apply set_memory_same.
Qed.

(** When the client loop completes, every client of the list with an
    identifier is in the record, last seen at the time of the batch. *)
Lemma ingest_clients_done now k clients st st' :
  ingest_clients now k clients st = Returns tt st' ->
  Forall (fun client_data =>
            exists c, mac_of client_data = Ok c /\ (c <> "" -> client_done now k c st'))
         clients.
Proof.
  revert st. induction clients as [|client_data rest IH]; intros st H; [constructor|].
  cbn [ingest_clients] in H.
  apply bind_Returns in H as ([] & st1 & Hc & Hrest). apply atomic_Returns in Hc.
  constructor; [|by eapply IH].
  assert (Hmac : exists c, mac_of client_data = Ok c).
  { unfold ingest_client in Hc. destruct (mac_of client_data); [eauto | discriminate]. }
  destruct Hmac as [c Hmac]. exists c. split; [done|]. intros Hne.
  pose proof (ingest_client_done _ _ _ _ _ _ Hmac Hne Hc) as Hdone.
  clear Hc IH. revert st1 Hrest Hdone.
  induction rest as [|client_data' rest IH]; intros st1 Hrest Hdone.
  - by injection Hrest as <-.
  - cbn [ingest_clients] in Hrest.
    apply bind_Returns in Hrest as ([] & st2 & Hc & Hrest). apply atomic_Returns in Hc.
    eapply IH; [done|]. by eapply client_done_stable.
Qed.

Lemma ingest_clients_again now k clients st :
  Forall (fun client_data =>
            exists c, mac_of client_data = Ok c /\ (c <> "" -> client_done now k c st))
         clients ->
  ingest_clients now k clients st = Returns tt st.
Proof.
  induction 1 as [|client_data rest (c & Hmac & Hdone) _ IH]; [done|].
  cbn [ingest_clients]. unfold bind, atomic.
  by rewrite (ingest_client_again _ _ _ _ _ Hmac Hdone).
Qed.

(** X18: an observation that was processed without an exception can be
    replayed at the same instant without any effect: the second pass
    changes neither the store nor the dirty flag, raises nothing, and does
    not count the access point as new. *)
Theorem observation_replay_changes_nothing now ap_data n st n' st' m :
  ingest_ap now ap_data n st = Returns n' st' ->
  ingest_ap now ap_data m st' = Returns m st'.
Proof.
  intros H.
  destruct (ingest_ap_Returns _ _ _ _ _ _ H)
    as [(Hskip & _ & ->)|(k & d & st1 & present & -> & Hmac & Hne & _ & Hentry & Hcl & _)].
  { by apply ingest_ap_skip. }
  pose proof (entry_done_keeps _ _ _ _ _ _
                (preserves_Returns _ _ _ _ _ (ingest_ap_clients_keeps_fields now k (PDict d)) Hcl)
                (ingest_entry_done _ _ _ _ _ _ _ _ Hentry)) as Hdone.
  assert (Hmem : exists aps, memory st' = PDict aps /\ Dict.mem k aps = true).
  { destruct Hdone as (aps & d' & Hm & Hget & _). exists aps. split; [done|].
    unfold Dict.mem. by rewrite Hget. }
  destruct Hmem as (aps & Hmem & Hin).
  unfold ingest_ap_clients in Hcl.
  apply bind_Returns in Hcl as (cl & ? & Hget & Hcl). apply lift_Returns in Hget as [Hget ->].
  apply bind_Returns in Hcl as (items & ? & Hiter & Hcl).
  apply lift_Returns in Hiter as [Hiter ->].
  apply ingest_clients_done in Hcl.
  unfold ingest_ap. unfold bind at 1. unfold lift at 1. rewrite Hmac.
  destruct (String.eqb_spec k ""); [done|].
  unfold bind, lift, reads, ret, atomic, py_get. rewrite Hmem.
  cbn [py_in fmap result_fmap]. rewrite Hin. cbn [negb].
  unfold lift. rewrite (ingest_entry_again _ _ _ _ _ _ _ Hdone).
  unfold ingest_ap_clients, bind, lift. rewrite Hget, Hiter.
  by rewrite (ingest_clients_again _ _ _ _ Hcl).
Qed.

Lemma observation_replay_changes_nothing_witness :
  let ap_data := observation "AA:BB" "Net1" (-40) ["CC:DD"; "EE:FF"] in
  exists st',
    ingest_ap 100 ap_data 0 (fresh ∅) = Returns 1 st' /\
    ingest_ap 100 ap_data 1 st' = Returns 1 st'.
Proof.
  intros ap_data.
  assert (H : ingest_ap 100 ap_data 0 (fresh ∅)
              = Returns 1 (final_state (ingest_ap 100 ap_data 0 (fresh ∅))))
    by (vm_compute; reflexivity).
  eexists. split; [exact H|].
  exact (observation_replay_changes_nothing 100 ap_data 0 (fresh ∅) 1 _ 1 H).
Defined.
